(** * pepr3d: the bucket flood fill of [Geometry] and the per-triangle
    region engine of [TriangleDetail]

    A shallow embedding of [src/geometry/Geometry.h] and
    [src/geometry/TriangleDetail.cpp].  Containers are modelled with stdpp:
    [std::vector] and [std::deque] as lists, [std::unordered_set] and
    [std::set] as [gset], [std::map] as [gmap].  An assertion that fails, or
    an access out of range, is the error outcome [None]. *)

From Stdlib Require Import ZArith QArith Qround Lqa Lia PrimFloat Uint63.
From stdpp Require Import base option list gmap sets sorting.

Local Open Scope Z_scope.

(** ** Machine integers *)

(** [static_cast<int>(size_t)]: keep the low 32 bits, read as two's
    complement. *)
Definition int_of_size_t (n : nat) : Z :=
  let z := Z.of_nat n mod 2 ^ 32 in
  if z <? 2 ^ 31 then z else z - 2 ^ 32.

(** The conversion of an [int] to [size_t] (64 bits, sign extended). *)
Definition size_t_of_int (z : Z) : nat := Z.to_nat (z mod 2 ^ 64).

(** [static_cast<GLuint>(size_t)]. *)
Definition ColorIndex_of_size_t (n : nat) : Z := Z.of_nat n mod 2 ^ 32.

(** ** Geometry.h *)

Module Geo.

Section geometry.

(** [glm::vec3], the AABB tree and the palette entries are opaque here. *)
Context {vec3 Tree ColorA : Type}.

(** [DataTriangle] (Triangle.h): the triangle, its normal and its color. *)
Record DataTriangle := {
  dtTri : vec3 * vec3 * vec3;
  dtNormal : vec3;
  dtColor : nat
}.

Definition setColor (newColor : nat) (t : DataTriangle) : DataTriangle :=
  {| dtTri := dtTri t; dtNormal := dtNormal t; dtColor := newColor |}.

(** [ColorManager]: the palette and the index of the active color. *)
Record ColorManager := {
  cmColorMap : list ColorA;
  cmActiveColorIndex : nat
}.

(** A facet of the CGAL polyhedron: its [id()] and, for each halfedge around
    it (in the order of [facet_begin()]), the facet on the other side,
    [None] at a border halfedge.  A facet handle is a position in the
    polyhedron's facet list. *)
Record Facet := {
  facet_id : nat;
  facet_opposite : list (option nat)
}.

(** The polyhedron: its facets and the number of its vertices.  All its
    halfedges lie around a facet or opposite to one that does. *)
Record Polyhedron := {
  facets : list Facet;
  size_of_vertices : nat
}.

Definition size_of_facets (P : Polyhedron) : nat := length (facets P).

(** [P.is_empty()]: the polyhedron has no halfedge. *)
Definition is_empty (P : Polyhedron) : bool :=
  bool_decide (concat (facet_opposite <$> facets P) = []).

(** [P.clear()]. *)
Definition clear : Polyhedron := {| facets := []; size_of_vertices := 0 |}.

Record PolyhedronData := {
  pdVertices : list vec3;
  pdIndices : list (nat * nat * nat);
  pdP : Polyhedron;
  pdFaceHandles : list nat;
  pdCloseCheck : bool
}.

Record Geometry := {
  mTriangles : list DataTriangle;
  mVertexBuffer : list vec3;
  mColorBuffer : list Z;
  mNormalBuffer : list vec3;
  mIndexBuffer : list Z;
  mTree : Tree;
  mColorManager : ColorManager;
  mPolyhedronData : PolyhedronData
}.

Definition set_colors (g : Geometry) (tris : list DataTriangle) (buf : list Z)
    : Geometry :=
  {| mTriangles := tris;
     mVertexBuffer := mVertexBuffer g;
     mColorBuffer := buf;
     mNormalBuffer := mNormalBuffer g;
     mIndexBuffer := mIndexBuffer g;
     mTree := mTree g;
     mColorManager := mColorManager g;
     mPolyhedronData := mPolyhedronData g |}.

Definition set_polyhedron (g : Geometry) (pd : PolyhedronData) : Geometry :=
  {| mTriangles := mTriangles g;
     mVertexBuffer := mVertexBuffer g;
     mColorBuffer := mColorBuffer g;
     mNormalBuffer := mNormalBuffer g;
     mIndexBuffer := mIndexBuffer g;
     mTree := mTree g;
     mColorManager := mColorManager g;
     mPolyhedronData := pd |}.

(** [setTriangleColor]: three entries of the color buffer, then the triangle
    soup; both assertions guard the writes. *)
Definition setTriangleColor (triangleIndex newColor : nat) (g : Geometry)
    : option Geometry :=
  let vertexPosition := (triangleIndex * 3)%nat in
  guard (vertexPosition + 2 < length (mColorBuffer g))%nat;;
  let newColorIndex := ColorIndex_of_size_t newColor in
  let buf := <[(vertexPosition + 2)%nat := newColorIndex]>
             (<[(vertexPosition + 1)%nat := newColorIndex]>
              (<[vertexPosition := newColorIndex]> (mColorBuffer g))) in
  guard (triangleIndex < length (mTriangles g))%nat;;
  Some (set_colors g (alter (setColor newColor) triangleIndex (mTriangles g)) buf).

(** [getTriangleColor]. *)
Definition getTriangleColor (triangleIndex : nat) (g : Geometry) : option nat :=
  dtColor <$> mTriangles g !! triangleIndex.

(** [gatherNeighbours]: the ids of the facets across the three halfedges of
    facet [triIndex], [-1] where there is none. *)
Definition neighbourOf (g : Geometry) (opp : option nat) : option Z :=
  match opp with
  | None => Some (-1)
  | Some h =>
      f ← facets (pdP (mPolyhedronData g)) !! h;
      let triId := facet_id f in
      guard (size_t_of_int (int_of_size_t triId) < length (mTriangles g))%nat;;
      Some (int_of_size_t triId)
  end.

Definition gatherNeighbours (g : Geometry) (triIndex : nat)
    (faceHandles : list nat) : option (list Z) :=
  h ← faceHandles !! triIndex;
  facet ← facets (pdP (mPolyhedronData g)) !! h;
  guard (length (facet_opposite facet) = 3%nat);;
  mapM (neighbourOf g) (facet_opposite facet).

(** The stopping condition is a functor holding a pointer to the geometry it
    is run on: it reads the triangles as they are when it is called. *)
Definition StoppingCondition := Geometry → nat → nat → bool.

(** What one flood does, in order: the ghost trace of the run. *)
Inductive Event :=
  | EvPredicate (candidate current : nat) (result : bool)
  | EvQueued (face : nat)
  | EvPainted (face : nat).

#[export] Instance Event_eq_dec : EqDecision Event.
Proof. solve_decision. Defined.

(** The search state: [alreadyVisited], [toVisit] and the trace. *)
Record Search := {
  alreadyVisited : gset nat;
  toVisit : list nat;
  trace : list Event
}.

(** The body of the loop of [addNeighboursToQueue] for one neighbour. *)
Definition visitNeighbour (g : Geometry) (stopFunctor : StoppingCondition)
    (currentVertex : nat) (s : Search) (neighbour : Z) : Search :=
  if decide (neighbour = -1) then s
  else
    let n := size_t_of_int neighbour in
    if decide (n ∈ alreadyVisited s) then s
    else if stopFunctor g n currentVertex then
      {| alreadyVisited := {[n]} ∪ alreadyVisited s;
         toVisit := toVisit s ++ [n];
         trace := trace s ++ [EvPredicate n currentVertex true; EvQueued n] |}
    else
      {| alreadyVisited := alreadyVisited s;
         toVisit := toVisit s;
         trace := trace s ++ [EvPredicate n currentVertex false] |}.

Definition addNeighboursToQueue (g : Geometry) (currentVertex : nat)
    (faceHandles : list nat) (s : Search) (stopFunctor : StoppingCondition)
    : option Search :=
  neighbours ← gatherNeighbours g currentVertex faceHandles;
  Some (foldl (visitNeighbour g stopFunctor currentVertex) s neighbours).

(** One turn of the [while] loop of [bucket], the queue being
    [currentVertex :: rest]. *)
Definition bucketStep (stopFunctor : StoppingCondition) (g : Geometry)
    (s : Search) (currentVertex : nat) (rest : list nat)
    : option (Geometry * Search) :=
  guard (currentVertex ∈ alreadyVisited s);;
  guard (currentVertex < length (mTriangles g))%nat;;
  guard (length rest < length (mTriangles g))%nat;;
  s' ← addNeighboursToQueue g currentVertex (pdFaceHandles (mPolyhedronData g))
         {| alreadyVisited := alreadyVisited s; toVisit := rest; trace := trace s |}
         stopFunctor;
  g' ← setTriangleColor currentVertex (cmActiveColorIndex (mColorManager g)) g;
  Some (g', {| alreadyVisited := alreadyVisited s';
               toVisit := toVisit s';
               trace := trace s' ++ [EvPainted currentVertex] |}).

Fixpoint bucketLoop (fuel : nat) (stopFunctor : StoppingCondition)
    (g : Geometry) (s : Search) : option (Geometry * Search) :=
  match toVisit s with
  | [] => Some (g, s)
  | currentVertex :: rest =>
      match fuel with
      | O => None
      | S fuel' =>
          '(g', s') ← bucketStep stopFunctor g s currentVertex rest;
          bucketLoop fuel' stopFunctor g' s'
      end
  end.

(** Every face enters the queue at most once, so twice the number of
    triangles bounds the turns of the loop. *)
Definition bucketFuel (g : Geometry) : nat := (2 * length (mTriangles g))%nat.

(** [bucket], with the trace of the run. *)
Definition bucketRun (startTriangle : nat) (stopFunctor : StoppingCondition)
    (g : Geometry) : option (Geometry * list Event) :=
  if is_empty (pdP (mPolyhedronData g)) then Some (g, [])
  else
    let startingFace := startTriangle in
    let s0 := {| alreadyVisited := {[startingFace]};
                 toVisit := [startingFace];
                 trace := [] |} in
    guard (length (pdIndices (mPolyhedronData g)) = length (mTriangles g));;
    '(g', s') ← bucketLoop (bucketFuel g) stopFunctor g s0;
    Some (g', trace s').

Definition bucket (startTriangle : nat) (stopFunctor : StoppingCondition)
    (g : Geometry) : option Geometry :=
  fst <$> bucketRun startTriangle stopFunctor g.

(** [buildPolyhedron]: [delegate] is the run of the incremental builder on
    the indices and the vertices, [None] when CGAL raises its assertion
    exception; the polyhedron is then cleared and the facet handles are left
    as they were. *)
Definition set_facet_id (facetId h : nat) (P : Polyhedron) : Polyhedron :=
  {| facets := alter (λ f, {| facet_id := facetId;
                              facet_opposite := facet_opposite f |}) h (facets P);
     size_of_vertices := size_of_vertices P |}.

Definition number_facets (P : Polyhedron) (faceHandles : list nat) : Polyhedron :=
  foldl (λ P '(facetId, h), set_facet_id facetId h P) P (imap pair faceHandles).

(** [P.is_closed()]: no halfedge is a border halfedge. *)
Definition is_closed (P : Polyhedron) : bool :=
  forallb (λ f, forallb (λ o, bool_decide (is_Some o)) (facet_opposite f))
          (facets P).

Definition set_P (pd : PolyhedronData) (P : Polyhedron) (faceHandles : list nat)
    (closeCheck : bool) : PolyhedronData :=
  {| pdVertices := pdVertices pd; pdIndices := pdIndices pd; pdP := P;
     pdFaceHandles := faceHandles; pdCloseCheck := closeCheck |}.

Definition buildPolyhedron
    (delegate : list (nat * nat * nat) → list vec3 → option (Polyhedron * list nat))
    (g : Geometry) : option Geometry :=
  let pd := mPolyhedronData g in
  match delegate (pdIndices pd) (pdVertices pd) with
  | None => Some (set_polyhedron g (set_P pd clear (pdFaceHandles pd) (pdCloseCheck pd)))
  | Some (P, faceHandles) =>
      guard (size_of_facets P = length (pdIndices pd));;
      guard (size_of_vertices P = length (pdVertices pd));;
      let P' := number_facets P faceHandles in
      Some (set_polyhedron g (set_P pd P' faceHandles (is_closed P')))
  end.

(** The invariants of the class that [loadNewGeometry] and
    [buildPolyhedron] establish, as a check: the triangle count fits an
    [int], there are three color entries, one index triple and one facet
    handle per triangle, and every handle is a triangular facet whose
    neighbours carry the id of a triangle. *)
Definition opposite_ok (g : Geometry) (o : option nat) : bool :=
  match o with
  | None => true
  | Some h' =>
      match facets (pdP (mPolyhedronData g)) !! h' with
      | Some f' => bool_decide (facet_id f' < length (mTriangles g))%nat
      | None => false
      end
  end.

Definition facet_ok (g : Geometry) (h : nat) : bool :=
  match facets (pdP (mPolyhedronData g)) !! h with
  | Some facet =>
      bool_decide (length (facet_opposite facet) = 3%nat)
      && forallb (opposite_ok g) (facet_opposite facet)
  | None => false
  end.

Definition well_formed (g : Geometry) : bool :=
  bool_decide (Z.of_nat (length (mTriangles g)) < 2 ^ 31)
  && bool_decide (length (mColorBuffer g) = (3 * length (mTriangles g))%nat)
  && bool_decide (length (pdIndices (mPolyhedronData g)) = length (mTriangles g))
  && bool_decide (length (pdFaceHandles (mPolyhedronData g)) = length (mTriangles g))
  && forallb (facet_ok g) (pdFaceHandles (mPolyhedronData g)).

Definition activeColor (g : Geometry) : nat :=
  cmActiveColorIndex (mColorManager g).

(** A face on which the predicate returned [false] is never looked at again
    in the same flood: it is not asked about again, not queued, not
    painted. *)
Definition permanently_skipped (t : list Event) : Prop :=
  ∀ i n c, t !! i = Some (EvPredicate n c false) →
    ∀ j e, (i < j)%nat → t !! j = Some e →
      e ≠ EvQueued n ∧ e ≠ EvPainted n ∧ ∀ c' b, e ≠ EvPredicate n c' b.

End geometry.

Arguments DataTriangle : clear implicits.
Arguments ColorManager : clear implicits.
Arguments PolyhedronData : clear implicits.
Arguments Geometry : clear implicits.
Arguments StoppingCondition : clear implicits.

(** *** Properties of the flood fill *)

Section bucket_properties.

Context {vec3 Tree ColorA : Type}.

Local Abbreviation Geometry := (Geometry vec3 Tree ColorA).
Local Abbreviation StoppingCondition := (StoppingCondition vec3 Tree ColorA).

(** The well-formedness check, as the facts the proofs use. *)
Record wf (g : Geometry) : Prop := {
  wf_int : Z.of_nat (length (mTriangles g)) < 2 ^ 31;
  wf_colors : length (mColorBuffer g) = (3 * length (mTriangles g))%nat;
  wf_indices :
    length (pdIndices (mPolyhedronData g)) = length (mTriangles g);
  wf_handles :
    length (pdFaceHandles (mPolyhedronData g)) = length (mTriangles g);
  wf_facets : ∀ i h, pdFaceHandles (mPolyhedronData g) !! i = Some h →
    ∃ facet, facets (pdP (mPolyhedronData g)) !! h = Some facet ∧
      length (facet_opposite facet) = 3%nat ∧
      ∀ h', Some h' ∈ facet_opposite facet →
        ∃ f', facets (pdP (mPolyhedronData g)) !! h' = Some f' ∧
              (facet_id f' < length (mTriangles g))%nat
}.

Lemma well_formed_wf (g : Geometry) : well_formed g = true → wf g.
Proof.
  unfold well_formed. rewrite !andb_true_iff, !bool_decide_eq_true.
  intros ((((Hint & Hc) & Hi) & Hh) & Hf). split; try done.
  intros i h Hih. rewrite forallb_forall in Hf.
  assert (facet_ok g h = true) as Hok.
  { apply Hf. apply list_elem_of_In, list_elem_of_lookup. eauto. }
  unfold facet_ok in Hok.
  destruct (facets (pdP (mPolyhedronData g)) !! h) as [facet|]; [|done].
  apply andb_true_iff in Hok as [H3%bool_decide_eq_true Hopp].
  exists facet. split_and!; try done.
  intros h' Hin. rewrite forallb_forall in Hopp.
  specialize (Hopp (Some h')). simpl in Hopp.
  destruct (facets (pdP (mPolyhedronData g)) !! h') as [f'|].
  - exists f'. split; [done|]. eapply bool_decide_eq_true_1, Hopp.
    by apply list_elem_of_In.
  - discriminate Hopp. by apply list_elem_of_In.
Qed.

Lemma int_of_size_t_small (n : nat) :
  Z.of_nat n < 2 ^ 31 → int_of_size_t n = Z.of_nat n.
Proof.
  intros Hn. unfold int_of_size_t.
  rewrite Z.mod_small by lia.
  destruct (Z.ltb_spec (Z.of_nat n) (2 ^ 31)); lia.
Qed.

Lemma size_t_of_int_small (n : nat) :
  Z.of_nat n < 2 ^ 31 → size_t_of_int (Z.of_nat n) = n.
Proof.
  intros Hn. unfold size_t_of_int.
  rewrite Z.mod_small by lia. apply Nat2Z.id.
Qed.

(** **** [setTriangleColor] *)

Lemma setTriangleColor_Some (g : Geometry) (i c : nat) :
  length (mColorBuffer g) = (3 * length (mTriangles g))%nat →
  (i < length (mTriangles g))%nat →
  setTriangleColor i c g
  = Some (set_colors g (alter (setColor c) i (mTriangles g))
            (<[(i * 3 + 2)%nat := ColorIndex_of_size_t c]>
             (<[(i * 3 + 1)%nat := ColorIndex_of_size_t c]>
              (<[(i * 3)%nat := ColorIndex_of_size_t c]> (mColorBuffer g))))).
Proof.
  intros Hbuf Hi. unfold setTriangleColor.
  rewrite !option_guard_True by lia. done.
Qed.

Lemma setTriangleColor_frame (g g' : Geometry) (i c : nat) :
  setTriangleColor i c g = Some g' →
  mPolyhedronData g' = mPolyhedronData g ∧
  mColorManager g' = mColorManager g ∧
  length (mTriangles g') = length (mTriangles g) ∧
  length (mColorBuffer g') = length (mColorBuffer g) ∧
  getTriangleColor i g' = Some c ∧
  ∀ j, j ≠ i → getTriangleColor j g' = getTriangleColor j g.
Proof.
  unfold setTriangleColor. intros H. simplify_option_eq.
  unfold getTriangleColor; simpl.
  rewrite length_alter, !length_insert. repeat split; try done.
  - rewrite list_lookup_alter_eq.
    destruct (lookup_lt_is_Some_2 (mTriangles g) i) as [t ->]; [lia|done].
  - intros j Hj. by rewrite list_lookup_alter_ne.
Qed.

Lemma setTriangleColor_wf (g g' : Geometry) (i c : nat) :
  wf g → setTriangleColor i c g = Some g' → wf g'.
Proof.
  intros [] H. destruct (setTriangleColor_frame _ _ _ _ H) as (HP & _ & HT & HC & _).
  split; rewrite ?HP, ?HT, ?HC; try done.
Qed.

(** **** [gatherNeighbours] *)

Definition neighbour_ok (n : nat) (nb : Z) : Prop :=
  nb = -1 ∨ (0 ≤ nb < Z.of_nat n).

Lemma gatherNeighbours_wf (g : Geometry) (i : nat) :
  wf g → (i < length (mTriangles g))%nat →
  ∃ nbs, gatherNeighbours g i (pdFaceHandles (mPolyhedronData g)) = Some nbs ∧
         Forall (neighbour_ok (length (mTriangles g))) nbs.
Proof.
  intros Hwf Hi. destruct Hwf as [Hint _ _ Hh Hf].
  destruct (lookup_lt_is_Some_2 (pdFaceHandles (mPolyhedronData g)) i) as [h Hh'];
    [lia|].
  destruct (Hf _ _ Hh') as (facet & Hfacet & H3 & Hopp).
  unfold gatherNeighbours. rewrite Hh'. simpl. rewrite Hfacet. simpl.
  rewrite option_guard_True by done. simpl.
  clear H3. induction (facet_opposite facet) as [|o os IH].
  - exists []. split; [done|constructor].
  - destruct IH as (nbs & Hnbs & Hok).
    { intros h' Hin. apply Hopp. by right. }
    assert (∃ nb, neighbourOf g o = Some nb ∧
                  neighbour_ok (length (mTriangles g)) nb) as (nb & Hnb & Hnbok).
    { destruct o as [h'|]; simpl.
      - destruct (Hopp h') as (f' & Hf' & Hid); [by left|].
        rewrite Hf'. simpl.
        rewrite int_of_size_t_small, size_t_of_int_small by lia.
        rewrite option_guard_True by done.
        eexists. split; [done|]. right. lia.
      - eexists. split; [done|]. by left. }
    exists (nb :: nbs). split; [|by constructor].
    simpl. rewrite Hnb. simpl. by rewrite Hnbs.
Qed.

(** **** The trace of a run *)

(** What every trace of a flood started at [start] satisfies: a face is
    queued right after the predicate accepted it, the predicate is only
    asked about a face that is neither the seed nor queued yet, and a
    painted face is the seed or was queued before. *)
Record trace_ok (start : nat) (t : list Event) : Prop := {
  tr_queued : ∀ j x, t !! j = Some (EvQueued x) →
    ∃ c, (0 < j)%nat ∧ t !! pred j = Some (EvPredicate x c true);
  tr_predicate : ∀ i x c b, t !! i = Some (EvPredicate x c b) →
    x ≠ start ∧ ∀ k, (k < i)%nat → t !! k ≠ Some (EvQueued x);
  tr_painted : ∀ j x, t !! j = Some (EvPainted x) →
    x = start ∨ ∃ k, (k < j)%nat ∧ t !! k = Some (EvQueued x)
}.

Lemma trace_ok_nil (start : nat) : trace_ok start [].
Proof. split; intros *; rewrite lookup_nil; done. Qed.

Lemma lookup_snoc_lt (t : list Event) (e : Event) (k : nat) :
  (k < length t)%nat → (t ++ [e]) !! k = t !! k.
Proof. intros. by rewrite lookup_app_l. Qed.

Lemma trace_ok_snoc_predicate (start : nat) (t : list Event) (x c : nat) (b : bool) :
  trace_ok start t → x ≠ start → EvQueued x ∉ t →
  trace_ok start (t ++ [EvPredicate x c b]).
Proof.
  intros [HQ HP HD] Hx Hnq. split.
  - intros j y [[Hj Hy]|[_ ?]]%lookup_snoc_Some; [|done].
    destruct (HQ _ _ Hy) as (c' & H0 & Hc'). exists c'. split; [done|].
    rewrite lookup_snoc_lt by lia. done.
  - intros i y c' b' [[Hi Hy]|[-> Heq]]%lookup_snoc_Some.
    + destruct (HP _ _ _ _ Hy) as [? Hk]. split; [done|].
      intros k Hlt. rewrite lookup_snoc_lt by lia. by apply Hk.
    + inversion Heq; subst. split; [done|].
      intros k Hlt. rewrite lookup_snoc_lt by lia.
      intros Hk. apply Hnq. apply list_elem_of_lookup. eauto.
  - intros j y [[Hj Hy]|[_ ?]]%lookup_snoc_Some; [|done].
    destruct (HD _ _ Hy) as [?|(k & Hk & Hq)]; [by left|right].
    exists k. split; [done|]. by rewrite lookup_snoc_lt by lia.
Qed.

Lemma trace_ok_snoc_queued (start : nat) (t : list Event) (x c : nat) :
  trace_ok start (t ++ [EvPredicate x c true]) →
  trace_ok start ((t ++ [EvPredicate x c true]) ++ [EvQueued x]).
Proof.
  set (t' := t ++ [EvPredicate x c true]).
  assert (t' !! length t = Some (EvPredicate x c true)) as Hlast.
  { unfold t'. by rewrite list_lookup_middle. }
  assert (length t' = S (length t)) as Hlen.
  { unfold t'. rewrite length_app. simpl. lia. }
  intros [HQ HP HD]. split.
  - intros j y [[Hj Hy]|[-> Heq]]%lookup_snoc_Some.
    + destruct (HQ _ _ Hy) as (c' & H0 & Hc'). exists c'. split; [done|].
      rewrite lookup_snoc_lt by lia. done.
    + inversion Heq; subst. exists c. split; [lia|].
      rewrite Hlen. simpl. rewrite lookup_snoc_lt by lia. done.
  - intros i y c' b' [[Hi Hy]|[_ ?]]%lookup_snoc_Some; [|done].
    destruct (HP _ _ _ _ Hy) as [? Hk]. split; [done|].
    intros k Hlt. rewrite lookup_snoc_lt by lia. by apply Hk.
  - intros j y [[Hj Hy]|[_ ?]]%lookup_snoc_Some; [|done].
    destruct (HD _ _ Hy) as [?|(k & Hk & Hq)]; [by left|right].
    exists k. split; [done|]. by rewrite lookup_snoc_lt by lia.
Qed.

Lemma trace_ok_snoc_painted (start : nat) (t : list Event) (x : nat) :
  trace_ok start t → x = start ∨ EvQueued x ∈ t →
  trace_ok start (t ++ [EvPainted x]).
Proof.
  intros [HQ HP HD] Hx. split.
  - intros j y [[Hj Hy]|[_ ?]]%lookup_snoc_Some; [|done].
    destruct (HQ _ _ Hy) as (c' & H0 & Hc'). exists c'. split; [done|].
    rewrite lookup_snoc_lt by lia. done.
  - intros i y c' b' [[Hi Hy]|[_ ?]]%lookup_snoc_Some; [|done].
    destruct (HP _ _ _ _ Hy) as [? Hk]. split; [done|].
    intros k Hlt. rewrite lookup_snoc_lt by lia. by apply Hk.
  - intros j y [[Hj Hy]|[-> Heq]]%lookup_snoc_Some.
    + destruct (HD _ _ Hy) as [?|(k & Hk & Hq)]; [by left|right].
      exists k. split; [done|]. by rewrite lookup_snoc_lt by lia.
    + inversion Heq; subst. destruct Hx as [?|Hin]; [by left|right].
      apply list_elem_of_lookup in Hin as [k Hk].
      exists k. split; [by eapply lookup_lt_Some|].
      rewrite lookup_snoc_lt; [done|by eapply lookup_lt_Some].
Qed.

(** The visited set is the seed and the faces queued so far, and it holds
    the whole queue. *)
Record search_ok (start : nat) (s : Search) : Prop := {
  so_trace : trace_ok start (trace s);
  so_visited : ∀ x, x ∈ alreadyVisited s ↔ x = start ∨ EvQueued x ∈ trace s;
  so_queue : ∀ x, x ∈ toVisit s → x ∈ alreadyVisited s
}.

Lemma visitNeighbour_ok (g : Geometry) (f : StoppingCondition)
    (start c : nat) (s : Search) (nb : Z) :
  search_ok start s → search_ok start (visitNeighbour g f c s nb).
Proof.
  intros [Ht Hv Hq]. unfold visitNeighbour.
  destruct (decide (nb = -1)) as [|Hnb]; [done|].
  destruct (decide (size_t_of_int nb ∈ alreadyVisited s)) as [|Hnew]; [done|].
  set (n := size_t_of_int nb) in *.
  assert (n ≠ start ∧ EvQueued n ∉ trace s) as [Hn Hnq].
  { split; intros ?; apply Hnew, Hv; auto. }
  destruct (f g n c); split; simpl.
  - change (trace s ++ [EvPredicate n c true; EvQueued n])
      with (trace s ++ [EvPredicate n c true] ++ [EvQueued n]).
    rewrite app_assoc. apply trace_ok_snoc_queued.
    by apply trace_ok_snoc_predicate.
  - intros x. rewrite elem_of_union, elem_of_singleton, Hv.
    rewrite elem_of_app, !elem_of_cons, elem_of_nil. intuition congruence.
  - intros x. rewrite elem_of_app, list_elem_of_singleton, elem_of_union,
      elem_of_singleton. intros [?|?]; auto.
  - by apply trace_ok_snoc_predicate.
  - intros x. rewrite Hv, elem_of_app, elem_of_cons, elem_of_nil.
    intuition congruence.
  - done.
Qed.

Lemma addNeighbours_ok (g : Geometry) (f : StoppingCondition)
    (start c : nat) (nbs : list Z) (s : Search) :
  search_ok start s →
  search_ok start (foldl (visitNeighbour g f c) s nbs).
Proof.
  revert s. induction nbs as [|nb nbs IH]; intros s Hs; simpl; [done|].
  by apply IH, visitNeighbour_ok.
Qed.

Lemma visitNeighbour_visited (g : Geometry) (f : StoppingCondition)
    (c : nat) (s : Search) (nb : Z) (x : nat) :
  x ∈ alreadyVisited s → x ∈ alreadyVisited (visitNeighbour g f c s nb).
Proof.
  intros Hx. unfold visitNeighbour.
  repeat case_decide; try done. destruct (f g _ c); simpl; [|done].
  apply elem_of_union. by right.
Qed.

Lemma addNeighbours_visited (g : Geometry) (f : StoppingCondition)
    (c : nat) (nbs : list Z) (s : Search) (x : nat) :
  x ∈ alreadyVisited s →
  x ∈ alreadyVisited (foldl (visitNeighbour g f c) s nbs).
Proof.
  revert s. induction nbs as [|nb nbs IH]; intros s Hs; simpl; [done|].
  by apply IH, visitNeighbour_visited.
Qed.

(** One turn of the loop, read backwards. *)
Lemma bucketStep_Some (f : StoppingCondition) (g g' : Geometry)
    (c : nat) (rest : list nat) (s s' : Search) :
  bucketStep f g s c rest = Some (g', s') →
  c ∈ alreadyVisited s ∧ (c < length (mTriangles g))%nat ∧
  (length rest < length (mTriangles g))%nat ∧
  ∃ nbs, gatherNeighbours g c (pdFaceHandles (mPolyhedronData g)) = Some nbs ∧
    setTriangleColor c (activeColor g) g = Some g' ∧
    let s1 := foldl (visitNeighbour g f c)
                {| alreadyVisited := alreadyVisited s; toVisit := rest;
                   trace := trace s |} nbs in
    s' = {| alreadyVisited := alreadyVisited s1; toVisit := toVisit s1;
            trace := trace s1 ++ [EvPainted c] |}.
Proof.
  unfold bucketStep, addNeighboursToQueue, activeColor. intros H.
  repeat case_guard; simpl in H; try done.
  destruct (gatherNeighbours g c _) as [nbs|] eqn:Hnbs; [|done]. simpl in H.
  destruct (setTriangleColor c _ g) as [g1|] eqn:Hset; [|done]. simpl in H.
  inversion H; subst. eauto 10.
Qed.

Lemma bucketStep_ok (f : StoppingCondition) (g g' : Geometry)
    (start c : nat) (rest : list nat) (s s' : Search) :
  search_ok start s → toVisit s = c :: rest →
  bucketStep f g s c rest = Some (g', s') → search_ok start s'.
Proof.
  intros Hs Hq (Hc & _ & _ & nbs & _ & _ & ->)%bucketStep_Some.
  set (s0 := {| alreadyVisited := alreadyVisited s; toVisit := rest;
                trace := trace s |}).
  assert (search_ok start s0) as Hs0.
  { destruct Hs as [Ht Hv Hqu]. split; simpl; try done.
    intros x Hx. apply Hqu. rewrite Hq. by right. }
  pose proof (addNeighbours_ok g f start c nbs s0 Hs0) as [Ht Hv Hqu].
  split; simpl.
  - apply trace_ok_snoc_painted; [done|].
    apply Hv. by apply addNeighbours_visited.
  - intros x. rewrite Hv, elem_of_app, elem_of_cons, elem_of_nil.
    intuition congruence.
  - done.
Qed.

Lemma bucketLoop_ok (f : StoppingCondition) (start fuel : nat)
    (g g' : Geometry) (s s' : Search) :
  search_ok start s → bucketLoop fuel f g s = Some (g', s') →
  search_ok start s'.
Proof.
  revert g s. induction fuel as [|fuel IH]; intros g s Hs; simpl.
  - destruct (toVisit s); [|done]. by intros [= <- <-].
  - destruct (toVisit s) as [|c rest] eqn:Hq; [by intros [= <- <-]|].
    destruct (bucketStep f g s c rest) as [[g1 s1]|] eqn:Hstep; [|done].
    simpl. apply IH. by eapply bucketStep_ok.
Qed.

(** The trace of every completed flood is well formed. *)
Lemma bucketRun_trace_ok (f : StoppingCondition) (start : nat)
    (g g' : Geometry) (t : list Event) :
  bucketRun start f g = Some (g', t) → trace_ok start t.
Proof.
  unfold bucketRun. destruct (is_empty _).
  { intros [= <- <-]. apply trace_ok_nil. }
  case_guard; simpl; [|done].
  destruct (bucketLoop _ f g _) as [[g1 s1]|] eqn:Hloop; [|done].
  simpl. intros [= <- <-].
  eapply bucketLoop_ok in Hloop; [by destruct Hloop|].
  split; simpl.
  - apply trace_ok_nil.
  - intros x. rewrite elem_of_singleton, elem_of_nil. tauto.
  - intros x ->%list_elem_of_singleton. by apply elem_of_singleton.
Qed.

(** **** The flood on a well-formed geometry runs to its end *)

Lemma NoDup_bounded_length (l : list nat) (n : nat) :
  NoDup l → (∀ x, x ∈ l → (x < n)%nat) → (length l ≤ n)%nat.
Proof.
  intros Hnd Hlt.
  rewrite <- (size_list_to_set (C := gset nat) l Hnd).
  rewrite <- (size_set_seq (C := gset nat) 0 n).
  apply subseteq_size. intros x Hx.
  apply elem_of_list_to_set in Hx. apply elem_of_set_seq.
  specialize (Hlt x Hx). lia.
Qed.

Lemma bounded_size (X : gset nat) (n : nat) :
  (∀ x, x ∈ X → (x < n)%nat) → (size X ≤ n)%nat.
Proof.
  intros Hlt. rewrite <- (size_set_seq (C := gset nat) 0 n).
  apply subseteq_size. intros x Hx. apply elem_of_set_seq.
  specialize (Hlt x Hx). lia.
Qed.

(** The queue holds distinct visited faces, all visited faces are triangles
    of the mesh, and every visited face is still queued, is the face [c]
    being processed, or is painted. *)
Record loop_inv (g : Geometry) (c : option nat) (s : Search) : Prop := {
  li_range : ∀ x, x ∈ alreadyVisited s → (x < length (mTriangles g))%nat;
  li_queue : ∀ x, x ∈ toVisit s → x ∈ alreadyVisited s;
  li_nodup : NoDup (toVisit s);
  li_painted : ∀ x, x ∈ alreadyVisited s →
    x ∈ toVisit s ∨ Some x = c ∨ getTriangleColor x g = Some (activeColor g)
}.

(** The quantity that grows with every turn of the loop. *)
Definition progress (s : Search) : Z :=
  2 * Z.of_nat (size (alreadyVisited s)) - Z.of_nat (length (toVisit s)).

Lemma visitNeighbour_inv (g : Geometry) (f : StoppingCondition)
    (c : nat) (s : Search) (nb : Z) :
  Z.of_nat (length (mTriangles g)) < 2 ^ 31 →
  neighbour_ok (length (mTriangles g)) nb →
  loop_inv g (Some c) s →
  loop_inv g (Some c) (visitNeighbour g f c s nb) ∧
  progress s ≤ progress (visitNeighbour g f c s nb).
Proof.
  intros Hint Hnb [Hr Hq Hnd Hp]. unfold visitNeighbour.
  destruct (decide (nb = -1)) as [|Hne]; [by split|].
  destruct (decide (size_t_of_int nb ∈ alreadyVisited s)) as [|Hnew]; [by split|].
  destruct Hnb as [|Hnb]; [done|].
  assert (size_t_of_int nb < length (mTriangles g))%nat as Hlt.
  { rewrite <- (Z2Nat.id nb) in * by lia.
    rewrite size_t_of_int_small by lia. lia. }
  set (n := size_t_of_int nb) in *.
  destruct (f g n c); [|by split].
  split; [split; simpl|].
  - intros x [->%elem_of_singleton|?]%elem_of_union; auto.
  - intros x. rewrite elem_of_app, list_elem_of_singleton, elem_of_union,
      elem_of_singleton. intros [?|?]; auto.
  - apply NoDup_app. split; [done|]. split; [|apply NoDup_singleton].
    intros x Hx ->%list_elem_of_singleton. by apply Hnew, Hq.
  - intros x [->%elem_of_singleton|Hx]%elem_of_union.
    + left. apply elem_of_app. right. by apply list_elem_of_singleton.
    + destruct (Hp x Hx) as [?|?]; [|by right].
      left. apply elem_of_app. by left.
  - unfold progress. simpl.
    rewrite size_union by (apply disjoint_singleton_l; done).
    rewrite size_singleton, length_app. simpl. lia.
Qed.

Lemma addNeighbours_inv (g : Geometry) (f : StoppingCondition)
    (c : nat) (nbs : list Z) (s : Search) :
  Z.of_nat (length (mTriangles g)) < 2 ^ 31 →
  Forall (neighbour_ok (length (mTriangles g))) nbs →
  loop_inv g (Some c) s →
  loop_inv g (Some c) (foldl (visitNeighbour g f c) s nbs) ∧
  progress s ≤ progress (foldl (visitNeighbour g f c) s nbs).
Proof.
  intros Hint Hnbs. revert s.
  induction Hnbs as [|nb nbs Hnb _ IH]; intros s Hs; simpl; [by split|].
  destruct (visitNeighbour_inv g f c s nb Hint Hnb Hs) as [Hs1 Hp1].
  destruct (IH _ Hs1) as [Hs2 Hp2]. split; [done|lia].
Qed.

(** A turn of the loop on a well-formed geometry succeeds, keeps the
    invariant and makes progress. *)
Lemma bucketStep_inv (f : StoppingCondition) (g : Geometry)
    (c : nat) (rest : list nat) (s : Search) :
  wf g → loop_inv g None s → toVisit s = c :: rest →
  ∃ g' s', bucketStep f g s c rest = Some (g', s') ∧
    wf g' ∧ loop_inv g' None s' ∧
    length (mTriangles g') = length (mTriangles g) ∧
    activeColor g' = activeColor g ∧
    mPolyhedronData g' = mPolyhedronData g ∧
    (∀ x, x ∈ alreadyVisited s → x ∈ alreadyVisited s') ∧
    progress s + 1 ≤ progress s'.
Proof.
  intros Hwf [Hr Hq Hnd Hp] Hs.
  assert (c ∈ alreadyVisited s) as Hc by (apply Hq; rewrite Hs; by left).
  assert (c < length (mTriangles g))%nat as Hlt by by apply Hr.
  assert (length rest < length (mTriangles g))%nat as Hrest.
  { assert (length (c :: rest) ≤ length (mTriangles g))%nat as Hle.
    { rewrite <- Hs. apply NoDup_bounded_length; auto. }
    simpl in Hle. lia. }
  destruct (gatherNeighbours_wf g c Hwf Hlt) as (nbs & Hnbs & Hok).
  set (s0 := {| alreadyVisited := alreadyVisited s; toVisit := rest;
                trace := trace s |}).
  rewrite Hs in Hnd. apply NoDup_cons in Hnd as [Hcr Hnd].
  assert (loop_inv g (Some c) s0) as Hs0.
  { split; simpl; auto.
    - intros x Hx. apply Hq. rewrite Hs. by right.
    - intros x Hx. destruct (Hp x Hx) as [Hin|[?|?]]; [|done|by right; right].
      rewrite Hs in Hin. apply elem_of_cons in Hin as [->|?]; auto. }
  destruct (addNeighbours_inv g f c nbs s0 (wf_int g Hwf) Hok Hs0)
    as [[Hr1 Hq1 Hnd1 Hp1] Hprog].
  destruct (setTriangleColor_frame g _ c (activeColor g)
              (setTriangleColor_Some g c (activeColor g) (wf_colors g Hwf) Hlt))
    as (HP & HM & HT & HC & Hcol & Hother).
  eexists _, _. split.
  { unfold bucketStep, addNeighboursToQueue.
    rewrite !option_guard_True by done. simpl.
    rewrite Hnbs. simpl. fold (activeColor g).
    rewrite (setTriangleColor_Some g c _ (wf_colors g Hwf) Hlt). simpl. done. }
  fold s0. split; [|split; [|repeat split]].
  - eapply setTriangleColor_wf; [done|].
    apply setTriangleColor_Some; [apply Hwf|done].
  - split; simpl.
    + intros x Hx. rewrite length_alter. by apply Hr1.
    + done.
    + done.
    + intros x Hx. unfold activeColor in *. simpl.
      destruct (Hp1 x Hx) as [?|[[= ->]|Hx']]; [by left|right; right..].
      * apply Hcol.
      * destruct (decide (x = c)) as [->|Hne]; [apply Hcol|].
        rewrite Hother by done. done.
  - simpl. by rewrite length_alter.
  - intros x Hx. simpl. by apply addNeighbours_visited.
  - unfold progress in *. simpl in *.
    rewrite Hs. simpl. lia.
Qed.

Lemma bucketLoop_total (f : StoppingCondition) (fuel : nat)
    (g : Geometry) (s : Search) :
  wf g → loop_inv g None s →
  2 * Z.of_nat (length (mTriangles g)) ≤ Z.of_nat fuel + progress s →
  ∃ g' s', bucketLoop fuel f g s = Some (g', s') ∧
    wf g' ∧ loop_inv g' None s' ∧ toVisit s' = [] ∧
    length (mTriangles g') = length (mTriangles g) ∧
    activeColor g' = activeColor g ∧
    mPolyhedronData g' = mPolyhedronData g ∧
    (∀ x, x ∈ alreadyVisited s → x ∈ alreadyVisited s').
Proof.
  revert g s. induction fuel as [|fuel IH]; intros g s Hwf Hinv Hfuel.
  - destruct (toVisit s) as [|c rest] eqn:Hs.
    + exists g, s. simpl. rewrite Hs. split_and!; done.
    + exfalso. pose proof (bounded_size _ _ (li_range _ _ _ Hinv)) as Hsz.
      unfold progress in Hfuel. rewrite Hs in Hfuel. simpl in Hfuel. lia.
  - simpl. destruct (toVisit s) as [|c rest] eqn:Hs.
    + exists g, s. split_and!; done.
    + destruct (bucketStep_inv f g c rest s Hwf Hinv Hs)
        as (g1 & s1 & Hstep & Hwf1 & Hinv1 & HT & HA & HP & Hmono & Hprog).
      rewrite Hstep. simpl.
      destruct (IH g1 s1 Hwf1 Hinv1) as (g' & s' & Hloop & ? & ? & ? & HT' & HA' & HP' & Hmono').
      { rewrite HT. lia. }
      exists g', s'. split_and!; try done; try congruence. auto.
Qed.

(** **** The guard on the polyhedron *)

Lemma bucketRun_empty (g : Geometry) (startTriangle : nat)
    (stopFunctor : StoppingCondition) :
  is_empty (pdP (mPolyhedronData g)) = true →
  bucketRun startTriangle stopFunctor g = Some (g, []).
Proof. intros Hempty. unfold bucketRun. by rewrite Hempty. Qed.

(** C10: when the polyhedron of the mesh is empty, [bucket] returns at once,
    for every start triangle and every stopping predicate: nothing is asked
    of the predicate, no face is queued or painted, and the geometry it
    returns is the geometry it was given, field for field. *)
Theorem bucket_empty_polyhedron (g : Geometry) (startTriangle : nat)
    (stopFunctor : StoppingCondition) :
  is_empty (pdP (mPolyhedronData g)) = true →
  bucketRun startTriangle stopFunctor g = Some (g, []) ∧
  bucket startTriangle stopFunctor g = Some g.
Proof.
  intros Hempty. unfold bucket. by rewrite bucketRun_empty.
Qed.

(** X3: a polyhedron that failed to build is empty, so the flood on the
    geometry [buildPolyhedron] leaves behind changes nothing. *)
Lemma bucket_after_failed_build (g g1 : Geometry) (startTriangle : nat)
    (stopFunctor : StoppingCondition)
    (delegate : list (nat * nat * nat) → list vec3 → option (Polyhedron * list nat)) :
  delegate (pdIndices (mPolyhedronData g)) (pdVertices (mPolyhedronData g)) = None →
  buildPolyhedron delegate g = Some g1 →
  mTriangles g1 = mTriangles g ∧ bucket startTriangle stopFunctor g1 = Some g1.
Proof.
  unfold buildPolyhedron. intros -> [= <-]. split; [done|].
  unfold bucket. by rewrite bucketRun_empty.
Qed.

(** **** The seed *)

(** C9, as the code has it: on a well-formed geometry whose polyhedron is
    not empty, [bucket] started at a triangle of the mesh runs to its end
    and leaves the start triangle with the active color, whatever the
    stopping predicate answers; the predicate is never asked about the
    seed. *)
Theorem bucket_paints_seed (g : Geometry) (startTriangle : nat)
    (stopFunctor : StoppingCondition) :
  well_formed g = true →
  is_empty (pdP (mPolyhedronData g)) = false →
  (startTriangle < length (mTriangles g))%nat →
  ∃ g' t, bucketRun startTriangle stopFunctor g = Some (g', t) ∧
    bucket startTriangle stopFunctor g = Some g' ∧
    getTriangleColor startTriangle g' = Some (activeColor g) ∧
    ∀ i c b, t !! i ≠ Some (EvPredicate startTriangle c b).
Proof.
  intros Hwf%well_formed_wf Hne Hstart.
  set (s0 := {| alreadyVisited := {[startTriangle]};
                toVisit := [startTriangle]; trace := [] |}).
  assert (loop_inv g None s0) as Hinv.
  { split; simpl.
    - by intros x ->%elem_of_singleton.
    - intros x ->%list_elem_of_singleton. by apply elem_of_singleton.
    - apply NoDup_singleton.
    - intros x ->%elem_of_singleton. left. by apply list_elem_of_singleton. }
  destruct (bucketLoop_total stopFunctor (bucketFuel g) g s0 Hwf Hinv)
    as (g' & s' & Hloop & _ & Hinv' & Hq & _ & HA & _ & Hmono).
  { unfold bucketFuel, progress, s0. cbn [alreadyVisited toVisit length].
    rewrite size_singleton. lia. }
  assert (bucketRun startTriangle stopFunctor g = Some (g', trace s')) as Hrun.
  { unfold bucketRun. rewrite Hne.
    rewrite option_guard_True by apply Hwf. simpl.
    fold s0. rewrite Hloop. done. }
  exists g', (trace s'). split_and!.
  - done.
  - unfold bucket. by rewrite Hrun.
  - destruct (li_painted _ _ _ Hinv' startTriangle) as [Hin|[?|Hcol]].
    + apply Hmono. unfold s0. cbn [alreadyVisited].
      by apply elem_of_singleton_2.
    + rewrite Hq in Hin. by apply elem_of_nil in Hin.
    + done.
    + by rewrite <- HA.
  - intros i c b Hi.
    by destruct (tr_predicate _ _ (bucketRun_trace_ok _ _ _ _ _ Hrun) _ _ _ _ Hi).
Qed.

(** **** A rejected neighbour *)

(** The order of the events on a rejected face: the evaluation queues
    nothing; if the face is queued later in the same flood, it is queued
    right after a later evaluation of the predicate on it returned [true],
    and if it is painted, it was queued in between. *)
Lemma rejected_neighbour_order (g g' : Geometry)
    (startTriangle : nat) (stopFunctor : StoppingCondition)
    (t : list Event) (i n c : nat) :
  bucketRun startTriangle stopFunctor g = Some (g', t) →
  t !! i = Some (EvPredicate n c false) →
  (∀ x, t !! S i ≠ Some (EvQueued x)) ∧
  (∀ j, t !! j = Some (EvQueued n) →
     (i < pred j)%nat ∧ ∃ c', t !! pred j = Some (EvPredicate n c' true)) ∧
  (∀ j, t !! j = Some (EvPainted n) →
     ∃ k, (i < k < j)%nat ∧ t !! k = Some (EvQueued n)).
Proof.
  intros [HQ HP HD]%bucketRun_trace_ok Hi.
  destruct (HP _ _ _ _ Hi) as [Hstart Hbefore].
  assert (∀ k, t !! k = Some (EvQueued n) → (i < k)%nat) as Hafter.
  { intros k Hk. destruct (decide (k < i)%nat) as [Hlt|Hge].
    - by destruct (Hbefore k Hlt).
    - destruct (decide (k = i)) as [->|]; [congruence|lia]. }
  split_and!.
  - intros x Hx. destruct (HQ _ _ Hx) as (c' & _ & Hc'). simpl in Hc'.
    congruence.
  - intros j Hj. destruct (HQ _ _ Hj) as (c' & H0 & Hc').
    split; [|by exists c'].
    specialize (Hafter j Hj).
    destruct (decide (pred j = i)) as [Heq|]; [|lia].
    rewrite Heq in Hc'. congruence.
  - intros j Hj. destruct (HD _ _ Hj) as [?|(k & Hk & Hq)]; [done|].
    exists k. split; [|done]. split; [by apply Hafter|done].
Qed.

End bucket_properties.

(** *** What a flood paints *)

Section flood_properties.

Context {vec3 Tree ColorA : Type}.

Local Abbreviation Geometry := (Geometry vec3 Tree ColorA).
Local Abbreviation StoppingCondition := (StoppingCondition vec3 Tree ColorA).

(** The soup with the faces of [painted] given the active color, all else
    as it is. *)
Definition paintedSoup (g : Geometry) (painted : gset nat)
    : list (DataTriangle vec3) :=
  imap (λ i t, if decide (i ∈ painted) then setColor (activeColor g) t else t)
       (mTriangles g).

(** The faces [gatherNeighbours] lists for the face [c]. *)
Definition adjacent (g : Geometry) (c n : nat) : Prop :=
  ∃ nbs nb, gatherNeighbours g c (pdFaceHandles (mPolyhedronData g)) = Some nbs ∧
            nb ∈ nbs ∧ nb ≠ -1 ∧ n = size_t_of_int nb.

(** The faces a flood can reach from [start]: a step goes from a face to a
    neighbour the criterion [accepts] from there. *)
Inductive reached (g : Geometry) (accepts : nat → nat → bool) (start : nat)
    : nat → Prop :=
  | reached_start : reached g accepts start start
  | reached_step c n :
      reached g accepts start c → adjacent g c n → accepts n c = true →
      reached g accepts start n.

(** A criterion whose answer about two faces not painted yet does not
    change while the flood paints others. *)
Definition static (f : StoppingCondition) (accepts : nat → nat → bool)
    (g : Geometry) : Prop :=
  ∀ g1 painted n c, mTriangles g1 = paintedSoup g painted →
    n ∉ painted → c ∉ painted → f g1 n c = accepts n c.

Lemma length_paintedSoup (g : Geometry) (painted : gset nat) :
  length (paintedSoup g painted) = length (mTriangles g).
Proof. apply length_imap. Qed.

Lemma paintedSoup_empty (g : Geometry) : paintedSoup g ∅ = mTriangles g.
Proof.
  apply list_eq. intros i. unfold paintedSoup. rewrite list_lookup_imap.
  by destruct (mTriangles g !! i).
Qed.

Lemma paintedSoup_paint (g : Geometry) (painted : gset nat) (c : nat) :
  alter (setColor (activeColor g)) c (paintedSoup g painted)
  = paintedSoup g ({[c]} ∪ painted).
Proof.
  apply list_eq. intros i. unfold paintedSoup.
  destruct (decide (c = i)) as [->|Hne].
  - rewrite list_lookup_alter_eq, !list_lookup_imap.
    destruct (mTriangles g !! i) as [t|]; simpl; [|done].
    rewrite (decide_True (P := i ∈ {[i]} ∪ painted))
      by (apply elem_of_union; left; by apply elem_of_singleton).
    by destruct (decide (i ∈ painted)).
  - rewrite list_lookup_alter_ne, !list_lookup_imap by done.
    destruct (mTriangles g !! i) as [t|]; simpl; [|done].
    destruct (decide (i ∈ painted)) as [Hin|Hout].
    + by rewrite decide_True by (apply elem_of_union; by right).
    + rewrite decide_False; [done|].
      by intros [?%elem_of_singleton|?]%elem_of_union.
Qed.

Lemma paintedSoup_color (g : Geometry) (painted : gset nat) (g' : Geometry)
    (x : nat) :
  mTriangles g' = paintedSoup g painted → (x < length (mTriangles g))%nat →
  getTriangleColor x g'
  = if decide (x ∈ painted) then Some (activeColor g) else getTriangleColor x g.
Proof.
  intros Hsoup Hx. unfold getTriangleColor. rewrite Hsoup. unfold paintedSoup.
  rewrite list_lookup_imap.
  destruct (lookup_lt_is_Some_2 (mTriangles g) x Hx) as [t ->]. simpl.
  by destruct (decide (x ∈ painted)).
Qed.

Lemma gatherNeighbours_ext (g g1 : Geometry) (c : nat) (handles : list nat) :
  mPolyhedronData g1 = mPolyhedronData g →
  length (mTriangles g1) = length (mTriangles g) →
  gatherNeighbours g1 c handles = gatherNeighbours g c handles.
Proof.
  intros HP HT. unfold gatherNeighbours. rewrite HP.
  destruct (handles !! c) as [h|]; simpl; [|done].
  destruct (facets _ !! h) as [facet|]; simpl; [|done].
  case_guard; simpl; [|done].
  apply mapM_ext. intros o. unfold neighbourOf. by rewrite HP, HT.
Qed.

(** The loop over the neighbours of [c], for a static criterion: the faces
    it adds to the visited set are the neighbours it accepts, all of them,
    and they are the faces it adds to the queue. *)
Lemma addNeighbours_static (g g1 : Geometry) (f : StoppingCondition)
    (accepts : nat → nat → bool) (painted : gset nat) (c : nat)
    (nbs : list Z) (s : Search) :
  static f accepts g → mTriangles g1 = paintedSoup g painted →
  c ∉ painted → (∀ x, x ∈ painted → x ∈ alreadyVisited s) →
  let s1 := foldl (visitNeighbour g1 f c) s nbs in
  (∀ x, x ∈ alreadyVisited s1 ↔
        x ∈ alreadyVisited s ∨
        ∃ nb, nb ∈ nbs ∧ nb ≠ -1 ∧ x = size_t_of_int nb ∧ accepts x c = true) ∧
  (∀ x, x ∈ toVisit s1 ↔
        x ∈ toVisit s ∨ (x ∈ alreadyVisited s1 ∧ x ∉ alreadyVisited s)).
Proof.
  intros Hstatic Hsoup Hc. revert s.
  induction nbs as [|nb nbs IH]; intros s HP; simpl.
  { split; intros x; [|tauto]. split; [by left|].
    intros [?|(nb & ?%elem_of_nil & _)]; done. }
  set (s' := visitNeighbour g1 f c s nb).
  assert ((∀ x, x ∈ alreadyVisited s' ↔
                x ∈ alreadyVisited s ∨
                (nb ≠ -1 ∧ x = size_t_of_int nb ∧ accepts x c = true)) ∧
          (∀ x, x ∈ toVisit s' ↔
                x ∈ toVisit s ∨ (x ∈ alreadyVisited s' ∧ x ∉ alreadyVisited s)))
    as [Hv Hq].
  { unfold s', visitNeighbour.
    destruct (decide (nb = -1)) as [Hnb|Hnb]; [split; intros x; tauto|].
    destruct (decide (size_t_of_int nb ∈ alreadyVisited s)) as [Hold|Hnew].
    { split; intros x; [|tauto]. split; [by left|]. by intros [?|(_ & -> & _)]. }
    rewrite (Hstatic g1 painted (size_t_of_int nb) c Hsoup) by auto.
    destruct (accepts (size_t_of_int nb) c) eqn:Hacc; simpl.
    - split; intros x.
      + rewrite elem_of_union, elem_of_singleton. split.
        * intros [->|?]; auto.
        * intros [?|(_ & -> & _)]; auto.
      + rewrite elem_of_app, list_elem_of_singleton, elem_of_union,
          elem_of_singleton. split.
        * intros [?| ->]; auto.
        * intros [?|[[ ->|?] ?]]; auto. done.
    - split; intros x; [|tauto]. split; [by left|].
      intros [?|(_ & -> & ?)]; [done|congruence]. }
  destruct (IH s') as [Hv' Hq'].
  { intros x Hx. apply Hv. left. by apply HP. }
  fold s'. split; intros x.
  - rewrite Hv', Hv. split.
    + intros [[?|(? & -> & ?)]|(nb' & ? & ? & -> & ?)]; auto.
      * right. exists nb. split_and!; try done. by left.
      * right. exists nb'. split_and!; try done. by right.
    + intros [?|(nb' & [->|?]%elem_of_cons & ? & -> & ?)]; auto.
      right. by exists nb'.
  - assert (x ∈ alreadyVisited s → x ∈ alreadyVisited s') as M1
      by (intros ?; apply Hv; by left).
    assert (x ∈ alreadyVisited s' → x ∈ alreadyVisited (foldl (visitNeighbour g1 f c) s' nbs))
      as M2 by (intros ?; apply Hv'; by left).
    rewrite Hq', Hq.
    destruct (decide (x ∈ alreadyVisited s')) as [Hs'|Hs']; tauto.
Qed.

(** The state of a flood of [g] on the way: the faces painted so far are
    the visited faces that left the queue, every visited face can be
    reached, and the accepted neighbours of a painted face are visited. *)
Record flood_inv (g : Geometry) (accepts : nat → nat → bool) (start : nat)
    (g1 : Geometry) (s : Search) (painted : gset nat) : Prop := {
  fi_soup : mTriangles g1 = paintedSoup g painted;
  fi_poly : mPolyhedronData g1 = mPolyhedronData g;
  fi_manager : mColorManager g1 = mColorManager g;
  fi_painted : ∀ x, x ∈ painted ↔ x ∈ alreadyVisited s ∧ x ∉ toVisit s;
  fi_sound : ∀ x, x ∈ alreadyVisited s → reached g accepts start x;
  fi_closed : ∀ c n, c ∈ painted → adjacent g c n → accepts n c = true →
    n ∈ alreadyVisited s
}.

Lemma bucketStep_flood (f : StoppingCondition) (accepts : nat → nat → bool)
    (g g1 g2 : Geometry) (start c : nat) (rest : list nat) (s s2 : Search)
    (painted : gset nat) :
  static f accepts g → loop_inv g1 None s → toVisit s = c :: rest →
  flood_inv g accepts start g1 s painted →
  bucketStep f g1 s c rest = Some (g2, s2) →
  flood_inv g accepts start g2 s2 ({[c]} ∪ painted).
Proof.
  intros Hstatic [_ Hqueue Hnodup _] Hs [Hsoup Hpoly Hman Hpainted Hsound Hclosed]
    Hstep.
  apply bucketStep_Some in Hstep as (Hc & Hlt & _ & nbs & Hnbs & Hset & ->).
  set (s0 := {| alreadyVisited := alreadyVisited s; toVisit := rest;
                trace := trace s |}) in *.
  rewrite Hs in Hnodup. apply NoDup_cons in Hnodup as [Hcrest _].
  assert (c ∉ painted) as Hcp.
  { intros [_ Hnot]%Hpainted. apply Hnot. rewrite Hs. by left. }
  assert (∀ x, x ∈ painted → x ∈ alreadyVisited s0) as Hsub
    by (by intros x [? _]%Hpainted).
  destruct (addNeighbours_static g g1 f accepts painted c nbs s0
              Hstatic Hsoup Hcp Hsub) as [Hv Hq].
  cbn [alreadyVisited toVisit s0] in Hv, Hq.
  assert (activeColor g1 = activeColor g) as Hactive
    by (unfold activeColor; by rewrite Hman).
  assert (gatherNeighbours g c (pdFaceHandles (mPolyhedronData g)) = Some nbs)
    as Hnbs0.
  { rewrite <- Hnbs, Hpoly. symmetry. apply gatherNeighbours_ext; [done|].
    by rewrite Hsoup, length_paintedSoup. }
  unfold setTriangleColor in Hset. simplify_option_eq.
  split; cbn [mTriangles set_colors mPolyhedronData mColorManager
              alreadyVisited toVisit].
  - rewrite Hsoup. fold (activeColor g1). rewrite Hactive.
    apply paintedSoup_paint.
  - done.
  - done.
  - intros x. rewrite elem_of_union, elem_of_singleton, Hq, (Hpainted x), Hs.
    rewrite elem_of_cons.
    destruct (decide (x = c)) as [->|Hne].
    + split; [|by left]. intros _. split; [apply Hv; by left|].
      intros [?|[_ ?]]; done.
    + split.
      * intros [?|[Hx Hnot]]; [done|]. split; [apply Hv; by left|].
        intros [?|[_ ?]]; [|done]. apply Hnot. by right.
      * intros [Hx Hnot]. right.
        destruct (decide (x ∈ alreadyVisited s)) as [Hold|Hnew]; [|tauto].
        split; [done|]. intros [?|?]; [done|]. apply Hnot. by left.
  - intros x [Hx|(nb & Hnb & Hne & -> & Hacc)]%Hv; [by apply Hsound|].
    apply (reached_step _ _ _ c); [by apply Hsound|by exists nbs, nb|done].
  - intros c' n [->%elem_of_singleton|Hc']%elem_of_union Hadj Hacc.
    + destruct Hadj as (nbs' & nb & Hnbs' & Hnb & Hne & ->).
      rewrite Hnbs0 in Hnbs'. injection Hnbs' as <-.
      apply Hv. right. by exists nb.
    + apply Hv. left. by eapply Hclosed.
Qed.

Lemma bucketLoop_flood (f : StoppingCondition) (accepts : nat → nat → bool)
    (g : Geometry) (start fuel : nat) (g1 : Geometry) (s : Search)
    (painted : gset nat) :
  static f accepts g → wf g1 → loop_inv g1 None s →
  flood_inv g accepts start g1 s painted →
  2 * Z.of_nat (length (mTriangles g1)) ≤ Z.of_nat fuel + progress s →
  ∃ g' s' painted',
    bucketLoop fuel f g1 s = Some (g', s') ∧ toVisit s' = [] ∧
    flood_inv g accepts start g' s' painted' ∧
    (∀ x, x ∈ alreadyVisited s → x ∈ alreadyVisited s').
Proof.
  intros Hstatic. revert g1 s painted.
  induction fuel as [|fuel IH]; intros g1 s painted Hwf Hinv Hflood Hfuel.
  - destruct (toVisit s) as [|c rest] eqn:Hs.
    + exists g1, s, painted. simpl. rewrite Hs. split_and!; done.
    + exfalso. pose proof (bounded_size _ _ (li_range _ _ _ Hinv)) as Hsz.
      unfold progress in Hfuel. rewrite Hs in Hfuel. simpl in Hfuel. lia.
  - simpl. destruct (toVisit s) as [|c rest] eqn:Hs.
    + exists g1, s, painted. split_and!; done.
    + destruct (bucketStep_inv f g1 c rest s Hwf Hinv Hs)
        as (g2 & s2 & Hstep & Hwf2 & Hinv2 & HT & _ & _ & Hmono & Hprog).
      rewrite Hstep. simpl.
      pose proof (bucketStep_flood f accepts g g1 g2 start c rest s s2 painted
                    Hstatic Hinv Hs Hflood Hstep) as Hflood2.
      destruct (IH g2 s2 _ Hwf2 Hinv2 Hflood2)
        as (g' & s' & painted' & Hloop & Hq & Hflood' & Hmono').
      { rewrite HT. lia. }
      exists g', s', painted'. split_and!; auto.
Qed.

(** The flood with a static criterion, from the seed to the end. *)
Lemma bucket_flood (g : Geometry) (start : nat) (f : StoppingCondition)
    (accepts : nat → nat → bool) :
  well_formed g = true → is_empty (pdP (mPolyhedronData g)) = false →
  (start < length (mTriangles g))%nat → static f accepts g →
  ∃ g' painted, bucket start f g = Some g' ∧
    mTriangles g' = paintedSoup g painted ∧
    mPolyhedronData g' = mPolyhedronData g ∧
    ∀ x, x ∈ painted ↔ reached g accepts start x.
Proof.
  intros Hwf%well_formed_wf Hne Hstart Hstatic.
  set (s0 := {| alreadyVisited := {[start]}; toVisit := [start]; trace := [] |}).
  assert (loop_inv g None s0) as Hinv.
  { split; simpl.
    - by intros x ->%elem_of_singleton.
    - intros x ->%list_elem_of_singleton. by apply elem_of_singleton.
    - apply NoDup_singleton.
    - intros x ->%elem_of_singleton. left. by apply list_elem_of_singleton. }
  assert (flood_inv g accepts start g s0 ∅) as Hflood.
  { split; simpl.
    - by rewrite paintedSoup_empty.
    - done.
    - done.
    - intros x. rewrite elem_of_singleton, list_elem_of_singleton.
      split; [by intros ?%elem_of_empty|tauto].
    - intros x ->%elem_of_singleton. constructor.
    - by intros c n ?%elem_of_empty. }
  destruct (bucketLoop_flood f accepts g start (bucketFuel g) g s0 ∅
              Hstatic Hwf Hinv Hflood)
    as (g' & s' & painted & Hloop & Hq & [Hsoup Hpoly _ Hp Hsound Hclosed] & Hmono).
  { unfold bucketFuel, progress, s0. cbn [alreadyVisited toVisit length].
    rewrite size_singleton. lia. }
  exists g', painted. split_and!; try done.
  - unfold bucket, bucketRun. rewrite Hne.
    rewrite option_guard_True by apply Hwf. simpl.
    fold s0. by rewrite Hloop.
  - intros x. split.
    + intros [Hx _]%Hp. by apply Hsound.
    + assert (∀ y, y ∈ alreadyVisited s' → y ∈ painted) as Hall.
      { intros y Hy. apply Hp. split; [done|]. rewrite Hq. apply not_elem_of_nil. }
      induction 1 as [|c n _ IH Hadj Hacc].
      * apply Hall, Hmono. unfold s0. cbn [alreadyVisited].
        by apply elem_of_singleton_2.
      * apply Hall. by eapply Hclosed.
Qed.

(** X5: on a well-formed mesh with a built polyhedron, a flood whose
    criterion is static runs to its end and paints exactly the faces that
    can be reached from the start triangle by steps from a face to a
    neighbour the criterion accepts: these get the active color, every
    other triangle keeps its color, and no triangle changes its corners or
    its normal. *)
Theorem bucket_paints_reached (g : Geometry) (start : nat)
    (f : StoppingCondition) (accepts : nat → nat → bool) :
  well_formed g = true → is_empty (pdP (mPolyhedronData g)) = false →
  (start < length (mTriangles g))%nat → static f accepts g →
  ∃ g', bucket start f g = Some g' ∧
    length (mTriangles g') = length (mTriangles g) ∧
    ∀ x t, mTriangles g !! x = Some t →
      ∃ t', mTriangles g' !! x = Some t' ∧
        dtTri t' = dtTri t ∧ dtNormal t' = dtNormal t ∧
        (reached g accepts start x → dtColor t' = activeColor g) ∧
        (¬ reached g accepts start x → dtColor t' = dtColor t).
Proof.
  intros Hwf Hne Hstart Hstatic.
  destruct (bucket_flood g start f accepts Hwf Hne Hstart Hstatic)
    as (g' & painted & Hrun & Hsoup & _ & Hreach).
  exists g'. split; [done|]. rewrite Hsoup. split; [apply length_paintedSoup|].
  intros x t Hx. unfold paintedSoup. rewrite list_lookup_imap, Hx. simpl.
  eexists. split; [done|].
  destruct (decide (x ∈ painted)) as [Hin|Hout]; simpl.
  - split_and!; try done. intros Hnot. by apply Hreach in Hin.
  - split_and!; try done. intros Hin%Hreach. done.
Qed.

End flood_properties.

(** *** What a flood does once only *)

Section trace_counts.

Context {vec3 Tree ColorA : Type}.

Local Abbreviation Geometry := (Geometry vec3 Tree ColorA).
Local Abbreviation StoppingCondition := (StoppingCondition vec3 Tree ColorA).

(** The faces painted in a trace, in order, and the number of calls of the
    criterion. *)
Definition paintedOf (t : list Event) : list nat :=
  omap (λ e, match e with EvPainted x => Some x | _ => None end) t.

Definition asked (t : list Event) : nat :=
  length (omap (λ e, match e with
                     | EvPredicate n c _ => Some (n, c)
                     | _ => None
                     end) t).

(** Between two turns of the loop ([c] is [None]) and inside a turn ([c] is
    the face taken off the queue): no face is painted, in hand or queued
    twice, these faces are marked visited, and the criterion was called at
    most three times for every painted face, [budget] calls apart. *)
Record counts (c : option nat) (budget : nat) (s : Search) : Prop := {
  cn_nodup : NoDup (paintedOf (trace s) ++ option_list c ++ toVisit s);
  cn_visited : ∀ x, x ∈ paintedOf (trace s) ++ option_list c ++ toVisit s →
                    x ∈ alreadyVisited s;
  cn_asked : (asked (trace s) ≤ 3 * length (paintedOf (trace s)) + budget)%nat
}.

Lemma paintedOf_app (t1 t2 : list Event) :
  paintedOf (t1 ++ t2) = paintedOf t1 ++ paintedOf t2.
Proof. apply omap_app. Qed.

Lemma asked_app (t1 t2 : list Event) : asked (t1 ++ t2) = (asked t1 + asked t2)%nat.
Proof. unfold asked. by rewrite omap_app, length_app. Qed.

Lemma visitNeighbour_counts (g : Geometry) (f : StoppingCondition)
    (c : nat) (budget : nat) (s : Search) (nb : Z) :
  counts (Some c) budget s →
  counts (Some c) (S budget) (visitNeighbour g f c s nb).
Proof.
  intros [Hnd Hv Ha]. unfold visitNeighbour.
  destruct (decide (nb = -1)) as [|Hnb]; [split; [done|done|lia]|].
  destruct (decide (size_t_of_int nb ∈ alreadyVisited s)) as [|Hnew];
    [split; [done|done|lia]|].
  set (n := size_t_of_int nb) in *.
  destruct (f g n c); split; cbn [trace toVisit alreadyVisited];
    rewrite ?paintedOf_app, ?asked_app;
    change (paintedOf [EvPredicate n c true; EvQueued n]) with (@nil nat);
    change (paintedOf [EvPredicate n c false]) with (@nil nat);
    change (asked [EvPredicate n c true; EvQueued n]) with 1%nat;
    change (asked [EvPredicate n c false]) with 1%nat;
    rewrite ?app_nil_r; try done; try lia.
  - rewrite !app_assoc. apply NoDup_app. split_and!.
    + by rewrite <- app_assoc.
    + intros x Hx ->%list_elem_of_singleton. apply Hnew, Hv.
      by rewrite <- app_assoc in Hx.
    + apply NoDup_singleton.
  - intros x. rewrite !app_assoc, elem_of_app, list_elem_of_singleton.
    rewrite elem_of_union, elem_of_singleton.
    intros [Hx| ->]; [right|by left]. apply Hv. by rewrite <- app_assoc in Hx.
Qed.

Lemma addNeighbours_counts (g : Geometry) (f : StoppingCondition)
    (c : nat) (nbs : list Z) (budget : nat) (s : Search) :
  counts (Some c) budget s →
  counts (Some c) (budget + length nbs) (foldl (visitNeighbour g f c) s nbs).
Proof.
  revert budget s. induction nbs as [|nb nbs IH]; intros budget s Hs; simpl.
  - by rewrite Nat.add_0_r.
  - replace (budget + S (length nbs))%nat with (S budget + length nbs)%nat by lia.
    by apply IH, visitNeighbour_counts.
Qed.

Lemma gatherNeighbours_three (g : Geometry) (c : nat) (handles : list nat)
    (nbs : list Z) :
  gatherNeighbours g c handles = Some nbs → length nbs = 3%nat.
Proof.
  unfold gatherNeighbours. intros H.
  destruct (handles !! c) as [h|]; simpl in H; [|done].
  destruct (facets _ !! h) as [facet|]; simpl in H; [|done].
  case_guard as H3; simpl in H; [|done].
  apply length_mapM in H. congruence.
Qed.

Lemma bucketStep_counts (f : StoppingCondition) (g g' : Geometry)
    (c : nat) (rest : list nat) (s s' : Search) :
  counts None 0 s → toVisit s = c :: rest →
  bucketStep f g s c rest = Some (g', s') → counts None 0 s'.
Proof.
  intros [Hnd Hv Ha] Hq (_ & _ & _ & nbs & Hnbs & _ & ->)%bucketStep_Some.
  apply gatherNeighbours_three in Hnbs.
  set (s0 := {| alreadyVisited := alreadyVisited s; toVisit := rest;
                trace := trace s |}).
  assert (counts (Some c) 0 s0) as Hs0.
  { rewrite Hq in Hnd, Hv. split; simpl; [done|done|lia]. }
  pose proof (addNeighbours_counts g f c nbs 0 s0 Hs0) as [Hnd1 Hv1 Ha1].
  rewrite Hnbs in Ha1. simpl in *.
  split; cbn [trace toVisit alreadyVisited option_list];
    rewrite ?paintedOf_app, ?asked_app;
    change (paintedOf [EvPainted c]) with [c];
    change (asked [EvPainted c]) with 0%nat.
  - by rewrite <- app_assoc.
  - intros x. rewrite <- app_assoc. apply Hv1.
  - rewrite length_app. simpl. lia.
Qed.

Lemma bucketLoop_counts (f : StoppingCondition) (fuel : nat)
    (g g' : Geometry) (s s' : Search) :
  counts None 0 s → bucketLoop fuel f g s = Some (g', s') →
  counts None 0 s' ∧ toVisit s' = [].
Proof.
  revert g s. induction fuel as [|fuel IH]; intros g s Hs; simpl.
  - destruct (toVisit s) eqn:Hq; [|done]. by intros [= <- <-].
  - destruct (toVisit s) as [|c rest] eqn:Hq; [by intros [= <- <-]|].
    destruct (bucketStep f g s c rest) as [[g1 s1]|] eqn:Hstep; [|done].
    simpl. apply IH. by eapply bucketStep_counts.
Qed.

(** X27: in a flood that returns, no triangle is painted twice, and the
    criterion is called at most three times for every painted triangle,
    whatever it answers and whatever the mesh. *)
Theorem bucket_paints_once (f : StoppingCondition) (start : nat)
    (g g' : Geometry) (t : list Event) :
  bucketRun start f g = Some (g', t) →
  NoDup (paintedOf t) ∧ (asked t ≤ 3 * length (paintedOf t))%nat.
Proof.
  unfold bucketRun. destruct (is_empty _).
  { intros [= <- <-]. split; [constructor|done]. }
  case_guard; simpl; [|done].
  destruct (bucketLoop _ f g _) as [[g1 s1]|] eqn:Hloop; [|done].
  simpl. intros [= <- <-].
  apply bucketLoop_counts in Hloop as [[Hnd _ Ha] Hq].
  - rewrite Hq in Hnd. simpl in Hnd. rewrite app_nil_r in Hnd.
    split; [done|lia].
  - split; simpl; [|by intros x ->%list_elem_of_singleton; apply elem_of_singleton|done].
    apply NoDup_singleton.
Qed.

End trace_counts.

(** *** A rejected neighbour is asked about again *)

Section reconsidered.

Context {vec3 Tree ColorA : Type}.

Local Abbreviation Geometry := (Geometry vec3 Tree ColorA).
Local Abbreviation StoppingCondition := (StoppingCondition vec3 Tree ColorA).

(** The events of one turn of the loop before the face [c] is painted:
    calls of the criterion from [c], and faces queued. *)
Definition of_turn (c : nat) (e : Event) : Prop :=
  (∃ x b, e = EvPredicate x c b) ∨ ∃ x, e = EvQueued x.

(** Between two turns of the loop, on the trace so far: when a face is
    painted, every neighbour of it is the seed, or was queued before, or the
    criterion was called on it from that face in the same turn; and every
    call of the criterion from a face is followed by the painting of that
    face, with no other face painted in between. *)
Record turns (g0 : Geometry) (start : nat) (t : list Event) : Prop := {
  tu_asked : ∀ j c' n, t !! j = Some (EvPainted c') → adjacent g0 c' n →
    n = start ∨
    ∃ k, (k < j)%nat ∧
      (t !! k = Some (EvQueued n) ∨
       ((∃ b, t !! k = Some (EvPredicate n c' b)) ∧
        ∀ m y, (k < m < j)%nat → t !! m ≠ Some (EvPainted y)));
  tu_turn : ∀ k x c b, t !! k = Some (EvPredicate x c b) →
    ∃ jc, (k < jc)%nat ∧ t !! jc = Some (EvPainted c) ∧
      ∀ m y, (k < m < jc)%nat → t !! m ≠ Some (EvPainted y)
}.

Lemma turns_nil (g0 : Geometry) (start : nat) : turns g0 start [].
Proof. split; intros *; by rewrite lookup_nil. Qed.

Lemma of_turn_not_painted (c : nat) (ext : list Event) (m y : nat) :
  Forall (of_turn c) ext → ext !! m ≠ Some (EvPainted y).
Proof.
  intros Hext Hm. rewrite Forall_forall in Hext.
  destruct (Hext (EvPainted y)) as [(? & ? & ?)|(? & ?)]; try done.
  apply list_elem_of_lookup. eauto.
Qed.

(** What the loop over the neighbours of [c] adds to the trace. *)
Lemma visitNeighbour_ext (g : Geometry) (f : StoppingCondition)
    (c : nat) (s : Search) (nb : Z) :
  ∃ ext, trace (visitNeighbour g f c s nb) = trace s ++ ext ∧
    Forall (of_turn c) ext ∧
    (nb ≠ -1 → size_t_of_int nb ∈ alreadyVisited s ∨
               ∃ b, EvPredicate (size_t_of_int nb) c b ∈ ext) ∧
    (∀ x, x ∈ alreadyVisited (visitNeighbour g f c s nb) →
          x ∈ alreadyVisited s ∨ ∃ b, EvPredicate x c b ∈ ext).
Proof.
  unfold visitNeighbour.
  destruct (decide (nb = -1)) as [|Hnb].
  { exists []. rewrite app_nil_r. split_and!; [done|done|done|by left]. }
  destruct (decide (size_t_of_int nb ∈ alreadyVisited s)) as [Hin|Hnew].
  { exists []. rewrite app_nil_r. split_and!; [done|done|by left|by left]. }
  set (n := size_t_of_int nb).
  destruct (f g n c);
    [exists [EvPredicate n c true; EvQueued n]|exists [EvPredicate n c false]];
    (split; [reflexivity|]); simpl.
  - split_and!.
    + apply Forall_cons. split; [left; eauto|].
      apply Forall_cons. split; [right; eauto|]. constructor.
    + intros _. right. exists true. by left.
    + intros x [->%elem_of_singleton|?]%elem_of_union; [right|by left].
      exists true. by left.
  - split_and!.
    + apply Forall_cons. split; [left; eauto|]. constructor.
    + intros _. right. exists false. by left.
    + intros x ?. by left.
Qed.

Lemma addNeighbours_ext (g : Geometry) (f : StoppingCondition)
    (c : nat) (nbs : list Z) (s : Search) :
  ∃ ext, trace (foldl (visitNeighbour g f c) s nbs) = trace s ++ ext ∧
    Forall (of_turn c) ext ∧
    (∀ nb, nb ∈ nbs → nb ≠ -1 →
       size_t_of_int nb ∈ alreadyVisited s ∨
       ∃ b, EvPredicate (size_t_of_int nb) c b ∈ ext).
Proof.
  revert s. induction nbs as [|nb nbs IH]; intros s; simpl.
  { exists []. rewrite app_nil_r. split_and!; [done|done|].
    by intros nb ?%elem_of_nil. }
  destruct (visitNeighbour_ext g f c s nb) as (e1 & Ht1 & Hof1 & Hnb & Hvis).
  destruct (IH (visitNeighbour g f c s nb)) as (e2 & Ht2 & Hof2 & Hrest).
  exists (e1 ++ e2). split_and!.
  - by rewrite Ht2, Ht1, app_assoc.
  - by apply Forall_app.
  - intros nb' [->|Hin]%elem_of_cons Hne.
    + destruct (Hnb Hne) as [?|[b Hb]]; [by left|right].
      exists b. apply elem_of_app. by left.
    + destruct (Hrest nb' Hin Hne) as [Hv|[b Hb]].
      * destruct (Hvis _ Hv) as [?|[b Hb]]; [by left|right].
        exists b. apply elem_of_app. by left.
      * right. exists b. apply elem_of_app. by right.
Qed.

Lemma bucketStep_turns (f : StoppingCondition) (g0 g g' : Geometry)
    (start c : nat) (rest : list nat) (s s' : Search) :
  mPolyhedronData g = mPolyhedronData g0 →
  length (mTriangles g) = length (mTriangles g0) →
  search_ok start s → turns g0 start (trace s) →
  bucketStep f g s c rest = Some (g', s') →
  turns g0 start (trace s').
Proof.
  intros HP HT Hok [Hasked Hturn]
    (_ & _ & _ & nbs & Hnbs & _ & ->)%bucketStep_Some.
  set (s0 := {| alreadyVisited := alreadyVisited s; toVisit := rest;
                trace := trace s |}).
  destruct (addNeighbours_ext g f c nbs s0) as (ext & Hext & Hof & Hnb).
  cbn [trace]. rewrite Hext. cbn [trace s0].
  set (t := trace s) in *. set (J := length (t ++ ext)).
  assert (∀ m y, (t ++ ext) !! m = Some (EvPainted y) → t !! m = Some (EvPainted y))
    as Hold.
  { intros m y Hm. apply lookup_app_Some in Hm as [?|[_ Hm]]; [done|].
    by apply (of_turn_not_painted c) in Hm. }
  assert (∀ m e, t !! m = Some e → ((t ++ ext) ++ [EvPainted c]) !! m = Some e)
    as Hkeep.
  { intros m e Hm. rewrite <- app_assoc. by apply lookup_app_l_Some. }
  assert (∀ m y, (m < J)%nat →
            ((t ++ ext) ++ [EvPainted c]) !! m = Some (EvPainted y) →
            t !! m = Some (EvPainted y)) as Hback.
  { intros m y Hm Hy. rewrite lookup_app_l in Hy by done. by apply Hold. }
  split.
  - intros j c' n [[Hj Hc']|[-> [= <-]]]%lookup_snoc_Some Hadj.
    + apply Hold in Hc'.
      destruct (Hasked j c' n Hc' Hadj) as [?|(k & Hk & Hev)]; [by left|right].
      exists k. split; [done|].
      destruct Hev as [Hq|[[b Hb] Hfree]]; [left; by apply Hkeep|right].
      split; [exists b; by apply Hkeep|].
      intros m y Hm Hy. apply (Hfree m y Hm). apply Hback; [|done].
      apply lookup_lt_Some in Hc'. unfold J. rewrite length_app. lia.
    + destruct Hadj as (nbs0 & nb & Hnbs0 & Hin & Hne & ->).
      rewrite <- HP, <- (gatherNeighbours_ext g0 g) in Hnbs0 by done.
      rewrite Hnbs in Hnbs0. injection Hnbs0 as <-.
      destruct (Hnb nb Hin Hne) as [Hv|[b Hb]].
      * apply (so_visited _ _ Hok) in Hv as [?|Hq]; [by left|right].
        fold t in Hq. apply list_elem_of_lookup in Hq as [k Hk].
        exists k. split; [|left; by apply Hkeep].
        apply lookup_lt_Some in Hk. rewrite length_app. lia.
      * right. apply list_elem_of_lookup in Hb as [k' Hk'].
        exists (length t + k')%nat. split_and!.
        -- apply lookup_lt_Some in Hk'. rewrite length_app. lia.
        -- right. split.
           ++ exists b. rewrite lookup_app_l
                by (apply lookup_lt_Some in Hk'; rewrite length_app; lia).
              by rewrite lookup_app_r, Nat.add_comm, Nat.add_sub by lia.
           ++ intros m y Hm Hy. fold J in Hm.
              rewrite lookup_app_l in Hy by lia.
              rewrite lookup_app_r in Hy by lia.
              by apply (of_turn_not_painted c) in Hy.
  - intros k x c0 b [[Hk Hev]|[_ ?]]%lookup_snoc_Some; [|done].
    apply lookup_app_Some in Hev as [Hev|[Hge Hev]].
    + destruct (Hturn k x c0 b Hev) as (jc & Hjc & Hp & Hfree).
      exists jc. split_and!; [done|by apply Hkeep|].
      intros m y Hm Hy. apply (Hfree m y Hm). apply Hback; [|done].
      apply lookup_lt_Some in Hp. unfold J. rewrite length_app. lia.
    + assert (of_turn c (EvPredicate x c0 b)) as [(? & ? & [= _ -> _])|(? & ?)];
        [|clear Hev|done].
      { rewrite Forall_forall in Hof. apply Hof, list_elem_of_lookup. eauto. }
      exists J. split_and!; [done|by apply list_lookup_middle|].
      intros m y Hm Hy. rewrite lookup_app_l in Hy by lia.
      rewrite lookup_app_r in Hy by lia.
      by apply (of_turn_not_painted c) in Hy.
Qed.

Lemma bucketLoop_turns (f : StoppingCondition) (g0 : Geometry) (start fuel : nat)
    (g g' : Geometry) (s s' : Search) :
  mPolyhedronData g = mPolyhedronData g0 →
  length (mTriangles g) = length (mTriangles g0) →
  search_ok start s → turns g0 start (trace s) →
  bucketLoop fuel f g s = Some (g', s') →
  turns g0 start (trace s').
Proof.
  revert g s. induction fuel as [|fuel IH]; intros g s HP HT Hok Hturns; simpl.
  - destruct (toVisit s); [|done]. by intros [= <- <-].
  - destruct (toVisit s) as [|c rest] eqn:Hq; [by intros [= <- <-]|].
    destruct (bucketStep f g s c rest) as [[g1 s1]|] eqn:Hstep; [|done].
    simpl.
    pose proof Hstep as (_ & _ & _ & _ & _ & Hset & _)%bucketStep_Some.
    destruct (setTriangleColor_frame _ _ _ _ Hset) as (HP1 & _ & HT1 & _).
    apply IH; try congruence.
    + by eapply bucketStep_ok.
    + by eapply bucketStep_turns.
Qed.

Lemma bucketRun_turns (f : StoppingCondition) (start : nat)
    (g g' : Geometry) (t : list Event) :
  bucketRun start f g = Some (g', t) → turns g start t.
Proof.
  unfold bucketRun. destruct (is_empty _).
  { intros [= <- <-]. apply turns_nil. }
  case_guard; simpl; [|done].
  destruct (bucketLoop _ f g _) as [[g1 s1]|] eqn:Hloop; [|done].
  simpl. intros [= <- <-].
  apply (bucketLoop_turns f g start) in Hloop; [done|done|done| |apply turns_nil].
  split; simpl.
  - apply trace_ok_nil.
  - intros x. rewrite elem_of_singleton, elem_of_nil. tauto.
  - intros x ->%list_elem_of_singleton. by apply elem_of_singleton.
Qed.

(** C4, as the code has it: when the predicate returns [false] for a
    neighbour that is not visited yet, the evaluation leaves the visited
    set and the queue as they are: nothing records the rejection, and
    nothing is queued.  The predicate is evaluated on the face again: when
    another face that has it as a neighbour is taken off the queue later in
    the same flood, the predicate has been called on the rejected face
    since, from that face or, with the answer [true], from a face before
    it.  The face is queued only right after a later evaluation returned
    [true], and it is painted only after it was queued that way. *)
Theorem rejected_neighbour_asked_again (g g' : Geometry)
    (startTriangle : nat) (stopFunctor : StoppingCondition)
    (t : list Event) (i n c : nat) :
  bucketRun startTriangle stopFunctor g = Some (g', t) →
  t !! i = Some (EvPredicate n c false) →
  (∀ (g1 : Geometry) (s : Search) (nb : Z),
     nb ≠ -1 → size_t_of_int nb = n → n ∉ alreadyVisited s →
     stopFunctor g1 n c = false →
     visitNeighbour g1 stopFunctor c s nb
     = {| alreadyVisited := alreadyVisited s; toVisit := toVisit s;
          trace := trace s ++ [EvPredicate n c false] |}) ∧
  (∀ x, t !! S i ≠ Some (EvQueued x)) ∧
  (∀ j c', (i < j)%nat → t !! j = Some (EvPainted c') → c' ≠ c →
     adjacent g c' n →
     ∃ k, (i < k < j)%nat ∧
       ((∃ b, t !! k = Some (EvPredicate n c' b)) ∨
        (∃ c'', t !! k = Some (EvPredicate n c'' true)))) ∧
  (∀ j, t !! j = Some (EvQueued n) →
     (i < pred j)%nat ∧ ∃ c', t !! pred j = Some (EvPredicate n c' true)) ∧
  (∀ j, t !! j = Some (EvPainted n) →
     ∃ k, (i < k < j)%nat ∧ t !! k = Some (EvQueued n)).
Proof.
  intros Hrun Hi.
  destruct (rejected_neighbour_order g g' startTriangle stopFunctor t i n c Hrun Hi)
    as (Hnext & Hqueued & Hpainted).
  pose proof (bucketRun_trace_ok _ _ _ _ _ Hrun) as [_ HP _].
  destruct (HP _ _ _ _ Hi) as [Hstart _].
  destruct (bucketRun_turns _ _ _ _ _ Hrun) as [Hasked Hturn].
  split_and!; try done.
  - intros g1 s nb Hnb <- Hnew Hf. unfold visitNeighbour.
    rewrite decide_False, decide_False, Hf by done. done.
  - intros j c' Hij Hj Hc' Hadj.
    destruct (Hasked j c' n Hj Hadj) as [?|(k & Hk & Hev)]; [done|].
    destruct Hev as [Hq|[[b Hb] Hfree]].
    + destruct (Hqueued k Hq) as (Hik & c'' & Hc'').
      exists (pred k). split; [lia|]. right. by exists c''.
    + exists k. split; [|left; by exists b]. split; [|done].
      destruct (decide (i < k)%nat) as [|Hki]; [done|exfalso].
      assert (k ≠ i) by (intros ->; congruence).
      destruct (Hturn i n c false Hi) as (jc & Hjc & Hpc & Hfreec).
      destruct (decide (jc < j)%nat) as [Hlt|Hge].
      * apply (Hfree jc c); [lia|done].
      * assert (jc ≠ j) by (intros ->; congruence).
        apply (Hfreec j c'); [lia|done].
Qed.

End reconsidered.

(** ** PaintBucket.h: the criteria of the paint bucket

    A criterion is asked about triangles of the mesh only; for an index
    outside the mesh [getTriangle] fails an assertion, which a criterion
    has no way to report: there the model reads no color and no normal, and
    [NormalStopping] lets the face pass.  The identifiers are taken by
    their base id, the index of the triangle; [cosine] stands for
    [glm::dot(glm::normalize(u), glm::normalize(v))], widened to the
    [double] it is stored in. *)
Section criteria.

Context {vec3 Tree ColorA : Type}.

Local Abbreviation Geometry := (Geometry vec3 Tree ColorA).
Local Abbreviation StoppingCondition := (StoppingCondition vec3 Tree ColorA).

(** [getTriangle]. *)
Definition getTriangle (triangleIndex : nat) (g : Geometry)
    : option (DataTriangle vec3) :=
  mTriangles g !! triangleIndex.

Definition DoNotStop : StoppingCondition := λ _ _ _, true.

Definition ColorStopping : StoppingCondition :=
  λ geo a b,
    bool_decide (dtColor <$> getTriangle a geo = dtColor <$> getTriangle b geo).

Inductive NormalAngleCompare := NEIGHBOURS | ABSOLUTE.

Definition getNormal (a : nat) (geo : Geometry) : option vec3 :=
  dtNormal <$> getTriangle a geo.

Definition NormalStopping (cosine : vec3 → vec3 → float) (threshold : float)
    (startNormal : vec3) (angleCompare : NormalAngleCompare) : StoppingCondition :=
  λ geo a b,
    if decide (a = b) then true
    else
      let cosAngle :=
        match angleCompare with
        | ABSOLUTE =>
            newNormal ← getNormal a geo;
            Some (cosine newNormal startNormal)
        | NEIGHBOURS =>
            newNormal1 ← getNormal a geo;
            newNormal2 ← getNormal b geo;
            Some (cosine newNormal1 newNormal2)
        end in
      match cosAngle with
      | Some cosAngle => if (cosAngle <? threshold)%float then false else true
      | None => true
      end.

Lemma DoNotStop_static (g : Geometry) : static DoNotStop (λ _ _, true) g.
Proof. by intros g1 painted n c _ _ _. Qed.

Lemma unpainted_color (g g1 : Geometry) (painted : gset nat) (x : nat) :
  mTriangles g1 = paintedSoup g painted → x ∉ painted →
  getTriangleColor x g1 = getTriangleColor x g.
Proof.
  intros Hsoup Hx. unfold getTriangleColor. rewrite Hsoup. unfold paintedSoup.
  rewrite list_lookup_imap. destruct (mTriangles g !! x); simpl; [|done].
  by rewrite decide_False.
Qed.

Lemma ColorStopping_static (g : Geometry) :
  static ColorStopping (ColorStopping g) g.
Proof.
  intros g1 painted n c Hsoup Hn Hc. unfold ColorStopping.
  change (dtColor <$> getTriangle ?a ?geo) with (getTriangleColor a geo).
  by rewrite !(unpainted_color g g1 painted).
Qed.

Lemma paintedSoup_normal (g g1 : Geometry) (painted : gset nat) (x : nat) :
  mTriangles g1 = paintedSoup g painted → getNormal x g1 = getNormal x g.
Proof.
  intros Hsoup. unfold getNormal, getTriangle. rewrite Hsoup. unfold paintedSoup.
  rewrite list_lookup_imap. destruct (mTriangles g !! x); simpl; [|done].
  by destruct (decide (x ∈ painted)).
Qed.

Lemma NormalStopping_static (cosine : vec3 → vec3 → float) (threshold : float)
    (startNormal : vec3) (angleCompare : NormalAngleCompare) (g : Geometry) :
  static (NormalStopping cosine threshold startNormal angleCompare)
         (NormalStopping cosine threshold startNormal angleCompare g) g.
Proof.
  intros g1 painted n c Hsoup _ _. unfold NormalStopping.
  by rewrite !(paintedSoup_normal g g1 painted).
Qed.

(** The faces a flood with [ColorStopping] reaches had the color of the
    start triangle. *)
Lemma reached_same_color (g : Geometry) (start x : nat) :
  reached g (ColorStopping g) start x →
  getTriangleColor x g = getTriangleColor start g.
Proof.
  induction 1 as [|c n _ IH _ Hacc]; [done|].
  unfold ColorStopping in Hacc. apply bool_decide_eq_true in Hacc.
  change (dtColor <$> getTriangle ?a ?geo) with (getTriangleColor a geo) in Hacc.
  congruence.
Qed.

(** The faces a flood with [NormalStopping] in the mode [ABSOLUTE] reaches,
    the start triangle apart, have a normal whose cosine with the start
    normal is not below the threshold. *)
Lemma reached_absolute (cosine : vec3 → vec3 → float) (threshold : float)
    (startNormal : vec3) (g : Geometry) (start x : nat) (n : vec3) :
  reached g (NormalStopping cosine threshold startNormal ABSOLUTE g) start x →
  x ≠ start → getNormal x g = Some n →
  (cosine n startNormal <? threshold)%float = false.
Proof.
  intros Hreach. revert n.
  induction Hreach as [|c y _ IH _ Hacc]; [done|]. intros n Hx Hn.
  unfold NormalStopping in Hacc.
  (* a face asked about as its own neighbour is accepted whatever its
     normal, but then it was reached before *)
  destruct (decide (y = c)) as [->|Hyc]; [by apply IH|].
  rewrite Hn in Hacc. simpl in Hacc.
  by destruct (cosine n startNormal <? threshold)%float.
Qed.

(** X6: the flood with [DoNotStop] paints the faces joined to the start
    triangle by a chain of neighbours, all of them and no others. *)
Theorem bucket_DoNotStop (g : Geometry) (start : nat) :
  well_formed g = true → is_empty (pdP (mPolyhedronData g)) = false →
  (start < length (mTriangles g))%nat →
  ∃ g', bucket start DoNotStop g = Some g' ∧
    ∀ x, (x < length (mTriangles g))%nat →
      (reached g (λ _ _, true) start x →
         getTriangleColor x g' = Some (activeColor g)) ∧
      (¬ reached g (λ _ _, true) start x →
         getTriangleColor x g' = getTriangleColor x g).
Proof.
  intros Hwf Hne Hstart.
  destruct (bucket_flood g start DoNotStop _ Hwf Hne Hstart (DoNotStop_static g))
    as (g' & painted & Hrun & Hsoup & _ & Hreach).
  exists g'. split; [done|]. intros x Hx.
  rewrite (paintedSoup_color g painted g' x Hsoup Hx).
  destruct (decide (x ∈ painted)) as [Hin|Hout].
  - split; [done|]. intros Hnot. by apply Hreach in Hin.
  - split; [|done]. intros Hin. by apply Hreach in Hin.
Qed.

(** X7: the flood with [ColorStopping] runs to its end and repaints only
    faces that had the color of the start triangle: every other face keeps
    its color, and so does a face of that color that no chain of neighbours
    of that color joins to the start. *)
Theorem bucket_ColorStopping (g : Geometry) (start : nat) :
  well_formed g = true → is_empty (pdP (mPolyhedronData g)) = false →
  (start < length (mTriangles g))%nat →
  ∃ g', bucket start ColorStopping g = Some g' ∧
    ∀ x, (x < length (mTriangles g))%nat →
      (getTriangleColor x g ≠ getTriangleColor start g →
         getTriangleColor x g' = getTriangleColor x g) ∧
      (reached g (ColorStopping g) start x →
         getTriangleColor x g' = Some (activeColor g)) ∧
      (¬ reached g (ColorStopping g) start x →
         getTriangleColor x g' = getTriangleColor x g).
Proof.
  intros Hwf Hne Hstart.
  destruct (bucket_flood g start ColorStopping _ Hwf Hne Hstart
              (ColorStopping_static g))
    as (g' & painted & Hrun & Hsoup & _ & Hreach).
  exists g'. split; [done|]. intros x Hx.
  rewrite (paintedSoup_color g painted g' x Hsoup Hx).
  destruct (decide (x ∈ painted)) as [Hin|Hout].
  - apply Hreach in Hin as Hr. split_and!; try done.
    intros Hcol. by apply reached_same_color in Hr.
  - split_and!; try done. intros Hin. by apply Hreach in Hin.
Qed.

(** X8: the flood with [NormalStopping] in the mode [ABSOLUTE] runs to its
    end and, the start triangle apart, never repaints a face whose normal
    has a cosine with the start normal below the threshold. *)
Theorem bucket_NormalStopping_absolute (cosine : vec3 → vec3 → float)
    (threshold : float) (startNormal : vec3) (g : Geometry) (start : nat) :
  well_formed g = true → is_empty (pdP (mPolyhedronData g)) = false →
  (start < length (mTriangles g))%nat →
  ∃ g', bucket start (NormalStopping cosine threshold startNormal ABSOLUTE) g
        = Some g' ∧
    ∀ x n, x ≠ start → getNormal x g = Some n →
      (cosine n startNormal <? threshold)%float = true →
      getTriangleColor x g' = getTriangleColor x g.
Proof.
  intros Hwf Hne Hstart.
  destruct (bucket_flood g start _ _ Hwf Hne Hstart
              (NormalStopping_static cosine threshold startNormal ABSOLUTE g))
    as (g' & painted & Hrun & Hsoup & _ & Hreach).
  exists g'. split; [done|]. intros x n Hx Hn Hcos.
  assert (x < length (mTriangles g))%nat as Hlen.
  { unfold getNormal, getTriangle in Hn. apply fmap_Some in Hn as (t & Ht & _).
    by apply lookup_lt_Some in Ht. }
  rewrite (paintedSoup_color g painted g' x Hsoup Hlen).
  destruct (decide (x ∈ painted)) as [Hin|Hout]; [|done].
  apply Hreach in Hin.
  rewrite (reached_absolute _ _ _ _ _ _ _ Hin Hx Hn) in Hcos. done.
Qed.

End criteria.

(** ** The buffers of the renderer *)

Section buffers.

Context {vec3 Tree ColorA : Type}.

Local Abbreviation DataTriangle := (DataTriangle vec3).
Local Abbreviation Geometry := (Geometry vec3 Tree ColorA).
Local Abbreviation StoppingCondition := (StoppingCondition vec3 Tree ColorA).

(** [DataTriangle::getVertex]. *)
Definition getVertex (t : DataTriangle) (k : nat) : vec3 :=
  match k with
  | 0%nat => (dtTri t).1.1
  | 1%nat => (dtTri t).1.2
  | _ => (dtTri t).2
  end.

Definition set_buffers (g : Geometry) (vertexBuffer : list vec3)
    (colorBuffer : list Z) (normalBuffer : list vec3) (indexBuffer : list Z)
    : Geometry :=
  {| mTriangles := mTriangles g;
     mVertexBuffer := vertexBuffer;
     mColorBuffer := colorBuffer;
     mNormalBuffer := normalBuffer;
     mIndexBuffer := indexBuffer;
     mTree := mTree g;
     mColorManager := mColorManager g;
     mPolyhedronData := mPolyhedronData g |}.

(** A range-based loop that pushes three entries for every triangle. *)
Definition pushTriples {A : Type} (entries : DataTriangle → list A)
    (triangles : list DataTriangle) : list A :=
  foldl (λ buf mTriangle, buf ++ entries mTriangle) [] triangles.

Definition generateVertexBuffer (g : Geometry) : Geometry :=
  set_buffers g
    (pushTriples (λ mTriangle, [getVertex mTriangle 0; getVertex mTriangle 1;
                                getVertex mTriangle 2]) (mTriangles g))
    (mColorBuffer g) (mNormalBuffer g) (mIndexBuffer g).

(** The loop of [generateIndexBuffer]: the counter [i] is a [uint32_t], the
    size it is compared with a [size_t]. *)
Fixpoint indexLoop (fuel : nat) (i : Z) (size : nat) (buf : list Z)
    : option (list Z) :=
  if decide (i < Z.of_nat size) then
    match fuel with
    | O => None
    | S fuel' => indexLoop fuel' ((i + 1) mod 2 ^ 32) size (buf ++ [i])
    end
  else Some buf.

Definition generateIndexBuffer (g : Geometry) : option Geometry :=
  buf ← indexLoop (length (mVertexBuffer g)) 0 (length (mVertexBuffer g)) [];
  Some (set_buffers g (mVertexBuffer g) (mColorBuffer g) (mNormalBuffer g) buf).

Definition generateColorBuffer (g : Geometry) : option Geometry :=
  let buf :=
    pushTriples (λ mTriangle,
                   let triColorIndex := ColorIndex_of_size_t (dtColor mTriangle) in
                   [triColorIndex; triColorIndex; triColorIndex])
                (mTriangles g) in
  guard (length buf = length (mVertexBuffer g));;
  Some (set_buffers g (mVertexBuffer g) buf (mNormalBuffer g) (mIndexBuffer g)).

Definition generateNormalBuffer (g : Geometry) : option Geometry :=
  let buf :=
    pushTriples (λ mTriangle, [dtNormal mTriangle; dtNormal mTriangle;
                               dtNormal mTriangle]) (mTriangles g) in
  guard (length buf = length (mVertexBuffer g));;
  Some (set_buffers g (mVertexBuffer g) (mColorBuffer g) buf (mIndexBuffer g)).

(** The members a constructor does not mention: empty buffers, an empty
    polyhedron, and the palette of the default [ColorManager]. *)
Definition defaultPolyhedronData : PolyhedronData vec3 :=
  {| pdVertices := []; pdIndices := []; pdP := clear; pdFaceHandles := [];
     pdCloseCheck := false |}.

(** [Geometry(std::vector<DataTriangle>&&)].  [newTree] builds the AABB tree
    of the triangles and [treeSize] is its [size()]; the tree is read by
    nothing before the last assertion, so the model stores it at once. *)
Definition newGeometry (newTree : list DataTriangle → Tree)
    (treeSize : Tree → nat) (palette : ColorManager ColorA)
    (triangles : list DataTriangle) : option Geometry :=
  let g := {| mTriangles := triangles;
              mVertexBuffer := [];
              mColorBuffer := [];
              mNormalBuffer := [];
              mIndexBuffer := [];
              mTree := newTree triangles;
              mColorManager := palette;
              mPolyhedronData := defaultPolyhedronData |} in
  let g := generateVertexBuffer g in
  g ← generateIndexBuffer g;
  g ← generateColorBuffer g;
  g ← generateNormalBuffer g;
  guard (length (mIndexBuffer g) = length (mVertexBuffer g));;
  guard (treeSize (mTree g) = length (mTriangles g));;
  Some g.

(** [polyClosedCheck] and [polyVertCount]. *)
Definition polyClosedCheck (g : Geometry) : bool :=
  pdCloseCheck (mPolyhedronData g).

Definition polyVertCount (g : Geometry) : nat :=
  length (pdVertices (mPolyhedronData g)).

(** The invariant of the color buffer: three entries for every triangle, in
    the order of the soup, each the color of the triangle. *)
Definition coherent (g : Geometry) : Prop :=
  mColorBuffer g
  = mTriangles g ≫= λ t, replicate 3 (ColorIndex_of_size_t (dtColor t)).

Lemma pushTriples_bind {A : Type} (entries : DataTriangle → list A)
    (triangles : list DataTriangle) :
  pushTriples entries triangles = triangles ≫= entries.
Proof.
  unfold pushTriples.
  assert (∀ acc, foldl (λ buf t, buf ++ entries t) acc triangles
                 = acc ++ (triangles ≫= entries)) as H.
  { induction triangles as [|t ts IH]; intros acc; simpl.
    - by rewrite app_nil_r.
    - by rewrite IH, app_assoc. }
  by rewrite H.
Qed.

Lemma length_bind_3 {A : Type} (entries : DataTriangle → list A)
    (triangles : list DataTriangle) :
  (∀ t, length (entries t) = 3%nat) →
  length (triangles ≫= entries) = (3 * length triangles)%nat.
Proof.
  intros H3. induction triangles as [|t ts IH]; [done|].
  rewrite bind_cons, length_app, H3, IH. simpl. lia.
Qed.

Lemma lookup_bind_3 {A : Type} (entries : DataTriangle → list A)
    (triangles : list DataTriangle) (i k : nat) (t : DataTriangle) :
  (∀ t, length (entries t) = 3%nat) →
  triangles !! i = Some t → (k < 3)%nat →
  (triangles ≫= entries) !! (3 * i + k)%nat = entries t !! k.
Proof.
  intros H3. revert i. induction triangles as [|t0 ts IH]; intros i Hi Hk; [done|].
  rewrite bind_cons. destruct i as [|i]; simpl in Hi.
  - injection Hi as ->. rewrite lookup_app_l by (rewrite H3; lia).
    by replace (3 * 0 + k)%nat with k by lia.
  - rewrite lookup_app_r by (rewrite H3; lia). rewrite H3.
    replace (3 * S i + k - 3)%nat with (3 * i + k)%nat by lia. by apply IH.
Qed.

Lemma indexLoop_counts (size fuel i : nat) (buf : list Z) :
  Z.of_nat size < 2 ^ 32 → (i ≤ size)%nat → (size - i ≤ fuel)%nat →
  indexLoop fuel (Z.of_nat i) size buf
  = Some (buf ++ (Z.of_nat <$> seq i (size - i))).
Proof.
  intros Hsize. revert i buf. induction fuel as [|fuel IH]; intros i buf Hi Hfuel.
  - simpl. replace (size - i)%nat with 0%nat by lia.
    rewrite decide_False by lia. simpl. by rewrite app_nil_r.
  - simpl. destruct (decide (Z.of_nat i < Z.of_nat size)) as [Hlt|Hge].
    + rewrite Z.mod_small by lia.
      replace (Z.of_nat i + 1) with (Z.of_nat (S i)) by lia.
      rewrite IH by lia.
      replace (size - i)%nat with (S (size - S i)) by lia. simpl.
      by rewrite <- app_assoc.
    + replace (size - i)%nat with 0%nat by lia. simpl. by rewrite app_nil_r.
Qed.

Lemma indexLoop_wraps (size fuel : nat) (i : Z) (buf : list Z) :
  2 ^ 32 ≤ Z.of_nat size → 0 ≤ i < 2 ^ 32 →
  indexLoop fuel i size buf = None.
Proof.
  intros Hsize. revert i buf. induction fuel as [|fuel IH]; intros i buf Hi; simpl.
  - by rewrite decide_True by lia.
  - rewrite decide_True by lia. apply IH.
    by apply Z.mod_pos_bound.
Qed.

Lemma generateIndexBuffer_Some (g : Geometry) :
  Z.of_nat (length (mVertexBuffer g)) < 2 ^ 32 →
  generateIndexBuffer g
  = Some (set_buffers g (mVertexBuffer g) (mColorBuffer g) (mNormalBuffer g)
            (Z.of_nat <$> seq 0 (length (mVertexBuffer g)))).
Proof.
  intros Hsize. unfold generateIndexBuffer.
  rewrite (indexLoop_counts (length (mVertexBuffer g)) _ 0 []) by (simpl; lia).
  by rewrite Nat.sub_0_r.
Qed.

Lemma generateColorBuffer_Some (g : Geometry) :
  length (mVertexBuffer g) = (3 * length (mTriangles g))%nat →
  generateColorBuffer g
  = Some (set_buffers g (mVertexBuffer g)
            (mTriangles g ≫= λ t, replicate 3 (ColorIndex_of_size_t (dtColor t)))
            (mNormalBuffer g) (mIndexBuffer g)).
Proof.
  intros Hlen. unfold generateColorBuffer. rewrite pushTriples_bind.
  rewrite option_guard_True; [done|].
  by rewrite length_bind_3.
Qed.

Lemma generateNormalBuffer_Some (g : Geometry) :
  length (mVertexBuffer g) = (3 * length (mTriangles g))%nat →
  generateNormalBuffer g
  = Some (set_buffers g (mVertexBuffer g) (mColorBuffer g)
            (mTriangles g ≫= λ t, replicate 3 (dtNormal t)) (mIndexBuffer g)).
Proof.
  intros Hlen. unfold generateNormalBuffer. rewrite pushTriples_bind.
  rewrite option_guard_True; [done|].
  by rewrite length_bind_3.
Qed.

(** X9: the constructor from a triangle soup succeeds when the soup has
    fewer than 2^32 vertices and the tree holds one primitive per triangle;
    the four buffers then have three entries per triangle, which are its
    three vertices, three times its color, three times its normal and the
    positions themselves, and the polyhedron is empty. *)
Theorem newGeometry_buffers (newTree : list DataTriangle → Tree)
    (treeSize : Tree → nat) (palette : ColorManager ColorA)
    (triangles : list DataTriangle) :
  Z.of_nat (3 * length triangles) < 2 ^ 32 →
  treeSize (newTree triangles) = length triangles →
  ∃ g, newGeometry newTree treeSize palette triangles = Some g ∧
    mTriangles g = triangles ∧
    coherent g ∧
    is_empty (pdP (mPolyhedronData g)) = true ∧
    length (mVertexBuffer g) = (3 * length triangles)%nat ∧
    length (mNormalBuffer g) = (3 * length triangles)%nat ∧
    length (mIndexBuffer g) = (3 * length triangles)%nat ∧
    ∀ i t k, triangles !! i = Some t → (k < 3)%nat →
      mVertexBuffer g !! (3 * i + k)%nat = Some (getVertex t k) ∧
      mColorBuffer g !! (3 * i + k)%nat = Some (ColorIndex_of_size_t (dtColor t)) ∧
      mNormalBuffer g !! (3 * i + k)%nat = Some (dtNormal t) ∧
      mIndexBuffer g !! (3 * i + k)%nat = Some (Z.of_nat (3 * i + k)).
Proof.
  intros Hsize Htree.
  set (vertices := λ t : DataTriangle, [getVertex t 0; getVertex t 1; getVertex t 2]).
  assert (length (triangles ≫= vertices) = (3 * length triangles)%nat) as Hv
    by by apply length_bind_3.
  unfold newGeometry, generateVertexBuffer.
  cbn [mTriangles mVertexBuffer mColorBuffer mNormalBuffer mIndexBuffer].
  rewrite pushTriples_bind. fold vertices.
  rewrite generateIndexBuffer_Some
    by (cbn [set_buffers mVertexBuffer]; by rewrite Hv).
  cbn [mbind option_bind set_buffers mTriangles mVertexBuffer mColorBuffer
       mNormalBuffer mIndexBuffer mTree mColorManager mPolyhedronData].
  rewrite generateColorBuffer_Some by done.
  cbn [mbind option_bind set_buffers mTriangles mVertexBuffer mColorBuffer
       mNormalBuffer mIndexBuffer mTree mColorManager mPolyhedronData].
  rewrite generateNormalBuffer_Some by done.
  cbn [mbind option_bind set_buffers mTriangles mVertexBuffer mColorBuffer
       mNormalBuffer mIndexBuffer mTree mColorManager mPolyhedronData].
  rewrite length_fmap, length_seq, Hv.
  rewrite (option_guard_True (_ = _)) by done.
  cbn [mbind option_bind].
  rewrite (option_guard_True (_ = _)) by done.
  cbn [mbind option_bind].
  eexists. split; [done|]. unfold coherent.
  cbn [set_buffers mTriangles mVertexBuffer mColorBuffer mNormalBuffer
       mIndexBuffer mPolyhedronData].
  split_and!; try done.
  - by apply length_bind_3.
  - by rewrite length_fmap, length_seq.
  - intros i t k Hi Hk.
    rewrite !(lookup_bind_3 _ _ i k t) by done.
    assert (3 * i + k < 3 * length triangles)%nat as Hlt.
    { apply lookup_lt_Some in Hi. lia. }
    split_and!.
    + by destruct k as [|[|[|k]]]; [..|lia].
    + by destruct k as [|[|[|k]]]; [..|lia].
    + by destruct k as [|[|[|k]]]; [..|lia].
    + rewrite list_lookup_fmap, lookup_seq_lt by done. done.
Qed.

(** X10: on a soup with 2^32 vertices or more the constructor never
    completes: the loop that fills the index buffer cannot end, whatever the
    number of its turns, since its 32-bit counter wraps round before it
    reaches the size. *)
Theorem newGeometry_wraps (newTree : list DataTriangle → Tree)
    (treeSize : Tree → nat) (palette : ColorManager ColorA)
    (triangles : list DataTriangle) :
  2 ^ 32 ≤ Z.of_nat (3 * length triangles) →
  (∀ fuel, indexLoop fuel 0 (3 * length triangles) [] = None) ∧
  newGeometry newTree treeSize palette triangles = None.
Proof.
  intros Hsize. split.
  - intros fuel. apply indexLoop_wraps; [done|lia].
  - unfold newGeometry, generateVertexBuffer, generateIndexBuffer.
    cbn [set_buffers mTriangles mVertexBuffer].
    rewrite pushTriples_bind, length_bind_3 by done.
    rewrite indexLoop_wraps; [done|done|lia].
Qed.

Lemma setTriangleColor_coherent (g g' : Geometry) (i c : nat) :
  coherent g → setTriangleColor i c g = Some g' → coherent g'.
Proof.
  unfold coherent, setTriangleColor. intros Hco H. simplify_option_eq.
  rewrite Hco. clear. revert i.
  induction (mTriangles g) as [|t ts IH]; intros i; [done|].
  destruct i as [|i].
  - done.
  - change (S i * 3)%nat with (S (S (S (i * 3)))).
    rewrite bind_cons. simpl. do 3 f_equal.
    change (S (S (S (i * 3 + 2)))) with (3 + (i * 3 + 2))%nat.
    apply IH.
Qed.

Lemma bucketLoop_coherent (fuel : nat) (f : StoppingCondition)
    (g g' : Geometry) (s s' : Search) :
  coherent g → bucketLoop fuel f g s = Some (g', s') → coherent g'.
Proof.
  revert g s. induction fuel as [|fuel IH]; intros g s Hco; simpl.
  - destruct (toVisit s); [|done]. by intros [= <- _].
  - destruct (toVisit s) as [|c rest]; [by intros [= <- _]|].
    destruct (bucketStep f g s c rest) as [[g1 s1]|] eqn:Hstep; [|done].
    simpl. apply IH. unfold bucketStep in Hstep. simplify_option_eq.
    by eapply setTriangleColor_coherent.
Qed.

(** X11: a flood keeps the color buffer aligned with the soup, whatever the
    criterion does: when it returns, the buffer still holds three times the
    color of every triangle. *)
Theorem bucket_coherent (g g' : Geometry) (start : nat) (f : StoppingCondition) :
  coherent g → bucket start f g = Some g' → coherent g'.
Proof.
  intros Hco. unfold bucket, bucketRun.
  destruct (is_empty (pdP (mPolyhedronData g))); [by intros [= <-]|].
  case_guard; [|done]. simpl.
  destruct (bucketLoop _ _ _ _) as [[g1 s1]|] eqn:Hloop; [|done].
  intros [= <-]. by eapply bucketLoop_coherent.
Qed.

(** X12: [setTriangleColor] fails exactly when the triangle has no three
    entries in the color buffer or is not in the soup; when it succeeds,
    [getTriangleColor] reads the new color at that triangle and the old one
    at every other, and the color buffer holds the new color, cut to 32
    bits, at the three entries of the triangle and is unchanged elsewhere. *)
Theorem setTriangleColor_getTriangleColor (g : Geometry) (i c : nat) :
  (setTriangleColor i c g = None ↔
     ¬ (i * 3 + 2 < length (mColorBuffer g) ∧ i < length (mTriangles g))%nat) ∧
  ∀ g', setTriangleColor i c g = Some g' →
    getTriangleColor i g' = Some c ∧
    (∀ j, j ≠ i → getTriangleColor j g' = getTriangleColor j g) ∧
    (∀ p, mColorBuffer g' !! p
          = if decide (i * 3 ≤ p < i * 3 + 3)%nat
            then Some (ColorIndex_of_size_t c) else mColorBuffer g !! p).
Proof.
  split.
  - unfold setTriangleColor. split.
    + intros H [H1 H2]. by rewrite !option_guard_True in H.
    + intros H. repeat case_guard; simpl; try done. lia.
  - intros g' H.
    destruct (setTriangleColor_frame _ _ _ _ H) as (_ & _ & _ & _ & Hget & Hother).
    split_and!; try done.
    intros p. unfold setTriangleColor in H. cbv zeta in H.
    repeat case_guard; simpl in H; try done.
    injection H as <-.
    cbn [mColorBuffer set_colors].
    destruct (decide (i * 3 ≤ p < i * 3 + 3)%nat) as [Hin|Hout].
    + assert (p = i * 3 ∨ p = i * 3 + 1 ∨ p = i * 3 + 2)%nat as [->|[->| ->]] by lia.
      * rewrite list_lookup_insert_ne, list_lookup_insert_ne by lia.
        apply list_lookup_insert_eq. lia.
      * rewrite list_lookup_insert_ne by lia.
        apply list_lookup_insert_eq. rewrite length_insert. lia.
      * apply list_lookup_insert_eq. rewrite !length_insert. lia.
    + by rewrite !list_lookup_insert_ne by lia.
Qed.

End buffers.

(** ** What [buildPolyhedron] establishes *)

Section polyhedron_properties.

Context {vec3 Tree ColorA : Type}.

Local Abbreviation Geometry := (Geometry vec3 Tree ColorA).

(** What the incremental builder delivers on a triangle mesh: every facet
    is a triangle, and the facet across a halfedge is a facet of the
    polyhedron. *)
Definition triangulated (P : Polyhedron) : bool :=
  forallb (λ f,
             bool_decide (length (facet_opposite f) = 3%nat)
             && forallb (λ o, match o with
                              | Some h' => bool_decide (h' < length (facets P))%nat
                              | None => true
                              end) (facet_opposite f))
          (facets P).

Definition number_facets_from (k : nat) (P : Polyhedron) (faceHandles : list nat)
    : Polyhedron :=
  foldl (λ P '(facetId, h), set_facet_id facetId h P) P
        (imap (λ i h, ((k + i)%nat, h)) faceHandles).

Lemma number_facets_from_spec (k : nat) (P : Polyhedron) (faceHandles : list nat) :
  NoDup faceHandles →
  length (facets (number_facets_from k P faceHandles)) = length (facets P) ∧
  size_of_vertices (number_facets_from k P faceHandles) = size_of_vertices P ∧
  (∀ h, facet_opposite <$> facets (number_facets_from k P faceHandles) !! h
        = facet_opposite <$> facets P !! h) ∧
  (∀ h, h ∉ faceHandles →
        facets (number_facets_from k P faceHandles) !! h = facets P !! h) ∧
  (∀ i h f, faceHandles !! i = Some h →
        facets (number_facets_from k P faceHandles) !! h = Some f →
        facet_id f = (k + i)%nat).
Proof.
  unfold number_facets_from. revert k P.
  induction faceHandles as [|h0 hs IH]; intros k P Hnd.
  - simpl. split_and!; try done.
  - apply NoDup_cons in Hnd as [Hh0 Hnd]. rewrite imap_cons.
    cbn [foldl].
    rewrite (imap_ext _ (λ i h, ((S k + i)%nat, h)))
      by (intros; simpl; f_equal; lia).
    destruct (IH (S k) (set_facet_id (k + 0) h0 P) Hnd)
      as (Hlen & Hsize & Hopp & Hout & Hin).
    split_and!.
    + rewrite Hlen. simpl. by rewrite length_alter.
    + by rewrite Hsize.
    + intros h. rewrite Hopp. simpl.
      destruct (decide (h = h0)) as [->|Hne].
      * rewrite list_lookup_alter_eq. by destruct (facets P !! h0).
      * by rewrite list_lookup_alter_ne.
    + intros h Hh. apply not_elem_of_cons in Hh as [Hne Hh].
      rewrite Hout by done. simpl. by rewrite list_lookup_alter_ne.
    + intros i h f Hi Hf. destruct i as [|i]; simpl in Hi.
      * injection Hi as ->. rewrite Hout in Hf by done. simpl in Hf.
        rewrite list_lookup_alter_eq in Hf.
        destruct (facets P !! h) as [f0|]; [|done].
        injection Hf as <-. simpl. lia.
      * rewrite (Hin i h f Hi Hf). lia.
Qed.

Lemma number_facets_spec (P : Polyhedron) (faceHandles : list nat) :
  NoDup faceHandles →
  length (facets (number_facets P faceHandles)) = length (facets P) ∧
  size_of_vertices (number_facets P faceHandles) = size_of_vertices P ∧
  (∀ h, facet_opposite <$> facets (number_facets P faceHandles) !! h
        = facet_opposite <$> facets P !! h) ∧
  (∀ i h f, faceHandles !! i = Some h →
        facets (number_facets P faceHandles) !! h = Some f → facet_id f = i).
Proof.
  intros Hnd.
  destruct (number_facets_from_spec 0 P faceHandles Hnd)
    as (Hlen & Hsize & Hopp & _ & Hin).
  done.
Qed.

Lemma is_closed_opposite (P : Polyhedron) :
  is_closed P
  = forallb (forallb (λ o, bool_decide (is_Some o))) (facet_opposite <$> facets P).
Proof.
  unfold is_closed. induction (facets P) as [|f fs IH]; [done|].
  simpl. by rewrite IH.
Qed.

Lemma number_facets_is_closed (P : Polyhedron) (faceHandles : list nat) :
  NoDup faceHandles → is_closed (number_facets P faceHandles) = is_closed P.
Proof.
  intros Hnd. rewrite !is_closed_opposite. f_equal.
  destruct (number_facets_spec P faceHandles Hnd) as (_ & _ & Hopp & _).
  apply list_eq. intros h. rewrite !list_lookup_fmap. apply Hopp.
Qed.

(** The mesh once the numbered polyhedron is stored. *)
Lemma numbered_well_formed (g : Geometry) (P : Polyhedron)
    (faceHandles : list nat) (closeCheck : bool) :
  size_of_facets P = length (mTriangles g) →
  faceHandles ≡ₚ seq 0 (size_of_facets P) →
  triangulated P = true →
  length (pdIndices (mPolyhedronData g)) = length (mTriangles g) →
  length (mColorBuffer g) = (3 * length (mTriangles g))%nat →
  Z.of_nat (length (mTriangles g)) < 2 ^ 31 →
  (∀ i h, faceHandles !! i = Some h →
     facet_id <$> facets (number_facets P faceHandles) !! h = Some i) ∧
  is_empty (number_facets P faceHandles) = is_empty P ∧
  well_formed (set_polyhedron g (set_P (mPolyhedronData g)
                 (number_facets P faceHandles) faceHandles closeCheck)) = true.
Proof.
  intros Hfacets Hperm Htri Hidx Hbuf Hint.
  assert (NoDup faceHandles) as Hnd.
  { rewrite Hperm. apply NoDup_seq. }
  assert (length faceHandles = length (mTriangles g)) as Hlen.
  { rewrite Hperm, length_seq. congruence. }
  assert (∀ h, h ∈ faceHandles ↔ (h < length (facets P))%nat) as Hmem.
  { intros h. rewrite Hperm, elem_of_seq. unfold size_of_facets. lia. }
  destruct (number_facets_spec P faceHandles Hnd) as (HlenP & Hsize & Hopp & Hid).
  assert (∀ i h, faceHandles !! i = Some h →
            ∃ f f0, facets (number_facets P faceHandles) !! h = Some f ∧
                    facets P !! h = Some f0 ∧ facet_id f = i ∧
                    facet_opposite f = facet_opposite f0) as Hfacet.
  { intros i h Hi.
    assert (h < length (facets P))%nat as Hh.
    { apply Hmem, list_elem_of_lookup. eauto. }
    destruct (lookup_lt_is_Some_2 (facets P) h Hh) as [f0 Hf0].
    destruct (lookup_lt_is_Some_2 (facets (number_facets P faceHandles)) h)
      as [f Hf]; [lia|].
    exists f, f0. split_and!; try done.
    - by eapply Hid.
    - specialize (Hopp h). rewrite Hf, Hf0 in Hopp. by injection Hopp. }
  split_and!.
  - intros i h Hi. destruct (Hfacet i h Hi) as (f & f0 & -> & _ & <- & _). done.
  - unfold is_empty. apply bool_decide_ext.
    assert (facet_opposite <$> facets (number_facets P faceHandles)
            = facet_opposite <$> facets P) as ->; [|done].
    apply list_eq. intros h. rewrite !list_lookup_fmap. apply Hopp.
  - unfold well_formed. simpl.
    rewrite !andb_true_iff, !bool_decide_eq_true. split_and!; try done.
    apply forallb_forall. intros h Hh%list_elem_of_In.
    apply list_elem_of_lookup in Hh as [i Hi].
    destruct (Hfacet i h Hi) as (f & f0 & Hf & Hf0 & _ & Hfopp).
    unfold facet_ok. simpl. rewrite Hf.
    unfold triangulated in Htri. rewrite forallb_forall in Htri.
    specialize (Htri f0). rewrite andb_true_iff, bool_decide_eq_true in Htri.
    destruct Htri as [H3 Hin].
    { apply list_elem_of_In, list_elem_of_lookup. eauto. }
    rewrite Hfopp. apply andb_true_iff. split; [by apply bool_decide_eq_true|].
    apply forallb_forall. intros o Ho. rewrite forallb_forall in Hin.
    specialize (Hin o Ho). destruct o as [h'|]; [|done]. simpl.
    apply bool_decide_eq_true in Hin.
    assert (h' ∈ faceHandles) as [j Hj]%list_elem_of_lookup by by apply Hmem.
    destruct (Hfacet j h' Hj) as (f' & _ & -> & _ & -> & _).
    apply bool_decide_eq_true. apply lookup_lt_Some in Hj. lia.
Qed.

(** X13: when the builder delivers a triangulated polyhedron with one
    handle per facet, as many facets as index triples and as many vertices
    as the mesh, [buildPolyhedron] succeeds, numbers the facet of handle [i]
    with [i], keeps the soup and the buffers, and leaves the mesh
    well formed, which is what a flood asks for; [polyClosedCheck] then
    tells whether the polyhedron is closed and [polyVertCount] is the
    number of its vertices. *)
Theorem buildPolyhedron_well_formed
    (delegate : list (nat * nat * nat) → list vec3 → option (Polyhedron * list nat))
    (g : Geometry) (P : Polyhedron) (faceHandles : list nat) :
  delegate (pdIndices (mPolyhedronData g)) (pdVertices (mPolyhedronData g))
  = Some (P, faceHandles) →
  size_of_facets P = length (pdIndices (mPolyhedronData g)) →
  size_of_vertices P = length (pdVertices (mPolyhedronData g)) →
  faceHandles ≡ₚ seq 0 (size_of_facets P) →
  triangulated P = true →
  length (pdIndices (mPolyhedronData g)) = length (mTriangles g) →
  length (mColorBuffer g) = (3 * length (mTriangles g))%nat →
  Z.of_nat (length (mTriangles g)) < 2 ^ 31 →
  ∃ g', buildPolyhedron delegate g = Some g' ∧
    mTriangles g' = mTriangles g ∧
    mColorBuffer g' = mColorBuffer g ∧
    pdFaceHandles (mPolyhedronData g') = faceHandles ∧
    (∀ i h, faceHandles !! i = Some h →
       facet_id <$> facets (pdP (mPolyhedronData g')) !! h = Some i) ∧
    is_empty (pdP (mPolyhedronData g')) = is_empty P ∧
    polyClosedCheck g' = is_closed P ∧
    polyVertCount g' = size_of_vertices P ∧
    well_formed g' = true.
Proof.
  intros Hdel Hfacets Hverts Hperm Htri Hidx Hbuf Hint.
  destruct (numbered_well_formed g P faceHandles
              (is_closed (number_facets P faceHandles)))
    as (Hid & Hempty & Hwf); try done; [congruence|].
  unfold buildPolyhedron. rewrite Hdel.
  rewrite !option_guard_True by done. simpl.
  eexists. split; [done|]. unfold polyClosedCheck, polyVertCount. simpl.
  split_and!; try done.
  apply number_facets_is_closed. rewrite Hperm. apply NoDup_seq.
Qed.

End polyhedron_properties.

(** ** [loadNewGeometry] *)

Section load.

Context {vec3 Tree ColorA : Type}.

Local Abbreviation DataTriangle := (DataTriangle vec3).
Local Abbreviation Geometry := (Geometry vec3 Tree ColorA).

(** What [loadNewGeometry] reads of the [ModelImporter] of a file. *)
Record ModelImporter := {
  isModelLoaded : bool;
  getTriangles : list DataTriangle;
  getVertexBuffer : list vec3;
  getIndexBuffer : list (nat * nat * nat);
  getColorManager : ColorManager ColorA
}.

Definition set_model (g : Geometry) (modelImporter : ModelImporter) : Geometry :=
  {| mTriangles := getTriangles modelImporter;
     mVertexBuffer := mVertexBuffer g;
     mColorBuffer := mColorBuffer g;
     mNormalBuffer := mNormalBuffer g;
     mIndexBuffer := mIndexBuffer g;
     mTree := mTree g;
     mColorManager := mColorManager g;
     mPolyhedronData :=
       {| pdVertices := getVertexBuffer modelImporter;
          pdIndices := getIndexBuffer modelImporter;
          pdP := pdP (mPolyhedronData g);
          pdFaceHandles := pdFaceHandles (mPolyhedronData g);
          pdCloseCheck := pdCloseCheck (mPolyhedronData g) |} |}.

Definition set_tree (g : Geometry) (tree : Tree) : Geometry :=
  {| mTriangles := mTriangles g;
     mVertexBuffer := mVertexBuffer g;
     mColorBuffer := mColorBuffer g;
     mNormalBuffer := mNormalBuffer g;
     mIndexBuffer := mIndexBuffer g;
     mTree := tree;
     mColorManager := mColorManager g;
     mPolyhedronData := mPolyhedronData g |}.

Definition set_manager (g : Geometry) (manager : ColorManager ColorA) : Geometry :=
  {| mTriangles := mTriangles g;
     mVertexBuffer := mVertexBuffer g;
     mColorBuffer := mColorBuffer g;
     mNormalBuffer := mNormalBuffer g;
     mIndexBuffer := mIndexBuffer g;
     mTree := mTree g;
     mColorManager := manager;
     mPolyhedronData := mPolyhedronData g |}.

(** [loadNewGeometry]: [rebuild] is [mTree->rebuild] on the new soup,
    [treeSize] the [size()] of a tree, [delegate] the run of the polyhedron
    builder.  A model that did not load is logged and changes nothing.
    [ColorManager::empty] tells whether the palette is empty. *)
Definition loadNewGeometry (rebuild : list DataTriangle → Tree)
    (treeSize : Tree → nat)
    (delegate : list (nat * nat * nat) → list vec3 → option (Polyhedron * list nat))
    (modelImporter : ModelImporter) (g : Geometry) : option Geometry :=
  if isModelLoaded modelImporter then
    let g := set_model g modelImporter in
    let g := generateVertexBuffer g in
    g ← generateIndexBuffer g;
    g ← generateColorBuffer g;
    g ← generateNormalBuffer g;
    let g := set_tree g (rebuild (mTriangles g)) in
    guard (treeSize (mTree g) = length (mTriangles g));;
    g ← buildPolyhedron delegate g;
    let g := set_manager g (getColorManager modelImporter) in
    guard (cmColorMap (mColorManager g) ≠ []);;
    Some g
  else Some g.

(** X14: loading a model of fewer than 2^32 vertices whose polyhedron the
    builder delivers triangulated, with one facet per index triple and per
    triangle, succeeds whatever the geometry held before; the geometry then
    has the soup and the palette of the model, a color buffer aligned with
    the soup, and is well formed, so that a flood can run on it. *)
Theorem loadNewGeometry_well_formed (rebuild : list DataTriangle → Tree)
    (treeSize : Tree → nat)
    (delegate : list (nat * nat * nat) → list vec3 → option (Polyhedron * list nat))
    (modelImporter : ModelImporter) (g : Geometry)
    (P : Polyhedron) (faceHandles : list nat) :
  isModelLoaded modelImporter = true →
  Z.of_nat (3 * length (getTriangles modelImporter)) < 2 ^ 32 →
  treeSize (rebuild (getTriangles modelImporter))
  = length (getTriangles modelImporter) →
  length (getIndexBuffer modelImporter) = length (getTriangles modelImporter) →
  delegate (getIndexBuffer modelImporter) (getVertexBuffer modelImporter)
  = Some (P, faceHandles) →
  size_of_facets P = length (getIndexBuffer modelImporter) →
  size_of_vertices P = length (getVertexBuffer modelImporter) →
  faceHandles ≡ₚ seq 0 (size_of_facets P) →
  triangulated P = true →
  cmColorMap (getColorManager modelImporter) ≠ [] →
  ∃ g', loadNewGeometry rebuild treeSize delegate modelImporter g = Some g' ∧
    mTriangles g' = getTriangles modelImporter ∧
    mColorManager g' = getColorManager modelImporter ∧
    coherent g' ∧
    is_empty (pdP (mPolyhedronData g')) = is_empty P ∧
    well_formed g' = true.
Proof.
  intros Hloaded Hsize Htree Hidx Hdel Hfacets Hverts Hperm Htri Hpalette.
  set (vertices := λ t : DataTriangle, [getVertex t 0; getVertex t 1; getVertex t 2]).
  assert (length (getTriangles modelImporter ≫= vertices)
          = (3 * length (getTriangles modelImporter))%nat) as Hv
    by by apply length_bind_3.
  unfold loadNewGeometry. rewrite Hloaded. unfold generateVertexBuffer.
  cbn [set_model mTriangles mVertexBuffer mColorBuffer mNormalBuffer mIndexBuffer].
  rewrite pushTriples_bind. fold vertices.
  rewrite generateIndexBuffer_Some
    by (cbn [set_buffers mVertexBuffer]; by rewrite Hv).
  cbn [mbind option_bind set_buffers mTriangles mVertexBuffer mColorBuffer
       mNormalBuffer mIndexBuffer mTree mColorManager mPolyhedronData].
  rewrite generateColorBuffer_Some by done.
  cbn [mbind option_bind set_buffers mTriangles mVertexBuffer mColorBuffer
       mNormalBuffer mIndexBuffer mTree mColorManager mPolyhedronData].
  rewrite generateNormalBuffer_Some by done.
  cbn [mbind option_bind set_buffers set_tree mTriangles mVertexBuffer
       mColorBuffer mNormalBuffer mIndexBuffer mTree mColorManager
       mPolyhedronData].
  rewrite (option_guard_True (_ = _)) by done.
  cbn [mbind option_bind].
  match goal with |- context [buildPolyhedron delegate ?g0] =>
    set (g1 := g0) end.
  destruct (numbered_well_formed g1 P faceHandles
              (is_closed (number_facets P faceHandles)))
    as (Hid & Hempty & Hwf); try done.
  { unfold g1. simpl. congruence. }
  { unfold g1. simpl. apply length_bind_3. done. }
  { unfold g1. simpl. lia. }
  unfold buildPolyhedron.
  change (pdIndices (mPolyhedronData g1)) with (getIndexBuffer modelImporter).
  change (pdVertices (mPolyhedronData g1)) with (getVertexBuffer modelImporter).
  rewrite Hdel. rewrite !option_guard_True by done.
  cbn [mbind option_bind set_manager mColorManager].
  rewrite option_guard_True by done.
  eexists. split; [done|]. by split_and!.
Qed.

End load.

(** *** A mesh of three faces *)

(** Three faces of a tetrahedron, pairwise adjacent, the fourth face
    missing.  The normal of a face is reduced to one angle, and the
    predicate accepts a neighbour whose angle differs by at most one from
    that of the current face, the way [NormalStopping] compares neighbours.
    The colors are 0 and the active color is 1. *)
Definition triangle3 (normal : Z) (color : nat) : DataTriangle Z :=
  {| dtTri := (0, 0, 0); dtNormal := normal; dtColor := color |}.

Definition polyhedron3 : Polyhedron :=
  {| facets := [ {| facet_id := 0; facet_opposite := [Some 1; Some 2; None] |};
                 {| facet_id := 1; facet_opposite := [Some 0; Some 2; None] |};
                 {| facet_id := 2; facet_opposite := [Some 0; Some 1; None] |} ]%nat;
     size_of_vertices := 4 |}.

Definition mesh3With (colors : list nat) (P : Polyhedron) (faceHandles : list nat)
    : Geometry Z unit unit :=
  {| mTriangles := zip_with triangle3 [0; 1; 2] colors;
     mVertexBuffer := replicate 9 0;
     mColorBuffer := flat_map (λ c, replicate 3 (Z.of_nat c)) colors;
     mNormalBuffer := [0; 0; 0; 1; 1; 1; 2; 2; 2];
     mIndexBuffer := [0; 1; 2; 3; 4; 5; 6; 7; 8];
     mTree := tt;
     mColorManager := {| cmColorMap := [tt; tt]; cmActiveColorIndex := 1 |};
     mPolyhedronData :=
       {| pdVertices := [0; 0; 0; 0];
          pdIndices := [(0, 1, 2); (0, 1, 3); (0, 2, 3)]%nat;
          pdP := P; pdFaceHandles := faceHandles; pdCloseCheck := false |} |}.

Definition mesh3 : Geometry Z unit unit :=
  mesh3With [0; 0; 0]%nat polyhedron3 [0; 1; 2]%nat.

(** The same mesh when the polyhedron failed to build. *)
Definition mesh3Unbuilt : Geometry Z unit unit :=
  mesh3With [0; 0; 0]%nat clear [].

Definition normalOf (g : Geometry Z unit unit) (i : nat) : Z :=
  default 0 (dtNormal <$> mTriangles g !! i).

Definition neighbourNormals : StoppingCondition Z unit unit :=
  λ g a b, Z.abs (normalOf g a - normalOf g b) <=? 1.

Definition rejectAll : StoppingCondition Z unit unit := λ _ _ _, false.

Definition trace3 : list Event :=
  [ EvPredicate 1 0 true; EvQueued 1; EvPredicate 2 0 false; EvPainted 0;
    EvPredicate 2 1 true; EvQueued 2; EvPainted 1; EvPainted 2 ]%nat.

Example bucket_mesh3 :
  bucketRun 0 neighbourNormals mesh3
  = Some (mesh3With [1; 1; 1]%nat polyhedron3 [0; 1; 2]%nat, trace3).
Proof. vm_compute. reflexivity. Qed.

Example bucket_mesh3_rejectAll :
  bucketRun 0 rejectAll mesh3
  = Some (mesh3With [1; 0; 0]%nat polyhedron3 [0; 1; 2]%nat,
          [EvPredicate 1 0 false; EvPredicate 2 0 false; EvPainted 0]%nat).
Proof. vm_compute. reflexivity. Qed.

(** C10 at the unbuilt mesh. *)
Lemma bucket_empty_polyhedron_witness :
  bucketRun 0 rejectAll mesh3Unbuilt = Some (mesh3Unbuilt, []) ∧
  bucket 0 rejectAll mesh3Unbuilt = Some mesh3Unbuilt.
Proof. apply (bucket_empty_polyhedron mesh3Unbuilt 0 rejectAll). reflexivity. Defined.

(** The mesh whose polyhedron the delegate could not build. *)
Lemma bucket_after_failed_build_witness :
  mTriangles (mesh3With [0; 0; 0]%nat clear [0; 1; 2]%nat) = mTriangles mesh3 ∧
  bucket 0 rejectAll (mesh3With [0; 0; 0]%nat clear [0; 1; 2]%nat)
  = Some (mesh3With [0; 0; 0]%nat clear [0; 1; 2]%nat).
Proof.
  apply (bucket_after_failed_build mesh3 _ 0 rejectAll (λ _ _, None));
    reflexivity.
Defined.

(** C9 as stated fails: the mesh is not empty and the start triangle is in
    range, but the polyhedron failed to build, and the flood returns before
    painting the seed. *)
Lemma bucket_seed_unpainted_counterexample :
  ¬ (mTriangles mesh3Unbuilt ≠ [] →
     (0 < length (mTriangles mesh3Unbuilt))%nat →
     ∃ g', bucket 0 rejectAll mesh3Unbuilt = Some g' ∧
           getTriangleColor 0 g' = Some (activeColor mesh3Unbuilt)).
Proof.
  intros H. destruct H as (g' & Hrun & Hcol); [done|simpl; lia|].
  unfold bucket in Hrun.
  rewrite (bucketRun_empty mesh3Unbuilt 0 rejectAll eq_refl) in Hrun.
  injection Hrun as <-. vm_compute in Hcol. discriminate Hcol.
Qed.

Lemma bucket_paints_seed_witness :
  ∃ g' t, bucketRun 0 rejectAll mesh3 = Some (g', t) ∧
    bucket 0 rejectAll mesh3 = Some g' ∧
    getTriangleColor 0 g' = Some (activeColor mesh3) ∧
    ∀ i c b, t !! i ≠ Some (EvPredicate 0%nat c b).
Proof.
  apply (bucket_paints_seed mesh3 0 rejectAll).
  - vm_compute. reflexivity.
  - vm_compute. reflexivity.
  - simpl. lia.
Defined.

(** C4 as stated fails: face 2 is rejected from face 0, asked about again
    from face 1, queued and painted, all in one flood. *)
Lemma rejected_neighbour_reconsidered_counterexample :
  ¬ (∀ g' t, bucketRun 0 neighbourNormals mesh3 = Some (g', t) →
             permanently_skipped t).
Proof.
  intros H. specialize (H _ _ bucket_mesh3).
  destruct (H 2 2 0 eq_refl 5 (EvQueued 2))%nat as [Hq _]; [lia|done|].
  by apply Hq.
Qed.

Example adjacent_mesh3 : adjacent mesh3 1 2.
Proof. exists [0; 2; -1], 2. split_and!; [done| |done|done]. set_solver. Qed.

(** A trace that would skip face 2 for good after its rejection from face 0
    is not one of a flood over [mesh3]: face 1 has face 2 as a neighbour and
    is painted without the predicate having been asked about it. *)
Example turns_rejects_skipping :
  ¬ turns mesh3 0
      [ EvPredicate 1 0 true; EvQueued 1; EvPredicate 2 0 false;
        EvPainted 0; EvPainted 1 ]%nat.
Proof.
  intros [Hasked _].
  destruct (Hasked 4 1 2 eq_refl adjacent_mesh3)%nat
    as [|(k & Hk & Hev)]; [done|].
  do 4 (destruct k as [|k]; [by destruct Hev as [|[[? ?] Hfree]];
                                [|try done; by eapply (Hfree 3%nat); [lia|]]|]).
  lia.
Qed.

Lemma rejected_neighbour_asked_again_witness :
  (∀ (g1 : Geometry Z unit unit) (s : Search) (nb : Z),
     nb ≠ -1 → size_t_of_int nb = 2%nat → 2%nat ∉ alreadyVisited s →
     neighbourNormals g1 2%nat 0%nat = false →
     visitNeighbour g1 neighbourNormals 0 s nb
     = {| alreadyVisited := alreadyVisited s; toVisit := toVisit s;
          trace := trace s ++ [EvPredicate 2 0 false] |}) ∧
  (∀ x, trace3 !! 3%nat ≠ Some (EvQueued x)) ∧
  (∀ j c', (2 < j)%nat → trace3 !! j = Some (EvPainted c') → c' ≠ 0%nat →
     adjacent mesh3 c' 2 →
     ∃ k, (2 < k < j)%nat ∧
       ((∃ b, trace3 !! k = Some (EvPredicate 2 c' b)) ∨
        (∃ c'', trace3 !! k = Some (EvPredicate 2 c'' true)))) ∧
  (∀ j, trace3 !! j = Some (EvQueued 2) →
     (2 < pred j)%nat ∧ ∃ c', trace3 !! pred j = Some (EvPredicate 2 c' true)) ∧
  (∀ j, trace3 !! j = Some (EvPainted 2) →
     ∃ k, (2 < k < j)%nat ∧ trace3 !! k = Some (EvQueued 2)).
Proof.
  apply (rejected_neighbour_asked_again mesh3
           (mesh3With [1; 1; 1]%nat polyhedron3 [0; 1; 2]%nat)
           0 neighbourNormals trace3 2 2 0).
  - vm_compute. reflexivity.
  - reflexivity.
Defined.

(** [neighbourNormals] reads normals only, which no flood changes. *)
Lemma neighbourNormals_static :
  static neighbourNormals (neighbourNormals mesh3) mesh3.
Proof.
  intros g1 painted n c Hsoup _ _. unfold neighbourNormals, normalOf.
  change (dtNormal <$> mTriangles g1 !! n) with (getNormal n g1).
  change (dtNormal <$> mTriangles g1 !! c) with (getNormal c g1).
  by rewrite !(paintedSoup_normal mesh3 g1 painted).
Qed.

Lemma bucket_paints_reached_witness :
  ∃ g', bucket 0 neighbourNormals mesh3 = Some g' ∧
    length (mTriangles g') = length (mTriangles mesh3) ∧
    ∀ x t, mTriangles mesh3 !! x = Some t →
      ∃ t', mTriangles g' !! x = Some t' ∧
        dtTri t' = dtTri t ∧ dtNormal t' = dtNormal t ∧
        (reached mesh3 (neighbourNormals mesh3) 0 x →
           dtColor t' = activeColor mesh3) ∧
        (¬ reached mesh3 (neighbourNormals mesh3) 0 x → dtColor t' = dtColor t).
Proof.
  apply (bucket_paints_reached mesh3 0 neighbourNormals (neighbourNormals mesh3)).
  - vm_compute. reflexivity.
  - reflexivity.
  - simpl. lia.
  - apply neighbourNormals_static.
Defined.

(** Faces 0 and 1 of color 0 and face 2 of color 5. *)
Definition mesh3TwoColors : Geometry Z unit unit :=
  mesh3With [0; 0; 5]%nat polyhedron3 [0; 1; 2]%nat.

Example bucket_mesh3TwoColors :
  bucket 0 ColorStopping mesh3TwoColors
  = Some (mesh3With [1; 1; 5]%nat polyhedron3 [0; 1; 2]%nat).
Proof. vm_compute. reflexivity. Qed.

Lemma bucket_DoNotStop_witness :
  ∃ g', bucket 0 DoNotStop mesh3TwoColors = Some g' ∧
    ∀ x, (x < length (mTriangles mesh3TwoColors))%nat →
      (reached mesh3TwoColors (λ _ _, true) 0 x →
         getTriangleColor x g' = Some (activeColor mesh3TwoColors)) ∧
      (¬ reached mesh3TwoColors (λ _ _, true) 0 x →
         getTriangleColor x g' = getTriangleColor x mesh3TwoColors).
Proof.
  apply (bucket_DoNotStop mesh3TwoColors 0).
  - vm_compute. reflexivity.
  - reflexivity.
  - simpl. lia.
Defined.

Lemma bucket_ColorStopping_witness :
  ∃ g', bucket 0 ColorStopping mesh3TwoColors = Some g' ∧
    ∀ x, (x < length (mTriangles mesh3TwoColors))%nat →
      (getTriangleColor x mesh3TwoColors ≠ getTriangleColor 0 mesh3TwoColors →
         getTriangleColor x g' = getTriangleColor x mesh3TwoColors) ∧
      (reached mesh3TwoColors (ColorStopping mesh3TwoColors) 0 x →
         getTriangleColor x g' = Some (activeColor mesh3TwoColors)) ∧
      (¬ reached mesh3TwoColors (ColorStopping mesh3TwoColors) 0 x →
         getTriangleColor x g' = getTriangleColor x mesh3TwoColors).
Proof.
  apply (bucket_ColorStopping mesh3TwoColors 0).
  - vm_compute. reflexivity.
  - reflexivity.
  - simpl. lia.
Defined.

(** The cosine of two of the angles that stand for the normals of [mesh3]:
    the angles are quarter turns. *)
Definition cosine3 (a b : Z) : float :=
  match Z.abs (a - b) mod 4 with
  | 0 => 1
  | 2 => -1
  | _ => 0
  end%float.

Lemma bucket_NormalStopping_absolute_witness :
  ∃ g', bucket 0 (NormalStopping cosine3 0.5 0 ABSOLUTE) mesh3 = Some g' ∧
    ∀ x n, x ≠ 0%nat → getNormal x mesh3 = Some n →
      (cosine3 n 0 <? 0.5)%float = true →
      getTriangleColor x g' = getTriangleColor x mesh3.
Proof.
  apply (bucket_NormalStopping_absolute cosine3 0.5 0 mesh3 0).
  - vm_compute. reflexivity.
  - reflexivity.
  - simpl. lia.
Defined.

(** The constructor at the soup of [mesh3]; the tree is stood for by the
    number of its primitives. *)
Lemma newGeometry_buffers_witness :
  ∃ g : Geometry Z nat unit,
    newGeometry length id (mColorManager mesh3) (mTriangles mesh3) = Some g ∧
    mTriangles g = mTriangles mesh3 ∧
    coherent g ∧
    is_empty (pdP (mPolyhedronData g)) = true ∧
    length (mVertexBuffer g) = (3 * length (mTriangles mesh3))%nat ∧
    length (mNormalBuffer g) = (3 * length (mTriangles mesh3))%nat ∧
    length (mIndexBuffer g) = (3 * length (mTriangles mesh3))%nat ∧
    ∀ i t k, mTriangles mesh3 !! i = Some t → (k < 3)%nat →
      mVertexBuffer g !! (3 * i + k)%nat = Some (getVertex t k) ∧
      mColorBuffer g !! (3 * i + k)%nat = Some (ColorIndex_of_size_t (dtColor t)) ∧
      mNormalBuffer g !! (3 * i + k)%nat = Some (dtNormal t) ∧
      mIndexBuffer g !! (3 * i + k)%nat = Some (Z.of_nat (3 * i + k)).
Proof.
  apply (newGeometry_buffers length id (mColorManager mesh3) (mTriangles mesh3)).
  - simpl. lia.
  - reflexivity.
Defined.

(** A soup of 2^31 triangles. *)
Lemma newGeometry_wraps_witness :
  (∀ fuel,
     indexLoop fuel 0
       (3 * length (replicate (Z.to_nat (2 ^ 31)) (triangle3 0 0))) [] = None) ∧
  newGeometry (Tree := nat) length id (mColorManager mesh3)
    (replicate (Z.to_nat (2 ^ 31)) (triangle3 0 0)) = None.
Proof.
  apply (newGeometry_wraps length id (mColorManager mesh3)
           (replicate (Z.to_nat (2 ^ 31)) (triangle3 0 0))).
  rewrite length_replicate. lia.
Defined.

Lemma bucket_coherent_witness :
  coherent (mesh3With [1; 1; 1]%nat polyhedron3 [0; 1; 2]%nat).
Proof.
  apply (bucket_coherent mesh3 _ 0 neighbourNormals).
  - reflexivity.
  - vm_compute. reflexivity.
Defined.

(** The builder's polyhedron before its facets are numbered, with the
    handles of the first two facets in the other order. *)
Definition polyhedron3Raw : Polyhedron :=
  {| facets := [ {| facet_id := 7; facet_opposite := [Some 1; Some 2; None] |};
                 {| facet_id := 7; facet_opposite := [Some 0; Some 2; None] |};
                 {| facet_id := 7; facet_opposite := [Some 0; Some 1; None] |} ]%nat;
     size_of_vertices := 4 |}.

Definition builder3 : list (nat * nat * nat) → list Z → option (Polyhedron * list nat) :=
  λ _ _, Some (polyhedron3Raw, [1; 0; 2]%nat).

Lemma buildPolyhedron_well_formed_witness :
  ∃ g', buildPolyhedron builder3 mesh3Unbuilt = Some g' ∧
    mTriangles g' = mTriangles mesh3Unbuilt ∧
    mColorBuffer g' = mColorBuffer mesh3Unbuilt ∧
    pdFaceHandles (mPolyhedronData g') = [1; 0; 2]%nat ∧
    (∀ i h, [1; 0; 2]%nat !! i = Some h →
       facet_id <$> facets (pdP (mPolyhedronData g')) !! h = Some i) ∧
    is_empty (pdP (mPolyhedronData g')) = is_empty polyhedron3Raw ∧
    polyClosedCheck g' = is_closed polyhedron3Raw ∧
    polyVertCount g' = size_of_vertices polyhedron3Raw ∧
    well_formed g' = true.
Proof.
  apply (buildPolyhedron_well_formed builder3 mesh3Unbuilt polyhedron3Raw
           [1; 0; 2]%nat).
  - reflexivity.
  - reflexivity.
  - reflexivity.
  - apply perm_swap.
  - reflexivity.
  - reflexivity.
  - reflexivity.
  - simpl. lia.
Defined.

(** The importer of the file of [mesh3]. *)
Definition importer3 : ModelImporter (vec3 := Z) (ColorA := unit) :=
  {| isModelLoaded := true;
     getTriangles := mTriangles mesh3;
     getVertexBuffer := [0; 0; 0; 0];
     getIndexBuffer := [(0, 1, 2); (0, 1, 3); (0, 2, 3)]%nat;
     getColorManager := mColorManager mesh3 |}.

Lemma loadNewGeometry_well_formed_witness :
  ∃ g', loadNewGeometry (λ _, tt) (λ _, 3%nat) builder3 importer3 mesh3Unbuilt
        = Some g' ∧
    mTriangles g' = getTriangles importer3 ∧
    mColorManager g' = getColorManager importer3 ∧
    coherent g' ∧
    is_empty (pdP (mPolyhedronData g')) = is_empty polyhedron3Raw ∧
    well_formed g' = true.
Proof.
  apply (loadNewGeometry_well_formed (λ _, tt) (λ _, 3%nat) builder3 importer3
           mesh3Unbuilt polyhedron3Raw [1; 0; 2]%nat).
  - reflexivity.
  - simpl. lia.
  - reflexivity.
  - reflexivity.
  - reflexivity.
  - reflexivity.
  - reflexivity.
  - apply perm_swap.
  - reflexivity.
  - discriminate.
Defined.

Lemma bucket_paints_once_witness :
  NoDup (paintedOf trace3) ∧ (asked trace3 ≤ 3 * length (paintedOf trace3))%nat.
Proof.
  apply (bucket_paints_once neighbourNormals 0 mesh3
           (mesh3With [1; 1; 1]%nat polyhedron3 [0; 1; 2]%nat) trace3).
  vm_compute. reflexivity.
Defined.

End Geo.

(** ** The exact planar kernel *)

(** The exact number type of CGAL's kernel is the rationals; the predicates
    below compare them by value ([Qeq]). *)

Module Kernel.

Local Open Scope Q_scope.

Definition Point2 : Type := Q * Q.
Definition Vector2 : Type := Q * Q.
Definition Line2 : Type := Q * Q * Q.

Definition x (p : Point2) : Q := fst p.
Definition y (p : Point2) : Q := snd p.

Definition sign (q : Q) : comparison := q ?= 0.
Definition sign_of_determinant (a00 a01 a10 a11 : Q) : comparison :=
  sign (a00 * a11 - a10 * a01).

Definition comparison_eqb (c d : comparison) : bool :=
  match c, d with Eq, Eq | Lt, Lt | Gt, Gt => true | _, _ => false end.

Definition line_from_points (p q : Point2) : Line2 :=
  let a := y p - y q in
  let b := x q - x p in
  (a, b, - x p * a - y p * b).

Definition Line2_equal (l1 l2 : Line2) : bool :=
  let '(a1, b1, c1) := l1 in
  let '(a2, b2, c2) := l2 in
  if negb (comparison_eqb (sign_of_determinant a1 b1 a2 b2) Eq) then false
  else if negb (comparison_eqb (sign a1) Eq) then
    comparison_eqb (sign a1) (sign a2)
    && comparison_eqb (sign_of_determinant a1 c1 a2 c2) Eq
  else
    comparison_eqb (sign b1) (sign b2)
    && comparison_eqb (sign_of_determinant b1 c1 b2 c2) Eq.

Definition cross (u v : Vector2) : Q := fst u * snd v - snd u * fst v.
Definition dot (u v : Vector2) : Q := fst u * fst v + snd u * snd v.
Definition vec (p q : Point2) : Vector2 := (x q - x p, y q - y p).

(** same direction *)
Definition sd (u v : Vector2) : Prop := cross u v == 0 /\ 0 < dot u v.

Lemma sign_Eq (q : Q) : comparison_eqb (sign q) Eq = true <-> q == 0.
Proof.
  unfold sign. destruct (Qcompare_spec q 0); simpl; split; intros; try done; lra.
Qed.

Lemma sign_same (q r : Q) :
  comparison_eqb (sign q) (sign r) = true <->
  (q == 0 /\ r == 0) \/ (0 < q /\ 0 < r) \/ (q < 0 /\ r < 0).
Proof.
  unfold sign. destruct (Qcompare_spec q 0), (Qcompare_spec r 0); simpl;
    split; intros; try done; try lra.
Qed.

Lemma sign_Eq_true (q : Q) : q == 0 -> comparison_eqb (sign q) Eq = true.
Proof. apply sign_Eq. Qed.

Lemma sign_Eq_false (q : Q) : ~ q == 0 -> comparison_eqb (sign q) Eq = false.
Proof. intros H. destruct (comparison_eqb (sign q) Eq) eqn:E; [|done]. by apply sign_Eq in E. Qed.

Lemma same_sign_mult (a b : Q) :
  (a == 0 /\ b == 0) \/ (0 < a /\ 0 < b) \/ (a < 0 /\ b < 0) ->
  ~ a == 0 -> 0 < a * b.
Proof. intros [[]|[[]|[]]] ?; [lra|nra|nra]. Qed.

Lemma mult_same_sign (a b : Q) :
  0 < a * b -> (a == 0 /\ b == 0) \/ (0 < a /\ 0 < b) \/ (a < 0 /\ b < 0).
Proof.
  intros H. destruct (Qlt_le_dec 0 a), (Qlt_le_dec 0 b); [tauto|nra| |].
  - nra.
  - right. right. split; nra.
Qed.

Lemma Qeq_dec' (a : Q) : {a == 0} + {~ a == 0}.
Proof. apply Qeq_dec. Qed.

(** Parallel vectors [u] and [v], [u] not null: they point the same way
    when the signs of their first nonzero coordinate agree. *)
Lemma parallel_same_sign_x (ux uy vx vy : Q) :
  ux * vy - uy * vx == 0 -> ~ ux == 0 ->
  ((ux == 0 /\ vx == 0) \/ (0 < ux /\ 0 < vx) \/ (ux < 0 /\ vx < 0)) <->
  0 < ux * vx + uy * vy.
Proof.
  intros Hc Hux.
  assert (0 < ux * ux) as Hsq by nra.
  assert ((ux * vx + uy * vy) * (ux * ux) == (ux * vx) * (ux * ux + uy * uy)) as Hid.
  { assert (uy * vy * (ux * ux) == (ux * vx) * (uy * uy)) as E; [|rewrite Qmult_plus_distr_l, E; ring].
    assert (ux * vy == uy * vx) as E' by lra.
    transitivity (uy * ux * (ux * vy)); [ring|]. rewrite E'. ring. }
  assert (0 < ux * ux + uy * uy) as Hn by nra.
  split.
  - intros Hs. pose proof (same_sign_mult _ _ Hs Hux) as Hp.
    assert (0 < (ux * vx + uy * vy) * (ux * ux)) as H.
    { rewrite Hid. by apply Qmult_lt_0_compat. }
    destruct (Qlt_le_dec 0 (ux * vx + uy * vy)) as [|Hle]; [done|exfalso]. nra.
  - intros Hd. apply mult_same_sign.
    assert (0 < (ux * vx) * (ux * ux + uy * uy)) as H.
    { rewrite <- Hid. by apply Qmult_lt_0_compat. }
    destruct (Qlt_le_dec 0 (ux * vx)) as [|Hle]; [done|exfalso]. nra.
Qed.

Lemma Line2_equal_consecutive (p q r : Point2) :
  ~ (vec p q).1 == 0 \/ ~ (vec p q).2 == 0 ->
  Line2_equal (line_from_points p q) (line_from_points q r) = true <->
  sd (vec p q) (vec q r).
Proof.
  destruct p as [px py], q as [qx qy], r as [rx ry].
  unfold Line2_equal, line_from_points, sd, cross, dot, vec, sign_of_determinant, x, y.
  simpl. intros Hnd.
  set (D := (py - qy) * (rx - qx) - (qy - ry) * (qx - px)).
  assert (D == (qx - px) * (ry - qy) - (qy - py) * (rx - qx)) as ED by (unfold D; ring).
  assert ((py - qy) * (- qx * (qy - ry) - qy * (rx - qx))
          - (qy - ry) * (- px * (py - qy) - py * (qx - px)) == - qy * D) as EA
    by (unfold D; ring).
  assert ((qx - px) * (- qx * (qy - ry) - qy * (rx - qx))
          - (rx - qx) * (- px * (py - qy) - py * (qx - px)) == qx * D) as EB
    by (unfold D; ring).
  destruct (Qeq_dec' D) as [HD|HD];
    [rewrite (sign_Eq_true _ HD)|rewrite (sign_Eq_false _ HD)]; simpl.
  2:{ split; [done|]. intros [Hc _]. exfalso. apply HD. by rewrite ED. }
  rewrite HD in EA, EB. rewrite ED in HD.
  destruct (Qeq_dec' (py - qy)) as [Ha|Ha];
    [rewrite (sign_Eq_true _ Ha)|rewrite (sign_Eq_false _ Ha)]; simpl.
  - rewrite sign_Eq_true, andb_true_r by (rewrite EB; ring).
    rewrite sign_same. split.
    + intros Hs. split; [done|]. apply parallel_same_sign_x; [done| |done].
      destruct Hnd; [done|lra].
    + intros [_ Hd]. apply parallel_same_sign_x in Hd; [done|done|].
      destruct Hnd; [done|lra].
  - rewrite sign_Eq_true, andb_true_r by (rewrite EA; ring).
    rewrite sign_same. split.
    + intros Hs. split; [done|].
      assert (0 < (qy - py) * (ry - qy) + (qx - px) * (rx - qx)); [|lra].
      apply parallel_same_sign_x; [lra|lra|]. lra.
    + intros [_ Hd].
      assert (0 < (qy - py) * (ry - qy) + (qx - px) * (rx - qx)) as Hd' by lra.
      apply parallel_same_sign_x in Hd'; [lra|lra|lra].
Qed.

(** ** Directions *)

Definition null (u : Vector2) : Prop := u.1 == 0 /\ u.2 == 0.
Definition vadd (u v : Vector2) : Vector2 := (u.1 + v.1, u.2 + v.2).

Lemma sd_not_null (u v : Vector2) : sd u v -> ~ null u /\ ~ null v.
Proof.
  destruct u as [ux uy], v as [vx vy]. unfold sd, null, cross, dot. simpl.
  intros [_ Hd]. split; intros [H1 H2]; rewrite H1, H2 in Hd; lra.
Qed.

Lemma sq_pos (u : Vector2) : ~ null u -> 0 < dot u u.
Proof.
  destruct u as [ux uy]. unfold null, dot. simpl. intros H.
  destruct (Qeq_dec' ux) as [Hx|Hx].
  - assert (~ uy == 0) by tauto. nra.
  - nra.
Qed.

Lemma sd_refl (u : Vector2) : ~ null u -> sd u u.
Proof.
  intros H. split; [|by apply sq_pos].
  destruct u as [ux uy]. unfold cross. simpl. ring.
Qed.

Lemma sd_sym (u v : Vector2) : sd u v -> sd v u.
Proof.
  destruct u as [ux uy], v as [vx vy]. unfold sd, cross, dot. simpl.
  intros [Hc Hd]. split; lra.
Qed.

Lemma Qmult_pos_cancel (a b : Q) : 0 < b -> 0 < a * b -> 0 < a.
Proof. intros Hb Hab. destruct (Qlt_le_dec 0 a); [done|nra]. Qed.

Lemma Qmult_zero_cancel (a b : Q) : 0 < b -> a * b == 0 -> a == 0.
Proof.
  intros Hb Hab. apply Qmult_integral in Hab as [|]; [done|lra].
Qed.

Lemma sd_trans (u v w : Vector2) : sd u v -> sd v w -> sd u w.
Proof.
  intros Huv Hvw. pose proof (sq_pos v (proj2 (sd_not_null _ _ Huv))) as Hv.
  destruct u as [ux uy], v as [vx vy], w as [wx wy].
  unfold sd, cross, dot in *. simpl in *.
  destruct Huv as [Cuv Duv], Hvw as [Cvw Dvw].
  assert ((ux * wy - uy * wx) * (vx * vx + vy * vy)
          == (ux * vy - uy * vx) * (wx * vx + wy * vy)
             + (vx * wy - vy * wx) * (ux * vx + uy * vy)) as Ec by ring.
  assert ((ux * wx + uy * wy) * (vx * vx + vy * vy)
          == (ux * vx + uy * vy) * (vx * wx + vy * wy)
             - (ux * vy - uy * vx) * (vx * wy - vy * wx)) as Ed by ring.
  rewrite Cuv, Cvw in Ec, Ed. split.
  - apply (Qmult_zero_cancel _ _ Hv). rewrite Ec. ring.
  - apply (Qmult_pos_cancel _ _ Hv). rewrite Ed.
    assert (0 < (ux * vx + uy * vy) * (vx * wx + vy * wy))
      by (by apply Qmult_lt_0_compat).
    lra.
Qed.

Lemma sd_add (u v w : Vector2) : sd u v -> sd u w -> sd u (vadd v w).
Proof.
  destruct u as [ux uy], v as [vx vy], w as [wx wy].
  unfold sd, cross, dot, vadd. simpl. intros [C1 D1] [C2 D2]. split.
  - transitivity ((ux * vy - uy * vx) + (ux * wy - uy * wx)); [ring|].
    rewrite C1, C2. ring.
  - assert (ux * (vx + wx) + uy * (vy + wy)
            == (ux * vx + uy * vy) + (ux * wx + uy * wy)) as -> by ring.
    lra.
Qed.

Lemma vec_add (p q r : Point2) :
  (vec p r).1 == (vadd (vec p q) (vec q r)).1 /\
  (vec p r).2 == (vadd (vec p q) (vec q r)).2.
Proof. unfold vec, vadd, x, y. simpl. split; ring. Qed.

Lemma sd_proper_r (u v v' : Vector2) :
  v.1 == v'.1 -> v.2 == v'.2 -> sd u v -> sd u v'.
Proof.
  destruct u as [ux uy], v as [vx vy], v' as [vx' vy'].
  unfold sd, cross, dot. simpl. intros -> ->. done.
Qed.

Lemma sd_proper_l (u u' v : Vector2) :
  u.1 == u'.1 -> u.2 == u'.2 -> sd u v -> sd u' v.
Proof.
  destruct u as [ux uy], u' as [ux' uy'], v as [vx vy].
  unfold sd, cross, dot. simpl. intros -> ->. done.
Qed.

(** Going on from [q] to [r] in the direction in which one came from [k]
    and from [prev]. *)
Lemma sd_extend (k prev q r : Point2) :
  sd (vec k q) (vec prev q) -> sd (vec prev q) (vec q r) ->
  sd (vec k r) (vec q r) /\ sd (vec k q) (vec k r).
Proof.
  intros HI Hs.
  pose proof (sd_trans _ _ _ HI Hs) as Hkq.
  destruct (vec_add k q r) as [E1 E2].
  assert (sd (vec q r) (vec k r)) as H1.
  { apply (sd_proper_r _ (vadd (vec k q) (vec q r))); [by symmetry..|].
    apply sd_add; [by apply sd_sym|].
    apply sd_refl. by apply (sd_not_null _ _ Hs). }
  split; [by apply sd_sym|].
  apply (sd_proper_r _ (vadd (vec k q) (vec q r))); [by symmetry..|].
  apply sd_add; [|done]. apply sd_refl. by apply (sd_not_null _ _ HI).
Qed.

(** ** Polygons *)

Abbreviation Polygon := (list Point2).
Definition Segment2 : Type := Point2 * Point2.

Definition supporting_line (s : Segment2) : Line2 := line_from_points s.1 s.2.

Definition edge (boundary : Polygon) (i : nat) : option Segment2 :=
  source ← boundary !! i;
  target ← boundary !! (S i `mod` length boundary)%nat;
  Some (source, target).

Record PolygonWithHoles := {
  outer_boundary : Polygon;
  holes : list Polygon
}.

(** [Segment_2::has_on] and [Line_2::has_on]. *)
Definition collinear (p q r : Point2) : bool :=
  Qeq_bool (cross (vec p q) (vec p r)) 0.

Definition Qlt_bool (a b : Q) : bool := negb (Qle_bool b a).

(** [collinear_are_ordered_along_line(p, q, r)]: for three points on one
    line, whether [q] lies between [p] and [r], ends included. *)
Definition collinear_are_ordered_along_line (p q r : Point2) : bool :=
  if Qlt_bool (x p) (x q) then negb (Qlt_bool (x r) (x q))
  else if Qlt_bool (x q) (x p) then negb (Qlt_bool (x q) (x r))
  else if Qlt_bool (y p) (y q) then negb (Qlt_bool (y r) (y q))
  else if Qlt_bool (y q) (y p) then negb (Qlt_bool (y q) (y r))
  else true.

Definition Segment2_has_on (s : Segment2) (p : Point2) : bool :=
  collinear s.1 p s.2 && collinear_are_ordered_along_line s.1 p s.2.

Definition Line2_has_on (l : Line2) (p : Point2) : bool :=
  let '(a, b, c) := l in Qeq_bool (a * x p + b * y p + c) 0.

Lemma Qlt_bool_iff (a b : Q) : Qlt_bool a b = true <-> a < b.
Proof.
  unfold Qlt_bool. rewrite negb_true_iff. split.
  - intros Hle. apply Qnot_le_lt. intros Hba.
    apply Qle_bool_iff in Hba. congruence.
  - intros Hlt. destruct (Qle_bool b a) eqn:E; [|done].
    apply Qle_bool_iff in E. lra.
Qed.

Lemma Qlt_bool_false (a b : Q) : Qlt_bool a b = false <-> b <= a.
Proof.
  split.
  - intros Hf. apply Qnot_lt_le. intros Hlt. apply Qlt_bool_iff in Hlt. congruence.
  - intros Hle. destruct (Qlt_bool a b) eqn:E; [|done].
    apply Qlt_bool_iff in E. lra.
Qed.

Lemma ordered_degenerate (u p w : Point2) :
  x u == x w -> y u == y w ->
  collinear_are_ordered_along_line u p w = true ->
  x p == x u /\ y p == y u.
Proof.
  intros Hx Hy. unfold collinear_are_ordered_along_line.
  destruct (Qlt_bool (x u) (x p)) eqn:E1.
  { rewrite negb_true_iff, Qlt_bool_false. apply Qlt_bool_iff in E1. lra. }
  destruct (Qlt_bool (x p) (x u)) eqn:E2.
  { rewrite negb_true_iff, Qlt_bool_false. apply Qlt_bool_iff in E2. lra. }
  destruct (Qlt_bool (y u) (y p)) eqn:E3.
  { rewrite negb_true_iff, Qlt_bool_false. apply Qlt_bool_iff in E3. lra. }
  destruct (Qlt_bool (y p) (y u)) eqn:E4.
  { rewrite negb_true_iff, Qlt_bool_false. apply Qlt_bool_iff in E4. lra. }
  apply Qlt_bool_false in E1, E2, E3, E4. intros _. lra.
Qed.

Lemma Line2_has_on_iff (l : Line2) (p : Point2) :
  Line2_has_on l p = true <-> l.1.1 * x p + l.1.2 * y p + l.2 == 0.
Proof. destruct l as [[a b] c]. unfold Line2_has_on. simpl. apply Qeq_bool_iff. Qed.

Lemma collinear_iff (p q r : Point2) :
  collinear p q r = true <->
  (x q - x p) * (y r - y p) - (y q - y p) * (x r - x p) == 0.
Proof. unfold collinear, cross, vec. simpl. apply Qeq_bool_iff. Qed.

(** A point of a segment lies on the supporting line of the segment. *)
Lemma Segment2_has_on_line (s : Segment2) (p : Point2) :
  Segment2_has_on s p = true -> Line2_has_on (line_from_points s.1 s.2) p = true.
Proof.
  unfold Segment2_has_on. intros [Hc _]%andb_true_iff.
  apply collinear_iff in Hc. apply Line2_has_on_iff.
  unfold line_from_points. simpl. lra.
Qed.

(** A line through the two ends of a segment holds all its points. *)
Lemma Line2_has_on_segment (l : Line2) (u w p : Point2) :
  Line2_has_on l u = true -> Line2_has_on l w = true ->
  Segment2_has_on (u, w) p = true -> Line2_has_on l p = true.
Proof.
  rewrite !Line2_has_on_iff. destruct l as [[a b] c]. simpl.
  unfold Segment2_has_on. simpl. intros Hu Hw [Hc Ho]%andb_true_iff.
  apply collinear_iff in Hc.
  set (f := a * x p + b * y p + c).
  assert ((x w - x u) * f == 0) as Hdx.
  { assert ((x w - x u) * f
            == (x w - x u) * (a * x u + b * y u + c)
               + (x p - x u) * ((a * x w + b * y w + c) - (a * x u + b * y u + c))
               - b * ((x p - x u) * (y w - y u) - (y p - y u) * (x w - x u)))
      as -> by (unfold f; ring).
    rewrite Hu, Hw, Hc. ring. }
  assert ((y w - y u) * f == 0) as Hdy.
  { assert ((y w - y u) * f
            == (y w - y u) * (a * x u + b * y u + c)
               + (y p - y u) * ((a * x w + b * y w + c) - (a * x u + b * y u + c))
               + a * ((x p - x u) * (y w - y u) - (y p - y u) * (x w - x u)))
      as -> by (unfold f; ring).
    rewrite Hu, Hw, Hc. ring. }
  destruct (Qeq_dec (x w - x u) 0) as [Hx0|Hx0].
  - destruct (Qeq_dec (y w - y u) 0) as [Hy0|Hy0].
    + destruct (ordered_degenerate u p w) as [Hpx Hpy]; [lra|lra|done|].
      unfold f in *. rewrite Hpx, Hpy. done.
    + apply Qmult_integral in Hdy as [?|?]; [done|]. done.
  - apply Qmult_integral in Hdx as [?|?]; [done|]. done.
Qed.

(** [Polygon_2::is_clockwise_oriented] of a triangle, and
    [reverse_orientation], which keeps the first vertex in place. *)
Definition Triangle2 : Type := Point2 * Point2 * Point2.

Definition is_clockwise_oriented (t : Triangle2) : bool :=
  let '(a, b, c) := t in
  negb (Qle_bool 0 (cross (vec a b) (vec a c))).

Definition reverse_orientation (pgn : Polygon) : Polygon :=
  match pgn with
  | [] => []
  | first :: rest => first :: reverse rest
  end.

(** All the edges of a boundary, in order. *)
Definition edges (boundary : Polygon) : list Segment2 :=
  omap (edge boundary) (seq 0 (length boundary)).

End Kernel.

(** ** The discretized brush circle *)

Module Circle.

Import Kernel.

(** [glm::pi<double>()]. *)
Definition pi : float := 0x1.921fb54442d18p+1%float.

(** [static_cast<double>] of a [size_t]. *)
Definition double_of_size_t (n : nat) : float :=
  PrimFloat.of_uint63 (Uint63.of_Z (Z.of_nat n)).

(** The angle of sample [i]: [(double(i) / vertexCount) * 2 * pi]. *)
Definition circleCoord (vertexCount i : nat) : float :=
  (double_of_size_t i / double_of_size_t vertexCount * 2 * pi)%float.

(** The inner [while] of [polygonFromCircle]: the shared points whose angle
    is at most [coord] are taken off the list, and pushed unless the angle
    is [coord] itself. *)
Fixpoint addSharedBefore (coord : float) (sharedPoints : list (Point2 * float))
    (pgn : Polygon) : list (Point2 * float) * Polygon :=
  match sharedPoints with
  | [] => ([], pgn)
  | (p, a) :: rest =>
      if (a <=? coord)%float then
        addSharedBefore coord rest
          (if negb (a =? coord)%float then pgn ++ [p] else pgn)
      else (sharedPoints, pgn)
  end.

(** The [for] loop, from sample [i] on, [todo] samples to go.  [circlePoint]
    gives the sample at an angle: the point
    [center + xBase * cos(coord) * radius + yBase * sin(coord) * radius],
    brought to the plane of the triangle. *)
Fixpoint circleLoop (circlePoint : float → Point2) (vertexCount i todo : nat)
    (sharedPoints : list (Point2 * float)) (pgn : Polygon)
    : list (Point2 * float) * Polygon :=
  match todo with
  | O => (sharedPoints, pgn)
  | S todo' =>
      let coord := circleCoord vertexCount i in
      let '(sharedPoints', pgn') := addSharedBefore coord sharedPoints pgn in
      circleLoop circlePoint vertexCount (S i) todo' sharedPoints'
        (pgn' ++ [circlePoint coord])
  end.

(** The polygon: the loop, then the remaining shared points.  The three
    assertions that close [polygonFromCircle] read the polygon and leave it
    as it is; they are checked where the polygon is put to use. *)
Definition circlePolygon (circlePoint : float → Point2) (vertexCount : nat)
    (sharedPoints : list (Point2 * float)) : Polygon :=
  let '(rest, pgn) :=
    circleLoop circlePoint vertexCount 0 vertexCount sharedPoints [] in
  pgn ++ (fst <$> rest).

(** [std::sort] of the shared points by angle. *)
Fixpoint insertByAngle (sp : Point2 * float) (l : list (Point2 * float))
    : list (Point2 * float) :=
  match l with
  | [] => [sp]
  | sp' :: l' =>
      if (snd sp <? snd sp')%float then sp :: l else sp' :: insertByAngle sp l'
  end.

Definition sortByAngle (l : list (Point2 * float)) : list (Point2 * float) :=
  foldr insertByAngle [] l.

(** The shared point with angle [a], standing between [pre] and [post] in
    the sorted list, is reached by the loop at sample [i]: no earlier sample
    has an angle as large as [a] or as an angle of [post], and sample [i]
    has an angle as large as every angle of [pre]. *)
Definition notBefore (coord : float) (sharedPoint : Point2 * float) : bool :=
  negb (snd sharedPoint <=? coord)%float.

Definition reachedAt (vertexCount i : nat) (pre : list (Point2 * float))
    (a : float) (post : list (Point2 * float)) : bool :=
  forallb (λ j, negb (a <=? circleCoord vertexCount j)%float
                && forallb (notBefore (circleCoord vertexCount j)) post)
          (seq 0 i)
  && forallb (λ sp, (snd sp <=? circleCoord vertexCount i)%float) pre.

Definition blocked (coord : float) (X : list (Point2 * float)) : bool :=
  match X with
  | [] => true
  | sp :: _ => notBefore coord sp
  end.

Lemma addSharedBefore_blocked (coord : float) (pre X : list (Point2 * float))
    (pgn : Polygon) :
  blocked coord X = true →
  addSharedBefore coord (pre ++ X) pgn
  = ((addSharedBefore coord pre pgn).1 ++ X, (addSharedBefore coord pre pgn).2).
Proof.
  intros HX. revert pgn. induction pre as [|[p a] pre IH]; intros pgn; simpl.
  - destruct X as [|[q b] X]; [done|]. simpl in *.
    unfold notBefore in HX. simpl in HX.
    by destruct (b <=? coord)%float.
  - destruct (a <=? coord)%float; [apply IH|done].
Qed.

Lemma addSharedBefore_suffix (coord : float) (sh : list (Point2 * float))
    (pgn : Polygon) :
  (addSharedBefore coord sh pgn).1 `suffix_of` sh.
Proof.
  revert pgn. induction sh as [|[p a] sh IH]; intros pgn; simpl; [done|].
  destruct (a <=? coord)%float; [|done].
  by apply suffix_cons_r.
Qed.

Lemma addSharedBefore_all (coord : float) (pre Y : list (Point2 * float))
    (pgn : Polygon) :
  forallb (λ sp, (snd sp <=? coord)%float) pre = true →
  addSharedBefore coord (pre ++ Y) pgn
  = addSharedBefore coord Y (addSharedBefore coord pre pgn).2.
Proof.
  revert pgn. induction pre as [|[p a] pre IH]; intros pgn; simpl; [done|].
  intros [Ha Hpre]%andb_true_iff. simpl in Ha. rewrite Ha. by apply IH.
Qed.

Lemma circleLoop_add (cp : float → Point2) (vc i k1 k2 : nat)
    (sh : list (Point2 * float)) (pgn : Polygon) :
  circleLoop cp vc i (k1 + k2) sh pgn
  = circleLoop cp vc (i + k1) k2 (circleLoop cp vc i k1 sh pgn).1
      (circleLoop cp vc i k1 sh pgn).2.
Proof.
  revert i sh pgn. induction k1 as [|k1 IH]; intros i sh pgn; simpl.
  - by rewrite Nat.add_0_r.
  - destruct (addSharedBefore _ sh pgn) as [sh1 pgn1].
    rewrite IH. by rewrite Nat.add_succ_r.
Qed.

Lemma circleLoop_suffix (cp : float → Point2) (vc i k : nat)
    (sh : list (Point2 * float)) (pgn : Polygon) :
  (circleLoop cp vc i k sh pgn).1 `suffix_of` sh.
Proof.
  revert i sh pgn. induction k as [|k IH]; intros i sh pgn; simpl; [done|].
  pose proof (addSharedBefore_suffix (circleCoord vc i) sh pgn) as Hs.
  destruct (addSharedBefore _ sh pgn) as [sh1 pgn1]. simpl in Hs.
  etrans; [apply IH|done].
Qed.

Lemma circleLoop_blocked (cp : float → Point2) (vc i k : nat)
    (pre X : list (Point2 * float)) (pgn : Polygon) :
  forallb (λ j, blocked (circleCoord vc j) X) (seq i k) = true →
  circleLoop cp vc i k (pre ++ X) pgn
  = ((circleLoop cp vc i k pre pgn).1 ++ X, (circleLoop cp vc i k pre pgn).2).
Proof.
  revert i pre pgn. induction k as [|k IH]; intros i pre pgn; simpl; [done|].
  intros [Hi Hk]%andb_true_iff.
  rewrite addSharedBefore_blocked by done.
  destruct (addSharedBefore _ pre pgn) as [sh1 pgn1]. simpl.
  by apply IH.
Qed.

(** C5, as the code has it: a shared (edge-crossing) point whose angle is
    the angle of the sample the loop has reached is taken off the list
    without being pushed, and the sample is pushed: the polygon is the one
    the circle gives without that shared point. *)
Theorem tie_keeps_sample (circlePoint : float → Point2) (vertexCount i : nat)
    (pre post : list (Point2 * float)) (p : Point2) (a : float) :
  (i < vertexCount)%nat →
  reachedAt vertexCount i pre a post = true →
  (a <=? circleCoord vertexCount i)%float = true →
  (a =? circleCoord vertexCount i)%float = true →
  circlePolygon circlePoint vertexCount (pre ++ (p, a) :: post)
  = circlePolygon circlePoint vertexCount (pre ++ post).
Proof.
  intros Hi [Hbefore Hpre]%andb_true_iff Hle Heq.
  unfold circlePolygon.
  replace vertexCount with (i + S (vertexCount - S i))%nat at 2 4 by lia.
  rewrite !circleLoop_add. simpl.
  rewrite (circleLoop_blocked _ _ _ _ pre ((p, a) :: post)).
  2:{ apply forallb_forall. intros j Hj.
      rewrite forallb_forall in Hbefore. specialize (Hbefore j Hj).
      by apply andb_true_iff in Hbefore as [Ha _]. }
  rewrite (circleLoop_blocked _ _ _ _ pre post).
  2:{ apply forallb_forall. intros j Hj.
      rewrite forallb_forall in Hbefore. specialize (Hbefore j Hj).
      apply andb_true_iff in Hbefore as [_ Hp].
      destruct post as [|sp post]; [done|]. simpl in *.
      by apply andb_true_iff in Hp as [? _]. }
  pose proof (circleLoop_suffix circlePoint vertexCount 0 i pre []) as [skipped Hs].
  destruct (circleLoop circlePoint vertexCount 0 i pre []) as [r pg]. simpl in *.
  assert (forallb (λ sp, (snd sp <=? circleCoord vertexCount i)%float) r = true) as Hr.
  { rewrite Hs, forallb_app in Hpre. by apply andb_true_iff in Hpre as [_ ?]. }
  rewrite !(addSharedBefore_all _ r) by done. simpl.
  rewrite Hle, Heq. simpl. done.
Qed.

(** *** What the polygon is made of *)

Lemma addSharedBefore_taken (coord : float) (sh : list (Point2 * float))
    (pgn : Polygon) :
  ∃ taken, sh = taken ++ (addSharedBefore coord sh pgn).1 ∧
    (addSharedBefore coord sh pgn).2
    = pgn ++ (fst <$> List.filter (λ sp, negb (snd sp =? coord)%float) taken).
Proof.
  revert pgn. induction sh as [|[p a] sh IH]; intros pgn; simpl.
  - exists []. simpl. by rewrite app_nil_r.
  - destruct (a <=? coord)%float.
    + destruct (IH (if negb (a =? coord)%float then pgn ++ [p] else pgn))
        as (taken & Hsh & Hpgn).
      exists ((p, a) :: taken). split; [simpl; by f_equal|].
      rewrite Hpgn. simpl. destruct (a =? coord)%float; simpl; [done|].
      by rewrite <- app_assoc.
    + exists []. simpl. by rewrite app_nil_r.
Qed.

Record loop_spec (cp : float → Point2) (vc i k : nat)
    (sh : list (Point2 * float)) (pgn : Polygon)
    (r : list (Point2 * float) * Polygon) : Prop := {
  ls_old : ∀ q, q ∈ pgn → q ∈ r.2;
  ls_samples : ∀ j, (i ≤ j < i + k)%nat → cp (circleCoord vc j) ∈ r.2;
  ls_shared : ∀ p a, (p, a) ∈ sh →
    (p, a) ∈ r.1 ∨ p ∈ r.2 ∨
    ∃ j, (i ≤ j < i + k)%nat ∧ (a =? circleCoord vc j)%float = true;
  ls_only : ∀ q, q ∈ r.2 →
    q ∈ pgn ∨ (∃ j, (i ≤ j < i + k)%nat ∧ q = cp (circleCoord vc j)) ∨
    ∃ a, (q, a) ∈ sh;
  ls_rest : ∀ sp, sp ∈ r.1 → sp ∈ sh;
  ls_least : (length pgn + k ≤ length r.2)%nat;
  ls_most : (length r.2 + length r.1 ≤ length pgn + k + length sh)%nat
}.

Lemma circleLoop_spec (cp : float → Point2) (vc i k : nat)
    (sh : list (Point2 * float)) (pgn : Polygon) :
  loop_spec cp vc i k sh pgn (circleLoop cp vc i k sh pgn).
Proof.
  revert i sh pgn. induction k as [|k IH]; intros i sh pgn; simpl.
  - split; simpl; try done; try lia.
    + intros p a ?. by left.
    + intros q ?. by left.
  - destruct (addSharedBefore_taken (circleCoord vc i) sh pgn)
      as (taken & Hsh & Hpgn).
    destruct (addSharedBefore (circleCoord vc i) sh pgn) as [sh1 pgn1].
    simpl in Hsh, Hpgn.
    set (kept := fst <$> List.filter
                   (λ sp, negb (snd sp =? circleCoord vc i)%float) taken) in *.
    assert (length kept ≤ length taken)%nat as Hkept.
    { unfold kept. rewrite length_fmap. apply filter_length_le. }
    subst pgn1.
    destruct (IH (S i) sh1 ((pgn ++ kept) ++ [cp (circleCoord vc i)]))
      as [Hold Hsamples Hshared Honly Hrest Hleast Hmost].
    split.
    + intros q Hq. apply Hold. rewrite !elem_of_app. auto.
    + intros j Hj. destruct (decide (j = i)) as [->|Hne].
      * apply Hold. rewrite elem_of_app, list_elem_of_singleton. auto.
      * apply Hsamples. lia.
    + intros p a Hpa. rewrite Hsh in Hpa.
      apply elem_of_app in Hpa as [Htaken|Hsh1].
      * destruct (a =? circleCoord vc i)%float eqn:Heq.
        { right. right. exists i. split; [lia|done]. }
        right. left. apply Hold. rewrite !elem_of_app. left. right.
        unfold kept. apply list_elem_of_fmap. exists (p, a). split; [done|].
        apply list_elem_of_In, filter_In. split; [by apply list_elem_of_In|].
        simpl. by rewrite Heq.
      * destruct (Hshared p a Hsh1) as [?|[?|(j & Hj & Heq)]]; [auto..|].
        right. right. exists j. split; [lia|done].
    + intros q Hq. destruct (Honly q Hq) as [Hin|[(j & Hj & ->)|[a Ha]]].
      * rewrite !elem_of_app, list_elem_of_singleton in Hin.
        destruct Hin as [[?|Hk]| ->]; [by left| |].
        -- right. right. unfold kept in Hk.
           apply list_elem_of_fmap in Hk as ([q' a] & -> & Hk).
           apply list_elem_of_In, filter_In in Hk as [Hk%list_elem_of_In _].
           exists a. rewrite Hsh, elem_of_app. by left.
        -- right. left. exists i. split; [lia|done].
      * right. left. exists j. split; [lia|done].
      * right. right. exists a. rewrite Hsh, elem_of_app. by right.
    + intros sp Hsp. rewrite Hsh, elem_of_app. right. by apply Hrest.
    + rewrite !length_app in Hleast. simpl in Hleast. lia.
    + rewrite !length_app in Hmost. simpl in Hmost.
      rewrite Hsh, length_app. lia.
Qed.

(** X23: the polygon of a circle holds every sample of the circle, and
    apart from the samples only crossing points; it holds every crossing
    point too, except those whose angle is exactly the angle of a sample.
    So it has at least as many vertices as samples and at most as many as
    samples and crossing points together. *)
Theorem circlePolygon_vertices (circlePoint : float → Point2)
    (vertexCount : nat) (sharedPoints : list (Point2 * float)) :
  (∀ i, (i < vertexCount)%nat →
     circlePoint (circleCoord vertexCount i)
     ∈ circlePolygon circlePoint vertexCount sharedPoints) ∧
  (∀ p a, (p, a) ∈ sharedPoints →
     p ∈ circlePolygon circlePoint vertexCount sharedPoints ∨
     ∃ i, (i < vertexCount)%nat ∧ (a =? circleCoord vertexCount i)%float = true) ∧
  (∀ q, q ∈ circlePolygon circlePoint vertexCount sharedPoints →
     (∃ i, (i < vertexCount)%nat ∧ q = circlePoint (circleCoord vertexCount i)) ∨
     ∃ a, (q, a) ∈ sharedPoints) ∧
  (vertexCount ≤ length (circlePolygon circlePoint vertexCount sharedPoints)
   ≤ vertexCount + length sharedPoints)%nat.
Proof.
  unfold circlePolygon.
  destruct (circleLoop_spec circlePoint vertexCount 0 vertexCount sharedPoints [])
    as [_ Hsamples Hshared Honly Hrest Hleast Hmost].
  destruct (circleLoop circlePoint vertexCount 0 vertexCount sharedPoints [])
    as [rest pgn]. simpl in *.
  split_and!.
  - intros i Hi. rewrite elem_of_app. left. apply Hsamples. lia.
  - intros p a Hpa. destruct (Hshared p a Hpa) as [Hr|[?|(j & Hj & Heq)]].
    + left. rewrite elem_of_app. right. apply list_elem_of_fmap.
      by exists (p, a).
    + left. rewrite elem_of_app. by left.
    + right. exists j. split; [lia|done].
  - intros q [Hq|Hq]%elem_of_app.
    + destruct (Honly q Hq) as [[]%elem_of_nil|[(j & Hj & ->)|?]]; [|by right].
      left. exists j. split; [lia|done].
    + apply list_elem_of_fmap in Hq as ([q' a] & -> & Hq). right.
      exists a. by apply Hrest.
  - rewrite length_app. lia.
  - rewrite length_app, length_fmap. lia.
Qed.

(** *** A unit circle cut by the line through its center *)

(** Four samples on the unit circle around the origin of the plane, with
    the coordinates that [cos] and [sin] give in double precision, and the
    two points where the circle crosses the edge along the first axis: at
    angle [0] and at angle [pi].  Both angles are angles of samples. *)
Definition unitCirclePoint (coord : float) : Point2 :=
  if (coord =? 0)%float then (1, 0)%Q
  else if (coord =? circleCoord 4 1)%float
    then (6123233995736766 # 100000000000000000000000000000000, 1)%Q
  else if (coord =? circleCoord 4 2)%float
    then (-1, 12246467991473532 # 100000000000000000000000000000000)%Q
  else (-18369701987210297 # 100000000000000000000000000000000, -1)%Q.

Definition crossingAt0 : Point2 * float := ((1, 0)%Q, 0%float).
Definition crossingAtPi : Point2 * float := ((-1, 0)%Q, pi).

Example unitCircle_polygon :
  circlePolygon unitCirclePoint 4 (sortByAngle [crossingAtPi; crossingAt0])
  = [unitCirclePoint 0; unitCirclePoint (circleCoord 4 1);
     unitCirclePoint (circleCoord 4 2); unitCirclePoint (circleCoord 4 3)].
Proof. vm_compute. reflexivity. Qed.

(** C5 as stated fails: the crossing at angle [pi] has the angle of sample
    2, and the polygon holds the sample, not the crossing. *)
Lemma crossing_dropped_counterexample :
  circleCoord 4 2 = snd crossingAtPi ∧
  ¬ (fst crossingAtPi ∈
       circlePolygon unitCirclePoint 4 (sortByAngle [crossingAtPi; crossingAt0])).
Proof.
  split; [vm_compute; reflexivity|].
  rewrite unitCircle_polygon. vm_compute.
  intros H. repeat (apply elem_of_cons in H as [H|H]; [discriminate H|]).
  by apply elem_of_nil in H.
Qed.

Lemma tie_keeps_sample_witness :
  circlePolygon unitCirclePoint 4 ([crossingAt0] ++ crossingAtPi :: [])
  = circlePolygon unitCirclePoint 4 ([crossingAt0] ++ []).
Proof.
  apply (tie_keeps_sample unitCirclePoint 4 2 [crossingAt0] [] (-1, 0)%Q pi).
  - lia.
  - vm_compute. reflexivity.
  - vm_compute. reflexivity.
  - vm_compute. reflexivity.
Defined.

End Circle.

(** ** TriangleDetail.cpp *)

Module Detail.

Import Kernel Circle.

(** A [Polygon_set_2] is read through [polygons_with_holes] and written
    through [clear] and [insert]: it is modelled by the list of its
    polygons with holes. *)
Abbreviation PolygonSet := (list PolygonWithHoles).

(** [PolygonSet(poly)]. *)
Definition PolygonSet_of (poly : Polygon) : PolygonSet :=
  [ {| outer_boundary := poly; holes := [] |} ].

(** A face of the constrained triangulation: its three points (none for a
    face at the infinite vertex), its three neighbours, which of its three
    edges are constrained, and the nesting level kept in [info()].  A face
    handle is a position in the face list. *)
Record Face := {
  face_points : option Triangle2;
  face_neighbor : nat * nat * nat;
  face_constrained : bool * bool * bool;
  nestingLevel : Z
}.

Record ConstrainedTriangulation := {
  ct_faces : list Face;
  infinite_face : nat
}.

Definition get3 {A} (t : A * A * A) (i : nat) : A :=
  match i with
  | O => t.1.1
  | S O => t.1.2
  | _ => t.2
  end.

Definition set_level (level : Z) (f : Face) : Face :=
  {| face_points := face_points f; face_neighbor := face_neighbor f;
     face_constrained := face_constrained f; nestingLevel := level |}.

Definition set_faces (ct : ConstrainedTriangulation) (fs : list Face)
    : ConstrainedTriangulation :=
  {| ct_faces := fs; infinite_face := infinite_face ct |}.

(** An edge of the triangulation: a face and the index of the edge in it. *)
Definition Edge : Type := nat * nat.

(** The handles of a valid triangulation point into its face list. *)
Definition face_valid (n : nat) (f : Face) : bool :=
  forallb (λ i, bool_decide (get3 (face_neighbor f) i < n)%nat) [0; 1; 2]%nat.

Definition ct_valid (ct : ConstrainedTriangulation) : bool :=
  bool_decide (infinite_face ct < length (ct_faces ct))%nat
  && forallb (face_valid (length (ct_faces ct))) (ct_faces ct).

(** *** [markDomains] *)

(** The state of the two loops: the triangulation and the [border] deque. *)
Definition levelOf (ct : ConstrainedTriangulation) (fh : nat) : option Z :=
  nestingLevel <$> ct_faces ct !! fh.

(** The [for] loop over the three edges of the face [fh] just marked. *)
Definition markEdge (ct : ConstrainedTriangulation) (fh : nat)
    (st : option (list nat * list Edge)) (i : nat) : option (list nat * list Edge) :=
  '(queue, border) ← st;
  f ← ct_faces ct !! fh;
  let n := get3 (face_neighbor f) i in
  level ← levelOf ct n;
  if decide (level = -1) then
    if get3 (face_constrained f) i then Some (queue, border ++ [(fh, i)])
    else Some (queue ++ [n], border)
  else Some (queue, border).

(** The [while] loop of [markDomains(ct, start, index, border)]. *)
Fixpoint markQueue (fuel : nat) (index : Z) (ct : ConstrainedTriangulation)
    (queue : list nat) (border : list Edge)
    : option (ConstrainedTriangulation * list Edge) :=
  match queue with
  | [] => Some (ct, border)
  | fh :: queue' =>
      match fuel with
      | O => None
      | S fuel' =>
          level ← levelOf ct fh;
          if decide (level = -1) then
            let ct' := set_faces ct (alter (set_level index) fh (ct_faces ct)) in
            '(queue'', border') ←
              foldl (markEdge ct' fh) (Some (queue', border)) [0; 1; 2]%nat;
            markQueue fuel' index ct' queue'' border'
          else markQueue fuel' index ct queue' border
      end
  end.

(** Each face is marked once and puts at most three faces in the queue. *)
Definition markFuel (ct : ConstrainedTriangulation) : nat :=
  (3 * length (ct_faces ct) + 2)%nat.

Definition markDomainsFrom (ct : ConstrainedTriangulation) (start : nat)
    (index : Z) (border : list Edge)
    : option (ConstrainedTriangulation * list Edge) :=
  level ← levelOf ct start;
  if decide (level ≠ -1) then Some (ct, border)
  else markQueue (markFuel ct) index ct [start] border.

(** The [while] loop of [markDomains(ct)] over the border edges. *)
Fixpoint markBorder (fuel : nat) (ct : ConstrainedTriangulation)
    (border : list Edge) : option ConstrainedTriangulation :=
  match border with
  | [] => Some ct
  | e :: border' =>
      match fuel with
      | O => None
      | S fuel' =>
          f ← ct_faces ct !! e.1;
          let n := get3 (face_neighbor f) e.2 in
          level ← levelOf ct n;
          if decide (level = -1) then
            '(ct', border'') ← markDomainsFrom ct n (nestingLevel f + 1) border';
            markBorder fuel' ct' border''
          else markBorder fuel' ct border'
      end
  end.

Definition markDomains (ct : ConstrainedTriangulation)
    : option ConstrainedTriangulation :=
  let ct0 := set_faces ct (set_level (-1) <$> ct_faces ct) in
  '(ct1, border) ← markDomainsFrom ct0 (infinite_face ct0) 0 [];
  markBorder (markFuel ct) ct1 border.

(** [nestingLevel % 2 > 0], with the remainder of C++. *)
Definition inDomain (f : Face) : bool := 0 <? Z.rem (nestingLevel f) 2.

(** *** The triangle detail *)

Section detail.

(** What the engine takes from glm and CGAL.  [vec3] is [glm::vec3], which
    also stands for the points of the inexact kernel; [Point3] is an exact
    point in space, compared by value. *)
Context {vec3 Plane Point3 : Type}.
Context `{EqDecision vec3, Countable Point3}.

Record Sphere := { sphere_center : Point3; sphere_squared_radius : Q }.

Record Circle3 := {
  circle_center : Point3;
  circle_squared_radius : Q;
  circle_plane : Plane
}.

Record PeprSphere := { pepr_center : vec3; pepr_squared_radius : Q }.

(** The collaborators, one field per operation the source calls. *)
Class External := {
  (** conversions between the kernels and glm *)
  toExactK : vec3 → Point3;
  toGlmVec : Point3 → vec3;
  to_double : Q → float;
  (** [Plane_3::to_2d] and [Plane_3::to_3d] *)
  to_2d : Plane → Point3 → Point2;
  to_3d : Plane → Point2 → Point3;
  (** the regularized Boolean operations of [Polygon_set_2] *)
  ps_intersection : PolygonSet → PolygonSet → PolygonSet;
  ps_join : PolygonSet → PolygonSet → PolygonSet;
  ps_difference : PolygonSet → PolygonSet → PolygonSet;
  ps_join_range : list Polygon → PolygonSet;
  (** the constrained triangulation *)
  ct_empty : ConstrainedTriangulation;
  insert_constraint : ConstrainedTriangulation → Point2 → Point2 →
                      ConstrainedTriangulation;
  (** [tri.getTri().squared_area() > 0] for the triangle on three [vec3],
      and [glm::dot(normal, glm::cross(b - a, c - a)) < 0] *)
  positive_area : vec3 → vec3 → vec3 → bool;
  faces_away : vec3 → vec3 → vec3 → vec3 → bool;
  (** the color of a [DataTriangle] that was not given one *)
  defaultColor : nat;
  (** [CGAL::intersection(sphere, plane)] *)
  intersection_sphere_plane : Sphere → Plane → option (Point3 + Circle3);
  (** circle discretization: the constants of the header, the cast of a
      [double] to [size_t], the sample of a circle at an angle, the points
      where a sphere meets the line through two points (brought back onto
      the line), the angle of a point around the circle as [atan2] gives
      it, and the order on exact points *)
  VERTICES_PER_UNIT_CIRCLE : float;
  MIN_VERTICES_IN_CIRCLE : nat;
  size_t_of_double : float → nat;
  circle_sample : Plane → Circle3 → float → float → Point3;
  sphere_line_points : Sphere → Point3 → Point3 → list Point3;
  atan2_on_circle : Plane → Circle3 → Point3 → float;
  point3_ge : Point3 → Point3 → bool;
  (** what the assertions of [polygonFromCircle] read: whether the two
      base vectors of the plane are orthogonal, and the three predicates of
      [Polygon_2] *)
  orthogonal_bases : Plane → bool;
  is_simple : Polygon → bool;
  is_counterclockwise_oriented : Polygon → bool;
  is_convex : Polygon → bool
}.

Context `{External}.

Abbreviation DataTriangle := (Geo.DataTriangle vec3).

Record TriangleDetail := {
  mOriginal : DataTriangle;
  mOriginalPlane : Plane;
  mBounds : PolygonSet;
  mColoredPolys : gmap nat PolygonSet;
  mTriangles : list DataTriangle;
  mTrianglesExact : list Triangle2;
  mColorChanged : bool
}.

Definition set_polys (td : TriangleDetail) (polys : gmap nat PolygonSet)
    (colorChanged : bool) : TriangleDetail :=
  {| mOriginal := mOriginal td; mOriginalPlane := mOriginalPlane td;
     mBounds := mBounds td; mColoredPolys := polys;
     mTriangles := mTriangles td; mTrianglesExact := mTrianglesExact td;
     mColorChanged := colorChanged |}.

Definition set_triangles (td : TriangleDetail) (tris : list DataTriangle)
    (exact : list Triangle2) : TriangleDetail :=
  {| mOriginal := mOriginal td; mOriginalPlane := mOriginalPlane td;
     mBounds := mBounds td; mColoredPolys := mColoredPolys td;
     mTriangles := tris; mTrianglesExact := exact;
     mColorChanged := mColorChanged td |}.

(** The entries of a [std::map], in the order of its keys. *)
Definition key_le {A} (a b : nat * A) : Prop := (a.1 ≤ b.1)%nat.

#[export] Instance key_le_dec {A} (a b : nat * A) : Decision (key_le a b).
Proof. unfold key_le. apply _. Defined.

Definition entries {A} (m : gmap nat A) : list (nat * A) :=
  merge_sort key_le (map_to_list m).

(** [polygonFromTriangle(const Triangle2&)]. *)
Definition polygonFromTriangle (tri : Triangle2) : Polygon :=
  let '(a, b, c) := tri in
  let pgn := [a; b; c] in
  if is_clockwise_oriented tri then reverse_orientation pgn else pgn.

(** [simplifyPolygon]: the vertices between two edges of the outer boundary
    on one supporting line are listed, then erased from the back. *)
Definition sameSupportingLine (boundary : Polygon) (i : nat) : bool :=
  match edge boundary (i - 1), edge boundary i with
  | Some lastEdge, Some e =>
      Line2_equal (supporting_line lastEdge) (supporting_line e)
  | _, _ => false
  end.

Definition verticesToRemove (boundary : Polygon) : list nat :=
  let edgeCount := length boundary in
  List.filter (sameSupportingLine boundary) (seq 1 (edgeCount - 1)).

Definition simplifyPolygon (poly : PolygonWithHoles) : PolygonWithHoles * bool :=
  let boundary := outer_boundary poly in
  let toRemove := verticesToRemove boundary in
  ({| outer_boundary := foldr delete boundary toRemove; holes := holes poly |},
   negb (bool_decide (toRemove = []))).

(** [simplifyPolygons]: each color's set is rebuilt from the simplified
    polygons when one of them changed. *)
Definition simplifyPolygonSet (ps : PolygonSet) : PolygonSet :=
  if bool_decide (ps = []) then ps
  else
    let polys := simplifyPolygon <$> ps in
    let simplified := existsb snd polys in
    if simplified then fst <$> polys else ps.

Definition simplifyPolygons (td : TriangleDetail) : TriangleDetail :=
  set_polys td (simplifyPolygonSet <$> mColoredPolys td) (mColorChanged td).

(** [updatePolysFromTriangles]. *)
Definition polygonsByColor (tris : list DataTriangle) (exact : list Triangle2)
    : gmap nat (list Polygon) :=
  foldl (λ m '(tri, e),
           <[Geo.dtColor tri := default [] (m !! Geo.dtColor tri)
                                 ++ [polygonFromTriangle e]]> m)
        ∅ (zip tris exact).

Definition updatePolysFromTriangles (td : TriangleDetail) : option TriangleDetail :=
  guard (length (mTriangles td) = length (mTrianglesExact td));;
  Some (set_polys td
          (ps_join_range <$> polygonsByColor (mTriangles td) (mTrianglesExact td))
          false).

(** [addTrianglesFromPolygon]. *)
Definition constrain (ct : ConstrainedTriangulation) (boundary : Polygon)
    : ConstrainedTriangulation :=
  foldl (λ ct e, insert_constraint ct e.1 e.2) ct (edges boundary).

Definition triangulate (poly : PolygonWithHoles) : ConstrainedTriangulation :=
  foldl constrain (constrain ct_empty (outer_boundary poly)) (holes poly).

Definition newTriangle (a b c normal : vec3) (color : nat) : DataTriangle :=
  {| Geo.dtTri := (a, b, c); Geo.dtNormal := normal; Geo.dtColor := color |}.

(** The body of the loop over the finite faces, for one face. *)
Definition addFace (color : nat) (td : TriangleDetail) (f : Face) : TriangleDetail :=
  match face_points f with
  | None => td
  | Some (p0, p1, p2) =>
      if inDomain f then
        let a := toGlmVec (to_3d (mOriginalPlane td) p0) in
        let b := toGlmVec (to_3d (mOriginalPlane td) p1) in
        let c := toGlmVec (to_3d (mOriginalPlane td) p2) in
        let normal := Geo.dtNormal (mOriginal td) in
        if positive_area a b c then
          let tri :=
            if faces_away normal a b c then newTriangle a c b normal defaultColor
            else newTriangle a b c normal color in
          set_triangles td (mTriangles td ++ [tri])
            (mTrianglesExact td ++ [(p0, p1, p2)])
        else td
      else td
  end.

Definition addTrianglesFromPolygon (poly : PolygonWithHoles) (color : nat)
    (td : TriangleDetail) : option TriangleDetail :=
  ct ← markDomains (triangulate poly);
  Some (foldl (addFace color) td (ct_faces ct)).

(** [updateTrianglesFromPolygons]. *)
Definition addTrianglesFromSet (td : option TriangleDetail)
    (entry : nat * PolygonSet) : option TriangleDetail :=
  if bool_decide (entry.2 = []) then td
  else foldl (λ td poly, td ≫= addTrianglesFromPolygon poly entry.1) td entry.2.

Definition updateTrianglesFromPolygons (td : TriangleDetail) : option TriangleDetail :=
  td' ← foldl addTrianglesFromSet (Some (set_triangles td [] []))
          (entries (mColoredPolys td));
  guard (length (mTriangles td') = length (mTrianglesExact td'));;
  Some td'.

(** [addPolygon]. *)
Definition addPolygon (poly : Polygon) (color : nat) (td : TriangleDetail)
    : option TriangleDetail :=
  let addedShape := ps_intersection (PolygonSet_of poly) (mBounds td) in
  td1 ← (if mColorChanged td then updatePolysFromTriangles td else Some td);
  let joined := ps_join (default [] (mColoredPolys td1 !! color)) addedShape in
  let polys :=
    map_imap (λ c ps, Some (if decide (c ≠ color)
                            then ps_difference ps addedShape else ps))
             (<[color := joined]> (mColoredPolys td1)) in
  updateTrianglesFromPolygons
    (simplifyPolygons (set_polys td1 polys (mColorChanged td1))).

(** [getCircleSharedPoints]. *)
Definition vertexOf (tri : DataTriangle) (i : nat) : vec3 := get3 (Geo.dtTri tri) i.

Definition circleAngle (td : TriangleDetail) (circle : Circle3) (worldPoint : Point3)
    : float :=
  let angle := atan2_on_circle (mOriginalPlane td) circle worldPoint in
  if (angle <? 0)%float then (angle + 2 * pi)%float else angle.

Definition edgeSharedPoints (td : TriangleDetail) (circle : Circle3) (i : nat)
    : list (Point2 * float) :=
  let sphere := {| sphere_center := circle_center circle;
                   sphere_squared_radius := circle_squared_radius circle |} in
  let v0 := toExactK (vertexOf (mOriginal td) i) in
  let v1 := toExactK (vertexOf (mOriginal td) (S i `mod` 3)) in
  let '(v0, v1) := if point3_ge v0 v1 then (v1, v0) else (v0, v1) in
  (λ worldPoint, (to_2d (mOriginalPlane td) worldPoint,
                  circleAngle td circle worldPoint))
    <$> sphere_line_points sphere v0 v1.

Definition getCircleSharedPoints (td : TriangleDetail) (circle : Circle3)
    : list (Point2 * float) :=
  sortByAngle (flat_map (edgeSharedPoints td circle) [0; 1; 2]%nat).

(** [polygonFromCircle], with its four assertions. *)
Definition polygonFromCircle (td : TriangleDetail) (circle : Circle3)
    : option Polygon :=
  let radius := PrimFloat.sqrt (to_double (circle_squared_radius circle)) in
  let vertexCount :=
    Nat.max (size_t_of_double (radius * VERTICES_PER_UNIT_CIRCLE)%float)
            MIN_VERTICES_IN_CIRCLE in
  guard (orthogonal_bases (mOriginalPlane td) = true);;
  let pgn :=
    circlePolygon
      (λ coord, to_2d (mOriginalPlane td)
                  (circle_sample (mOriginalPlane td) circle radius coord))
      vertexCount (getCircleSharedPoints td circle) in
  guard (is_simple pgn = true);;
  guard (is_counterclockwise_oriented pgn = true);;
  guard (is_convex pgn = true);;
  Some pgn.

(** [addCircle]. *)
Definition addCircle (circle : Circle3) (color : nat) (td : TriangleDetail)
    : option TriangleDetail :=
  circlePoly ← polygonFromCircle td circle;
  addPolygon circlePoly color td.

(** Modelled from the spec: [SphereIntersectionVisitor] is declared in
    TriangleDetail.h, which is not among the sources.  The intersection of
    a sphere and a plane is a circle or a point; the visitor yields the
    circle, and nothing for a point. *)
Definition SphereIntersectionVisitor (i : Point3 + Circle3) : option Circle3 :=
  match i with
  | inl _ => None
  | inr circle => Some circle
  end.

(** [paintSphere]. *)
Definition paintSphere (peprSphere : PeprSphere) (color : nat)
    (td : TriangleDetail) : option TriangleDetail :=
  let sphere := {| sphere_center := toExactK (pepr_center peprSphere);
                   sphere_squared_radius := pepr_squared_radius peprSphere |} in
  match intersection_sphere_plane sphere (mOriginalPlane td) with
  | None => Some td
  | Some intersection =>
      match SphereIntersectionVisitor intersection with
      | Some circle =>
          poly ← polygonFromCircle td circle;
          addPolygon poly color td
      | None => Some td
      end
  end.

(** [findSharedEdge]: the two corners the triangles have in common, in the
    order the loops meet them; anything but two is an assertion failure. *)
Definition Segment3 : Type := Point3 * Point3.

Definition findSharedEdge (td other : TriangleDetail) : option Segment3 :=
  let commonPoints :=
    i ← [0; 1; 2]%nat;
    j ← [0; 1; 2]%nat;
    if decide (vertexOf (mOriginal td) i = vertexOf (mOriginal other) j)
    then [vertexOf (mOriginal td) i] else [] in
  match commonPoints with
  | [p0; p1] => Some (toExactK p0, toExactK p1)
  | _ => None
  end.

(** The vertices of all outer boundaries, color by color. *)
Definition outerVertices (td : TriangleDetail) : list Point2 :=
  entry ← entries (mColoredPolys td);
  poly ← entry.2;
  outer_boundary poly.

(** [findPointsOnEdge]. *)
Definition edgeLine (td : TriangleDetail) (e : Segment3) : Line2 :=
  line_from_points (to_2d (mOriginalPlane td) e.1) (to_2d (mOriginalPlane td) e.2).

Definition findPointsOnEdge (td : TriangleDetail) (e : Segment3) : gset Point3 :=
  list_to_set
    (to_3d (mOriginalPlane td)
       <$> filter (λ v, Line2_has_on (edgeLine td e) v = true) (outerVertices td)).

(** A [std::set<Point3>] is walked in the order of its points. *)
Definition point3_le (p q : Point3) : Prop := point3_ge q p = true.

#[export] Instance point3_le_dec (p q : Point3) : Decision (point3_le p q).
Proof. unfold point3_le. apply _. Defined.

Definition sortedPoints (points : gset Point3) : list Point3 :=
  merge_sort point3_le (elements points).

(** [addMissingPoints]: the loop over the vertices of one outer boundary.
    [vert] is the position of [vertIt]; the loop ends when it reaches the
    end of the boundary or no point is left.  A point found on the edge
    from [vertIt] to its successor is inserted before the successor, and
    [vertIt] stays on the vertex it was on. *)
Fixpoint splitEdges (fuel : nat) (sharedEdge2D : Segment2) (poly : Polygon)
    (vert : nat) (points2D : list Point2) : option (Polygon * list Point2) :=
  match fuel with
  | O => None
  | S fuel' =>
      if decide (length poly ≤ vert)%nat then Some (poly, points2D)
      else if decide (points2D = []) then Some (poly, points2D)
      else
        let next := if decide (S vert < length poly)%nat then S vert else 0%nat in
        v ← poly !! vert;
        n ← poly !! next;
        if Segment2_has_on sharedEdge2D v && Segment2_has_on sharedEdge2D n then
          match list_find (λ pt, Segment2_has_on (v, n) pt = true) points2D with
          | Some (k, pt) =>
              let poly' := take next poly ++ pt :: drop next poly in
              let vert' := if decide (next = 0)%nat then (length poly' - 1)%nat
                           else (next - 1)%nat in
              splitEdges fuel' sharedEdge2D poly' vert' (delete k points2D)
          | None => splitEdges fuel' sharedEdge2D poly (S vert) points2D
          end
        else splitEdges fuel' sharedEdge2D poly (S vert) points2D
  end.

(** Each turn of the loop moves [vertIt] on or takes a point away. *)
Definition splitFuel (poly : Polygon) (points2D : list Point2) : nat :=
  (2 * length points2D + length poly + 1)%nat.

Definition splitPolygon (sharedEdge2D : Segment2) (poly : PolygonWithHoles)
    (points2D : list Point2) : option (PolygonWithHoles * list Point2) :=
  '(boundary, points2D') ←
    splitEdges (splitFuel (outer_boundary poly) points2D) sharedEdge2D
               (outer_boundary poly) 0 points2D;
  Some ({| outer_boundary := boundary; holes := holes poly |}, points2D').

Fixpoint splitPolygons (sharedEdge2D : Segment2) (polys : PolygonSet)
    (points2D : list Point2) : option (PolygonSet * list Point2) :=
  match polys with
  | [] => Some ([], points2D)
  | poly :: polys' =>
      '(poly', points2D') ← splitPolygon sharedEdge2D poly points2D;
      '(polys'', points2D'') ← splitPolygons sharedEdge2D polys' points2D';
      Some (poly' :: polys'', points2D'')
  end.

Definition splitColor (sharedEdge2D : Segment2)
    (st : option (gmap nat PolygonSet * list Point2)) (entry : nat * PolygonSet)
    : option (gmap nat PolygonSet * list Point2) :=
  '(colored, points2D) ← st;
  '(polys, points2D') ← splitPolygons sharedEdge2D entry.2 points2D;
  Some (<[entry.1 := polys]> colored, points2D').

(** The loop over the colors: the partition with the points put on its
    edges, and the points that found no edge. *)
Definition splitColors (sharedEdge2D : Segment2) (colored : gmap nat PolygonSet)
    (points2D : list Point2) : option (gmap nat PolygonSet * list Point2) :=
  foldl (splitColor sharedEdge2D) (Some (colored, points2D)) (entries colored).

Definition missingPoints2D (td : TriangleDetail) (myPoints theirPoints : gset Point3)
    : list Point2 :=
  to_2d (mOriginalPlane td) <$> sortedPoints (theirPoints ∖ myPoints).

Definition sharedEdge2D (td : TriangleDetail) (sharedEdge : Segment3) : Segment2 :=
  (to_2d (mOriginalPlane td) sharedEdge.1, to_2d (mOriginalPlane td) sharedEdge.2).

Definition addMissingPoints (td : TriangleDetail) (myPoints theirPoints : gset Point3)
    (sharedEdge : Segment3) : option (TriangleDetail * bool) :=
  let missingPoints := sortedPoints (theirPoints ∖ myPoints) in
  if decide (missingPoints = []) then Some (td, false)
  else
    '(colored, points2D') ←
      splitColors (sharedEdge2D td sharedEdge) (mColoredPolys td)
                  (missingPoints2D td myPoints theirPoints);
    guard (points2D' = []);;
    Some (set_polys td colored (mColorChanged td), true).

(** [correctSharedVertices]. *)
Definition correctSharedVertices (td other : TriangleDetail)
    : option (TriangleDetail * TriangleDetail * (bool * bool)) :=
  sharedEdge ← findSharedEdge td other;
  let myPoints := findPointsOnEdge td sharedEdge in
  guard (2 ≤ size myPoints)%nat;;
  let theirPoints := findPointsOnEdge other sharedEdge in
  guard (2 ≤ size theirPoints)%nat;;
  '(td', myPointsAdded) ← addMissingPoints td myPoints theirPoints sharedEdge;
  '(other', otherPointsAdded) ←
    addMissingPoints other theirPoints myPoints sharedEdge;
  Some (td', other', (myPointsAdded, otherPointsAdded)).

(** A sequence of calls of [addPolygon] and [addCircle] on one detail. *)
Inductive Stroke :=
  | StrokePolygon (poly : Polygon) (color : nat)
  | StrokeCircle (circle : Circle3) (color : nat).

Definition paint (td : option TriangleDetail) (stroke : Stroke)
    : option TriangleDetail :=
  match stroke with
  | StrokePolygon poly color => td ≫= addPolygon poly color
  | StrokeCircle circle color => td ≫= addCircle circle color
  end.

Definition paintAll (strokes : list Stroke) (td : TriangleDetail)
    : option TriangleDetail :=
  foldl paint (Some td) strokes.

(** The claim on [simplifyPolygons] as the specification states it: on
    every stored boundary, outer or hole, no two consecutive edges (the last
    and the first included) lie on one supporting line. *)
Definition cornerStraight (boundary : Polygon) (j : nat) : bool :=
  match edge boundary ((j + length boundary - 1) `mod` length boundary),
        edge boundary j with
  | Some lastEdge, Some e =>
      Line2_equal (supporting_line lastEdge) (supporting_line e)
  | _, _ => false
  end.

Definition boundaries (poly : PolygonWithHoles) : list Polygon :=
  outer_boundary poly :: holes poly.

Definition fully_simplified (td : TriangleDetail) : Prop :=
  ∀ color ps poly boundary j,
    mColoredPolys td !! color = Some ps → poly ∈ ps →
    boundary ∈ boundaries poly → (j < length boundary)%nat →
    cornerStraight boundary j = false.

(** No stored outer boundary has an edge of length zero. *)
Definition same_point (p q : Point2) : bool :=
  Qeq_bool (x p) (x q) && Qeq_bool (y p) (y q).

Fixpoint distinct_neighbours (first : Point2) (l : list Point2) : bool :=
  match l with
  | [] => true
  | p :: tl => negb (same_point p (hd first tl)) && distinct_neighbours first tl
  end.

Definition nondegenerate (boundary : Polygon) : bool :=
  match boundary with
  | [] => true
  | first :: _ => distinct_neighbours first boundary
  end.

Definition outer_boundaries_nondegenerate (td : TriangleDetail) : bool :=
  forallb (λ entry, forallb (λ poly, nondegenerate (outer_boundary poly)) entry.2)
          (map_to_list (mColoredPolys td)).

End detail.

Arguments TriangleDetail : clear implicits.
Arguments Sphere : clear implicits.
Arguments Circle3 : clear implicits.
Arguments PeprSphere : clear implicits.
Arguments External : clear implicits.

(** *** The simplification, vertex by vertex *)

Definition straight (p q r : Point2) : bool :=
  Line2_equal (line_from_points p q) (line_from_points q r).

Fixpoint straighten (first prev : Point2) (l : list Point2) : list Point2 :=
  match l with
  | [] => []
  | q :: tl =>
      if straight prev q (hd first tl) then straighten first q tl
      else q :: straighten first q tl
  end.

Fixpoint indices_of (off : nat) (mask : list bool) : list nat :=
  match mask with
  | [] => []
  | b :: mask' => (if b then [off] else []) ++ indices_of (S off) mask'
  end.

Fixpoint mask_delete {A} (mask : list bool) (l : list A) : list A :=
  match mask, l with
  | b :: mask', x :: l' =>
      if b then mask_delete mask' l' else x :: mask_delete mask' l'
  | _, _ => l
  end.

Lemma filter_seq_indices (f : nat → bool) (a k : nat) :
  List.filter f (seq a k) = indices_of a (f <$> seq a k).
Proof.
  revert a. induction k as [|k IH]; intros a; simpl; [done|].
  rewrite IH. by destruct (f a).
Qed.

Lemma foldr_delete_indices {A} (pfx l : list A) (mask : list bool) :
  length mask = length l →
  foldr delete (pfx ++ l) (indices_of (length pfx) mask)
  = pfx ++ mask_delete mask l.
Proof.
  revert pfx l. induction mask as [|b mask IH]; intros pfx l Hlen; simpl; [done|].
  destruct l as [|x l]; simpl in Hlen; [lia|].
  rewrite foldr_app.
  specialize (IH (pfx ++ [x]) l). rewrite length_app in IH. simpl in IH.
  rewrite Nat.add_1_r, <- app_assoc in IH. simpl in IH. rewrite IH by lia.
  rewrite <- app_assoc. simpl. destruct b; simpl; [|done].
  by rewrite delete_middle.
Qed.

(** The vertices [simplifyPolygon] keeps, read off along the boundary. *)
Lemma lookup_mod_wrap (first : Point2) (pfx tl : list Point2) (q : Point2) :
  hd first (pfx ++ q :: tl) = first →
  (pfx ++ q :: tl) !! (S (length pfx) `mod` length (pfx ++ q :: tl))%nat
  = Some (hd first tl).
Proof.
  intros Hfirst. rewrite length_app. simpl.
  destruct tl as [|r tl]; simpl.
  - rewrite Nat.add_1_r, Nat.Div0.mod_same.
    destruct pfx as [|p pfx]; simpl in *; by subst.
  - rewrite Nat.mod_small by lia.
    rewrite lookup_app_r by lia.
    replace (S (length pfx) - length pfx)%nat with 1%nat by lia. done.
Qed.

Lemma sameSupportingLine_straight (first prev q : Point2) (pfx tl : list Point2) :
  hd first (pfx ++ prev :: q :: tl) = first →
  sameSupportingLine (pfx ++ prev :: q :: tl) (S (length pfx))
  = straight prev q (hd first tl).
Proof.
  intros Hfirst. unfold sameSupportingLine, edge.
  set (b := pfx ++ prev :: q :: tl).
  assert (length b = length pfx + S (S (length tl)))%nat as Hlen.
  { unfold b. rewrite length_app. done. }
  replace (S (length pfx) - 1)%nat with (length pfx) by lia.
  assert (b !! length pfx = Some prev) as Hp by (by apply list_lookup_middle).
  rewrite Hp. simpl.
  assert (b !! S (length pfx) = Some q) as Hq.
  { unfold b. rewrite (cons_middle prev), app_assoc.
    apply list_lookup_middle. rewrite length_app. simpl. lia. }
  rewrite (Nat.mod_small (S (length pfx))) by lia. rewrite Hq. simpl.
  assert (b !! (S (S (length pfx)) `mod` length b)%nat = Some (hd first tl)) as Hr.
  { unfold b. rewrite (cons_middle prev), app_assoc.
    replace (S (length pfx)) with (length (pfx ++ [prev])) at 1
      by (rewrite length_app; simpl; lia).
    apply lookup_mod_wrap. by rewrite <- app_assoc. }
  rewrite Hr. done.
Qed.

Lemma mask_delete_straighten (first prev : Point2) (pfx l : list Point2) :
  hd first (pfx ++ prev :: l) = first →
  mask_delete (sameSupportingLine (pfx ++ prev :: l) <$> seq (S (length pfx)) (length l)) l
  = straighten first prev l.
Proof.
  revert pfx prev. induction l as [|q tl IH]; intros pfx prev Hfirst; simpl; [done|].
  rewrite (sameSupportingLine_straight first) by done.
  specialize (IH (pfx ++ [prev]) q).
  rewrite <- app_assoc, length_app in IH. simpl in IH.
  rewrite Nat.add_1_r in IH. specialize (IH Hfirst).
  change (list_fmap nat bool ?f ?l) with (f <$> l). rewrite IH. done.
Qed.

Lemma simplifyPolygon_straighten (first : Point2) (rest : list Point2)
    (hs : list Polygon) :
  outer_boundary
    (simplifyPolygon {| outer_boundary := first :: rest; holes := hs |}).1
  = first :: straighten first first rest.
Proof.
  unfold simplifyPolygon, verticesToRemove. simpl.
  rewrite Nat.sub_0_r, filter_seq_indices.
  change (first :: rest) with ([first] ++ rest) at 1.
  change 1%nat with (length [first]) at 1.
  rewrite foldr_delete_indices by (by rewrite length_fmap, length_seq).
  simpl. f_equal.
  by apply (mask_delete_straighten first first []).
Qed.

(** *** No straight corner is left *)

Fixpoint straight_free (first : Point2) (l : list Point2) : Prop :=
  match l with
  | p :: tl =>
      match tl with
      | q :: tl' => straight p q (hd first tl') = false ∧ straight_free first tl
      | [] => True
      end
  | [] => True
  end.

Lemma same_point_null (p q : Point2) :
  same_point p q = false ↔ ¬ null (vec p q).
Proof.
  unfold same_point, null, vec, x, y. simpl.
  rewrite andb_false_iff. split.
  - intros [Hx|Hy] [H1 H2].
    + apply Qeq_bool_neq in Hx. apply Hx. lra.
    + apply Qeq_bool_neq in Hy. apply Hy. lra.
  - intros H.
    destruct (Qeq_bool p.1 q.1) eqn:Ex; [|by left].
    destruct (Qeq_bool p.2 q.2) eqn:Ey; [|by right].
    apply Qeq_bool_iff in Ex, Ey. exfalso. apply H. split; lra.
Qed.

Lemma straight_sd (p q r : Point2) :
  ¬ null (vec p q) → straight p q r = true ↔ sd (vec p q) (vec q r).
Proof.
  intros Hn. apply Line2_equal_consecutive. unfold null in Hn.
  destruct (Qeq_dec' (vec p q).1); [right|left]; tauto.
Qed.

Lemma not_straight (p q r : Point2) :
  ¬ null (vec p q) → ¬ sd (vec p q) (vec q r) → straight p q r = false.
Proof.
  intros Hn Hsd. destruct (straight p q r) eqn:E; [|done].
  by apply straight_sd in E.
Qed.

Lemma straighten_straight_free (first : Point2) (l : list Point2) :
  ∀ (prev k : Point2) (okp : option Point2),
    distinct_neighbours first (prev :: l) = true →
    sd (vec k (hd first l)) (vec prev (hd first l)) →
    (∀ kp, okp = Some kp →
       ¬ sd (vec kp k) (vec k (hd first l)) ∧ ¬ null (vec kp k)) →
    straight_free first (option_list okp ++ k :: straighten first prev l).
Proof.
  induction l as [|q tl IH]; intros prev k okp Hnd HI HA.
  - destruct okp as [kp|]; simpl; [|done].
    destruct (HA kp eq_refl) as [Hns Hnn]. split; [|done].
    by apply not_straight.
  - simpl in Hnd. apply andb_true_iff in Hnd as [Hpq Hnd].
    apply negb_true_iff, same_point_null in Hpq. simpl in HI, HA, Hpq.
    cbn [straighten].
    destruct (straight prev q (hd first tl)) eqn:Hs.
    + apply straight_sd in Hs; [|done].
      destruct (sd_extend _ _ _ _ HI Hs) as [HI' Hkr].
      apply IH; [done|done|].
      intros kp ->. destruct (HA kp eq_refl) as [Hns Hnn]. split; [|done].
      intros Hsd. apply Hns.
      eapply sd_trans; [done|]. by apply sd_sym.
    + assert (straight_free first (k :: q :: straighten first q tl)) as Hrest.
      { apply (IH q q (Some k)); [done| |].
        - apply sd_refl. simpl in Hnd. apply andb_true_iff in Hnd as [Hqr _].
          by apply negb_true_iff, same_point_null in Hqr.
        - intros ? [= <-]. split; [|by apply (sd_not_null _ _ HI)].
          intros Hsd.
          assert (straight prev q (hd first tl) = true); [|congruence].
          apply straight_sd; [done|].
          eapply sd_trans; [|done]. by apply sd_sym. }
      destruct okp as [kp|]; [|done].
      destruct (HA kp eq_refl) as [Hns Hnn].
      split; [|done]. by apply not_straight.
Qed.

(** In the index form of the source. *)
Lemma straight_free_lookup (first : Point2) (pfx l : list Point2) (j : nat) :
  hd first (pfx ++ l) = first →
  straight_free first l →
  (length pfx < j < length (pfx ++ l))%nat →
  sameSupportingLine (pfx ++ l) j = false.
Proof.
  revert pfx. induction l as [|p tl IH]; intros pfx Hfirst Hfree Hj.
  - rewrite app_nil_r in Hj. lia.
  - destruct tl as [|q tl'].
    { rewrite length_app in Hj. simpl in Hj. lia. }
    destruct Hfree as [Hs Hfree].
    destruct (decide (j = S (length pfx))) as [->|Hne].
    + by rewrite (sameSupportingLine_straight first).
    + rewrite (cons_middle p), app_assoc.
      apply IH; [by rewrite <- app_assoc|done|].
      rewrite <- app_assoc. simpl.
      rewrite !length_app in *. simpl in *. lia.
Qed.

Theorem simplifyPolygon_no_straight_corner (poly : PolygonWithHoles) (j : nat) :
  nondegenerate (outer_boundary poly) = true →
  let boundary := outer_boundary (simplifyPolygon poly).1 in
  (1 ≤ j < length boundary)%nat →
  sameSupportingLine boundary j = false.
Proof.
  destruct poly as [[|first rest] hs]; simpl.
  { intros _ ?. lia. }
  intros Hnd Hj.
  change (foldr delete (first :: rest) (verticesToRemove (first :: rest)))
    with (outer_boundary (simplifyPolygon
            {| outer_boundary := first :: rest; holes := hs |}).1) in *.
  rewrite simplifyPolygon_straighten in *.
  apply (straight_free_lookup first []); [done| |simpl in *; lia].
  apply (straighten_straight_free first rest first first None); [done| |done].
  apply sd_refl. simpl in Hnd. apply andb_true_iff in Hnd as [Hn _].
  by apply negb_true_iff, same_point_null in Hn.
Qed.


(** *** [markDomains] runs to its end *)

Definition same_shape (f g : Face) : Prop :=
  face_points g = face_points f ∧ face_neighbor g = face_neighbor f ∧
  face_constrained g = face_constrained f.

(** From [ct] to [ct'] faces were only marked: a face keeps its level, or
    had none and got one that is not negative. *)
Definition marked_more (ct ct' : ConstrainedTriangulation) : Prop :=
  infinite_face ct' = infinite_face ct ∧
  Forall2 (λ f f', same_shape f f' ∧
                   (nestingLevel f' = nestingLevel f ∨
                    (nestingLevel f = -1 ∧ 0 ≤ nestingLevel f')))
          (ct_faces ct) (ct_faces ct').

Definition unmarked (fs : list Face) : nat :=
  length (List.filter (λ f, bool_decide (nestingLevel f = -1)) fs).

Definition valid (ct : ConstrainedTriangulation) : Prop :=
  (infinite_face ct < length (ct_faces ct))%nat ∧
  ∀ fh f i, ct_faces ct !! fh = Some f → (i < 3)%nat →
    (get3 (face_neighbor f) i < length (ct_faces ct))%nat.

Lemma ct_valid_valid (ct : ConstrainedTriangulation) :
  ct_valid ct = true → valid ct.
Proof.
  unfold ct_valid, valid.
  intros [Hinf Hfaces]%andb_true_iff. split; [by apply bool_decide_eq_true in Hinf|].
  intros fh f i Hf Hi. rewrite forallb_forall in Hfaces.
  assert (face_valid (length (ct_faces ct)) f = true) as Hv.
  { apply Hfaces, list_elem_of_In, list_elem_of_lookup. eauto. }
  unfold face_valid in Hv. simpl in Hv.
  rewrite !andb_true_iff, !bool_decide_eq_true in Hv.
  destruct i as [|[|[|]]]; simpl; try lia; tauto.
Qed.

Lemma marked_more_refl (ct : ConstrainedTriangulation) : marked_more ct ct.
Proof.
  split; [done|]. apply Forall2_same_length_lookup. split; [done|].
  intros i f f' Hf Hf'. rewrite Hf in Hf'. injection Hf' as <-.
  split; [done|by left].
Qed.

Lemma marked_more_trans (ct1 ct2 ct3 : ConstrainedTriangulation) :
  marked_more ct1 ct2 → marked_more ct2 ct3 → marked_more ct1 ct3.
Proof.
  intros [Hi1 H1] [Hi2 H2]. split; [congruence|].
  revert H2. generalize (ct_faces ct3). induction H1 as [|f1 f2 l1 l2 Hf _ IH];
    intros l3 H2; inversion H2 as [|? f3 ? l3' Hf' H2']; subst; constructor; [|by apply IH].
  destruct Hf as [(?&?&?) Hl], Hf' as [(?&?&?) Hl'].
  split; [unfold same_shape; split_and!; congruence|]. lia.
Qed.

Lemma marked_more_length (ct ct' : ConstrainedTriangulation) :
  marked_more ct ct' → length (ct_faces ct') = length (ct_faces ct).
Proof. intros [_ HF]. symmetry. by eapply Forall2_length. Qed.

Lemma marked_more_lookup (ct ct' : ConstrainedTriangulation) (fh : nat) (f : Face) :
  marked_more ct ct' → ct_faces ct !! fh = Some f →
  ∃ f', ct_faces ct' !! fh = Some f' ∧ same_shape f f' ∧
        (nestingLevel f' = nestingLevel f ∨
         (nestingLevel f = -1 ∧ 0 ≤ nestingLevel f')).
Proof.
  intros [_ HF] Hf. destruct (Forall2_lookup_l _ _ _ _ _ HF Hf) as (f' & ? & ?).
  eauto.
Qed.

Lemma marked_more_valid (ct ct' : ConstrainedTriangulation) :
  marked_more ct ct' → valid ct → valid ct'.
Proof.
  intros Hm [Hinf Hn]. pose proof (marked_more_length _ _ Hm) as Hlen.
  split; [rewrite Hlen; by rewrite (proj1 Hm)|].
  intros fh f' i Hf' Hi. rewrite Hlen.
  destruct Hm as [_ HF].
  destruct (Forall2_lookup_r _ _ _ _ _ HF Hf') as (f & Hf & (_ & Hnb & _) & _).
  rewrite Hnb. by eapply Hn.
Qed.

Lemma unmarked_alter (fs : list Face) (fh : nat) (f : Face) (index : Z) :
  fs !! fh = Some f → nestingLevel f = -1 → index ≠ -1 →
  S (unmarked (alter (set_level index) fh fs)) = unmarked fs.
Proof.
  unfold unmarked. revert fh. induction fs as [|g fs IH]; intros [|fh] Hf Hl Hi;
    simpl in *; try done.
  - injection Hf as ->. rewrite Hl.
    rewrite (bool_decide_eq_false_2 (index = -1)) by done.
    rewrite (bool_decide_eq_true_2 (-1 = -1)) by done. done.
  - specialize (IH fh Hf Hl Hi).
    change (list_alter ?f ?i ?l) with (alter f i l).
    destruct (bool_decide (nestingLevel g = -1)); simpl; lia.
Qed.

Lemma marked_more_alter (ct : ConstrainedTriangulation) (fh : nat) (f : Face)
    (index : Z) :
  ct_faces ct !! fh = Some f → nestingLevel f = -1 → 0 ≤ index →
  marked_more ct (set_faces ct (alter (set_level index) fh (ct_faces ct))).
Proof.
  intros Hf Hl Hi. split; [done|]. simpl.
  apply Forall2_same_length_lookup. split; [by rewrite length_alter|].
  intros i g g' Hg Hg'.
  destruct (decide (i = fh)) as [->|Hne].
  - rewrite list_lookup_alter_eq, Hg in Hg'. simpl in Hg'. injection Hg' as <-.
    rewrite Hf in Hg. injection Hg as <-. split; [done|]. right. done.
  - rewrite list_lookup_alter_ne, Hg in Hg' by done. injection Hg' as <-.
    split; [done|by left].
Qed.

(** The marks on the border: every edge of the border belongs to a marked
    face of the triangulation. *)
Definition border_ok (ct : ConstrainedTriangulation) (border : list Edge) : Prop :=
  ∀ e, e ∈ border → (e.2 < 3)%nat ∧
    ∃ f, ct_faces ct !! e.1 = Some f ∧ 0 ≤ nestingLevel f.

Lemma border_ok_marked_more (ct ct' : ConstrainedTriangulation) (border : list Edge) :
  marked_more ct ct' → border_ok ct border → border_ok ct' border.
Proof.
  intros Hm Hb e He. destruct (Hb e He) as (Hi & f & Hf & Hl).
  split; [done|].
  destruct (marked_more_lookup _ _ _ _ Hm Hf) as (f' & Hf' & _ & Hl').
  exists f'. split; [done|]. lia.
Qed.

Lemma markEdges_Some (ct : ConstrainedTriangulation) (fh : nat) (f : Face)
    (queue : list nat) (border : list Edge) :
  valid ct → ct_faces ct !! fh = Some f → 0 ≤ nestingLevel f →
  (∀ n, n ∈ queue → (n < length (ct_faces ct))%nat) →
  border_ok ct border →
  ∃ queue' border',
    foldl (markEdge ct fh) (Some (queue, border)) [0; 1; 2]%nat
    = Some (queue', border') ∧
    (∀ n, n ∈ queue' → (n < length (ct_faces ct))%nat) ∧
    border_ok ct border' ∧
    (length queue' ≤ length queue + 3)%nat ∧
    (length border' ≤ length border + 3)%nat.
Proof.
  intros Hv Hf Hl Hq Hb.
  assert (∀ (idx : list nat) queue border,
    (∀ i, i ∈ idx → (i < 3)%nat) →
    (∀ n, n ∈ queue → (n < length (ct_faces ct))%nat) →
    border_ok ct border →
    ∃ queue' border',
      foldl (markEdge ct fh) (Some (queue, border)) idx = Some (queue', border') ∧
      (∀ n, n ∈ queue' → (n < length (ct_faces ct))%nat) ∧
      border_ok ct border' ∧
      (length queue' ≤ length queue + length idx)%nat ∧
      (length border' ≤ length border + length idx)%nat)
    as Hgen.
  { clear queue border Hq Hb.
    induction idx as [|i idx IH]; intros queue border His Hq Hb; cbn [foldl].
    { exists queue, border. split_and!; try done; simpl; lia. }
    assert (i < 3)%nat as Hi by (apply His; by left).
    pose proof (proj2 Hv fh f i Hf Hi) as Hn.
    destruct (lookup_lt_is_Some_2 _ _ Hn) as [g Hg].
    assert (markEdge ct fh (Some (queue, border)) i
            = Some (if decide (nestingLevel g = -1) then
                      if get3 (face_constrained f) i
                      then (queue, border ++ [(fh, i)])
                      else (queue ++ [get3 (face_neighbor f) i], border)
                    else (queue, border))) as ->.
    { unfold markEdge, levelOf. simpl. rewrite Hf. simpl. rewrite Hg. simpl.
      by repeat case_match. }
    assert (∀ i', i' ∈ idx → (i' < 3)%nat) as His'
      by (intros; apply His; by right).
    destruct (decide (nestingLevel g = -1)) as [Hlg|Hlg].
    - destruct (get3 (face_constrained f) i).
      + destruct (IH queue (border ++ [(fh, i)]) His' Hq) as (q' & b' & -> & ? & ? & Hlen & Hlen').
        { intros e [?|He]%elem_of_app; [by apply Hb|].
          apply list_elem_of_singleton in He as ->.
          simpl. split; [done|]. eauto. }
        exists q', b'. try rewrite length_app in Hlen. try rewrite length_app in Hlen'.
        simpl in Hlen, Hlen'.
        split_and!; try done; simpl; lia.
      + destruct (IH (queue ++ [get3 (face_neighbor f) i]) border His') as (q' & b' & -> & ? & ? & Hlen & Hlen').
        { intros n [?|Hn']%elem_of_app; [by apply Hq|].
          by apply list_elem_of_singleton in Hn' as ->. }
        { done. }
        exists q', b'. try rewrite length_app in Hlen. try rewrite length_app in Hlen'.
        simpl in Hlen, Hlen'.
        split_and!; try done; simpl; lia.
    - destruct (IH queue border His' Hq Hb) as (q' & b' & -> & ? & ? & Hlen & Hlen').
      exists q', b'. split_and!; try done; simpl; lia. }
  apply Hgen; try done.
  intros i Hi. rewrite !elem_of_cons, elem_of_nil in Hi. lia.
Qed.

(** The first loop: with fuel for three times the unmarked faces and the
    queue, it ends, marks faces with [index] only, and lengthens the border
    by at most three edges per face it marks. *)
Lemma markQueue_total (fuel : nat) (index : Z) :
  0 ≤ index →
  ∀ (ct : ConstrainedTriangulation) (queue : list nat) (border : list Edge),
    valid ct →
    (∀ n, n ∈ queue → (n < length (ct_faces ct))%nat) →
    border_ok ct border →
    (3 * unmarked (ct_faces ct) + length queue ≤ fuel)%nat →
    ∃ ct' border',
      markQueue fuel index ct queue border = Some (ct', border') ∧
      marked_more ct ct' ∧ border_ok ct' border' ∧
      (3 * unmarked (ct_faces ct') + length border'
       ≤ 3 * unmarked (ct_faces ct) + length border)%nat ∧
      (∀ fh f, head queue = Some fh → ct_faces ct !! fh = Some f →
               nestingLevel f = -1 →
               nestingLevel <$> ct_faces ct' !! fh = Some index).
Proof.
  intros Hindex. induction fuel as [|fuel IH]; intros ct queue border Hv Hq Hb Hfuel.
  - destruct queue as [|fh queue]; simpl in Hfuel; [|lia].
    exists ct, border. split_and!; try done; try apply marked_more_refl; try lia.
  - destruct queue as [|fh queue]; cbn [markQueue].
    { exists ct, border. split_and!; try done; try apply marked_more_refl; try lia. }
    simpl in Hfuel.
    assert (fh < length (ct_faces ct))%nat as Hfh by (apply Hq; by left).
    destruct (lookup_lt_is_Some_2 _ _ Hfh) as [f Hf].
    assert (levelOf ct fh = Some (nestingLevel f)) as -> by (unfold levelOf; by rewrite Hf).
    cbn [mbind option_bind].
    assert (∀ n, n ∈ queue → (n < length (ct_faces ct))%nat) as Hq'
      by (intros; apply Hq; by right).
    destruct (decide (nestingLevel f = -1)) as [Hl|Hl].
    + set (ct1 := set_faces ct (alter (set_level index) fh (ct_faces ct))).
      pose proof (marked_more_alter ct fh f index Hf Hl Hindex) as Hm1.
      fold ct1 in Hm1.
      pose proof (marked_more_valid _ _ Hm1 Hv) as Hv1.
      pose proof (marked_more_length _ _ Hm1) as Hlen1.
      assert (ct_faces ct1 !! fh = Some (set_level index f)) as Hf1.
      { unfold ct1. simpl. by rewrite list_lookup_alter_eq, Hf. }
      destruct (markEdges_Some ct1 fh _ queue border Hv1 Hf1)
        as (q2 & b2 & Hedges & Hq2 & Hb2 & Hlen2 & Hlen2'); try done.
      { intros n Hn. rewrite Hlen1. by apply Hq'. }
      { by eapply border_ok_marked_more. }
      rewrite Hedges. cbn [mbind option_bind].
      pose proof (unmarked_alter (ct_faces ct) fh f index Hf Hl ltac:(lia)) as Hu.
      change (alter (set_level index) fh (ct_faces ct)) with (ct_faces ct1) in Hu.
      destruct (IH ct1 q2 b2 Hv1 Hq2 Hb2) as (ct' & b' & Hrun & Hm & Hb' & Hpot & _).
      { lia. }
      exists ct', b'. split_and!; try done.
      * by eapply marked_more_trans.
      * lia.
      * intros fh' f' [= <-] Hf' _.
        destruct (marked_more_lookup _ _ _ _ Hm Hf1) as (g & -> & _ & Hlg).
        simpl in *. f_equal. lia.
    + destruct (IH ct queue border Hv Hq' Hb) as (ct' & b' & Hrun & Hm & Hb' & Hpot & _).
      { lia. }
      exists ct', b'. split_and!; try done.
      intros fh' f' [= <-] Hf'. rewrite Hf in Hf'. injection Hf' as <-. done.
Qed.

Lemma unmarked_le (fs : list Face) : (unmarked fs ≤ length fs)%nat.
Proof. unfold unmarked. apply List.filter_length_le. Qed.

Lemma markDomainsFrom_total (ct : ConstrainedTriangulation) (start : nat)
    (index : Z) (border : list Edge) :
  0 ≤ index → valid ct → (start < length (ct_faces ct))%nat →
  border_ok ct border →
  ∃ ct' border',
    markDomainsFrom ct start index border = Some (ct', border') ∧
    marked_more ct ct' ∧ border_ok ct' border' ∧
    (3 * unmarked (ct_faces ct') + length border'
     ≤ 3 * unmarked (ct_faces ct) + length border)%nat ∧
    (∀ f, ct_faces ct !! start = Some f → nestingLevel f = -1 →
          nestingLevel <$> ct_faces ct' !! start = Some index).
Proof.
  intros Hindex Hv Hstart Hb. unfold markDomainsFrom, levelOf.
  destruct (lookup_lt_is_Some_2 _ _ Hstart) as [f Hf]. rewrite Hf. simpl.
  destruct (decide (nestingLevel f ≠ -1)) as [Hl|Hl].
  - exists ct, border. split; [done|]. split; [apply marked_more_refl|].
    split; [done|]. split; [lia|]. intros f' [= <-] ?. done.
  - destruct (markQueue_total (markFuel ct) index Hindex ct [start] border Hv)
      as (ct' & b' & Hrun & Hm & Hb' & Hpot & Hstart'); try done.
    { intros n ->%list_elem_of_singleton. done. }
    { pose proof (unmarked_le (ct_faces ct)). unfold markFuel. simpl. lia. }
    exists ct', b'. split_and!; try done.
    intros f' [= <-] Hl'. by apply (Hstart' start f).
Qed.

Lemma markBorder_total (fuel : nat) :
  ∀ (ct : ConstrainedTriangulation) (border : list Edge),
    valid ct → border_ok ct border →
    (∀ f, f ∈ ct_faces ct → -1 ≤ nestingLevel f) →
    (3 * unmarked (ct_faces ct) + length border ≤ fuel)%nat →
    ∃ ct', markBorder fuel ct border = Some ct' ∧ marked_more ct ct'.
Proof.
  induction fuel as [|fuel IH]; intros ct border Hv Hb Hl Hfuel.
  - destruct border; simpl in *; [|lia].
    exists ct. split; [done|apply marked_more_refl].
  - destruct border as [|e border]; simpl in *.
    { exists ct. split; [done|apply marked_more_refl]. }
    destruct (Hb e) as (Hi & f & Hf & Hlf); [by left|].
    rewrite Hf. simpl.
    pose proof (proj2 Hv _ _ _ Hf Hi) as Hn.
    destruct (lookup_lt_is_Some_2 _ _ Hn) as [g Hg].
    unfold levelOf. rewrite Hg. simpl.
    assert (border_ok ct border) as Hb' by (intros e' ?; apply Hb; by right).
    destruct (decide (nestingLevel g = -1)).
    + destruct (markDomainsFrom_total ct (get3 (face_neighbor f) e.2)
                  (nestingLevel f + 1) border ltac:(lia) Hv Hn Hb')
        as (ct1 & b1 & Hrun & Hm & Hb1 & Hpot & _).
      rewrite Hrun. simpl.
      destruct (IH ct1 b1) as (ct' & Hrun' & Hm').
      * by eapply marked_more_valid.
      * done.
      * intros f1 Hf1. apply list_elem_of_lookup in Hf1 as [i Hf1].
        destruct Hm as [_ HF].
        destruct (Forall2_lookup_r _ _ _ _ _ HF Hf1) as (f0 & Hf0 & _ & Hl0).
        assert (-1 ≤ nestingLevel f0)
          by (apply Hl, list_elem_of_lookup; eauto).
        lia.
      * lia.
      * exists ct'. split; [done|]. by eapply marked_more_trans.
    + destruct (IH ct border Hv Hb' Hl) as (ct' & Hrun' & Hm'); [lia|].
      by exists ct'.
Qed.

(** [markDomains] on a valid triangulation ends; it changes the nesting
    levels only, gives the infinite face the level 0 and every face a level
    that is not below -1. *)
Lemma markDomains_total (ct : ConstrainedTriangulation) :
  ct_valid ct = true →
  ∃ ct', markDomains ct = Some ct' ∧
    Forall2 same_shape (ct_faces ct) (ct_faces ct') ∧
    nestingLevel <$> ct_faces ct' !! infinite_face ct = Some 0 ∧
    ∀ f, f ∈ ct_faces ct' → -1 ≤ nestingLevel f.
Proof.
  intros Hv%ct_valid_valid. unfold markDomains.
  set (ct0 := set_faces ct (set_level (-1) <$> ct_faces ct)).
  assert (valid ct0) as Hv0.
  { destruct Hv as [Hinf Hn]. split; simpl; rewrite length_fmap; [done|].
    intros fh f i Hf Hi. rewrite list_lookup_fmap in Hf.
    destruct (ct_faces ct !! fh) as [f0|] eqn:Hf0; [|done].
    injection Hf as <-. simpl. by eapply Hn. }
  assert (∀ f, f ∈ ct_faces ct0 → nestingLevel f = -1) as Hl0.
  { intros f (f0 & -> & _)%list_elem_of_fmap. done. }
  destruct (markDomainsFrom_total ct0 (infinite_face ct0) 0 [] ltac:(lia) Hv0)
    as (ct1 & b1 & Hrun & Hm & Hb1 & Hpot & Hinf).
  { apply Hv0. }
  { intros e []%elem_of_nil. }
  rewrite Hrun. simpl.
  assert (∀ f, f ∈ ct_faces ct1 → -1 ≤ nestingLevel f) as Hl1.
  { intros f1 Hf1. apply list_elem_of_lookup in Hf1 as [i Hf1].
    destruct Hm as [_ HF].
    destruct (Forall2_lookup_r _ _ _ _ _ HF Hf1) as (f0 & Hf0 & _ & Hl).
    assert (nestingLevel f0 = -1) by (apply Hl0, list_elem_of_lookup; eauto).
    lia. }
  destruct (markBorder_total (markFuel ct) ct1 b1) as (ct' & Hrun' & Hm').
  { by eapply marked_more_valid. }
  { done. }
  { done. }
  { pose proof (unmarked_le (ct_faces ct0)) as Hu. unfold ct0 in Hu at 2.
    simpl in Hu, Hpot. rewrite length_fmap in Hu. unfold markFuel. lia. }
  exists ct'. split; [done|].
  pose proof (marked_more_trans _ _ _ Hm Hm') as [_ HF].
  split_and!.
  - apply Forall2_same_length_lookup. split.
    { rewrite <- (Forall2_length _ _ _ HF). unfold ct0. simpl.
      by rewrite length_fmap. }
    intros i f f' Hf Hf'.
    destruct (Forall2_lookup_r _ _ _ _ _ HF Hf') as (f0 & Hf0 & (?&?&?) & _).
    unfold ct0 in Hf0. simpl in Hf0. rewrite list_lookup_fmap, Hf in Hf0.
    injection Hf0 as <-. simpl in *. done.
  - destruct (lookup_lt_is_Some_2 (ct_faces ct0) (infinite_face ct0)) as [f0 Hf0];
      [apply Hv0|].
    specialize (Hinf f0 Hf0 (Hl0 f0 ltac:(apply list_elem_of_lookup; eauto))).
    destruct (ct_faces ct1 !! infinite_face ct0) as [f1|] eqn:Hf1; [|done].
    injection Hinf as Hinf.
    destruct (marked_more_lookup _ _ _ _ Hm' Hf1) as (f' & Hf' & _ & Hl').
    change (infinite_face ct0) with (infinite_face ct) in *.
    rewrite Hf'. simpl. f_equal. lia.
  - intros f' Hf'. apply list_elem_of_lookup in Hf' as [i Hf'].
    destruct Hm' as [_ HF'].
    destruct (Forall2_lookup_r _ _ _ _ _ HF' Hf') as (f1 & Hf1 & _ & Hl).
    assert (-1 ≤ nestingLevel f1) by (apply Hl1, list_elem_of_lookup; eauto).
    lia.
Qed.

(** *** [markDomains] forgets the levels it finds *)

Lemma markQueue_infinite_face (fuel : nat) (index : Z) :
  ∀ ct queue border ct' border',
    markQueue fuel index ct queue border = Some (ct', border') →
    infinite_face ct' = infinite_face ct.
Proof.
  induction fuel as [|fuel IH]; intros ct queue border ct' border'; simpl.
  - destruct queue; [|done]. by intros [= <- _].
  - destruct queue as [|fh queue]; [by intros [= <- _]|].
    destruct (levelOf ct fh) as [level|]; simpl; [|done].
    destruct (decide (level = -1)).
    + match goal with |- context [markEdge ?c ?f ?st 2%nat] =>
        destruct (markEdge c f st 2%nat) as [[q b]|] end; simpl; [|done].
      intros Hrun. by apply IH in Hrun.
    + apply IH.
Qed.

Lemma markDomainsFrom_infinite_face (ct : ConstrainedTriangulation)
    (start : nat) (index : Z) (border : list Edge)
    (ct' : ConstrainedTriangulation) (border' : list Edge) :
  markDomainsFrom ct start index border = Some (ct', border') →
  infinite_face ct' = infinite_face ct.
Proof.
  unfold markDomainsFrom.
  destruct (levelOf ct start) as [level|]; simpl; [|done].
  destruct (decide (level ≠ -1)); [by intros [= <- _]|].
  apply markQueue_infinite_face.
Qed.

Lemma markBorder_infinite_face (fuel : nat) :
  ∀ ct border ct',
    markBorder fuel ct border = Some ct' →
    infinite_face ct' = infinite_face ct.
Proof.
  induction fuel as [|fuel IH]; intros ct border ct'; simpl.
  - destruct border; [|done]. by intros [= <-].
  - destruct border as [|e border]; [by intros [= <-]|].
    destruct (ct_faces ct !! e.1) as [f|]; simpl; [|done].
    destruct (levelOf ct _) as [level|]; simpl; [|done].
    destruct (decide (level = -1)); [|apply IH].
    destruct (markDomainsFrom _ _ _ _) as [[ct1 b1]|] eqn:Hfrom; simpl; [|done].
    intros Hrun. apply IH in Hrun. rewrite Hrun.
    by apply markDomainsFrom_infinite_face in Hfrom.
Qed.

Lemma markDomains_infinite_face (ct ct' : ConstrainedTriangulation) :
  markDomains ct = Some ct' → infinite_face ct' = infinite_face ct.
Proof.
  unfold markDomains.
  destruct (markDomainsFrom _ _ _ _) as [[ct1 b1]|] eqn:Hfrom; simpl; [|done].
  intros Hrun. apply markBorder_infinite_face in Hrun. rewrite Hrun.
  by apply markDomainsFrom_infinite_face in Hfrom.
Qed.

(** The result depends on the points, the neighbours and the constraints
    of the faces only. *)
Lemma markDomains_shape (ct ct2 : ConstrainedTriangulation) :
  infinite_face ct2 = infinite_face ct →
  Forall2 same_shape (ct_faces ct) (ct_faces ct2) →
  markDomains ct2 = markDomains ct.
Proof.
  intros Hinf Hshape. unfold markDomains, markFuel.
  assert (set_level (-1) <$> ct_faces ct2 = set_level (-1) <$> ct_faces ct) as Hreset.
  { induction Hshape as [|f f2 fs fs2 (Hp & Hn & Hc) _ IH]; [done|].
    rewrite !fmap_cons, IH. f_equal.
    unfold set_level. by rewrite Hp, Hn, Hc. }
  rewrite <- (Forall2_length _ _ _ Hshape).
  unfold set_faces. by rewrite Hreset, Hinf.
Qed.

(** X22: [markDomains] runs to its end on every valid triangulation,
    whatever levels its faces carried.  It changes levels only, gives the
    infinite face the level 0, so that this face is never in the domain,
    and marking the result again changes nothing. *)
Theorem markDomains_idempotent (ct : ConstrainedTriangulation) :
  ct_valid ct = true →
  ∃ ct', markDomains ct = Some ct' ∧
    markDomains ct' = Some ct' ∧
    infinite_face ct' = infinite_face ct ∧
    Forall2 same_shape (ct_faces ct) (ct_faces ct') ∧
    ∃ f, ct_faces ct' !! infinite_face ct = Some f ∧
         nestingLevel f = 0 ∧ inDomain f = false.
Proof.
  intros Hvalid.
  destruct (markDomains_total ct Hvalid) as (ct' & Hrun & Hshape & Hlevel & _).
  pose proof (markDomains_infinite_face ct ct' Hrun) as Hinf.
  exists ct'. split_and!; try done.
  - by rewrite (markDomains_shape ct ct').
  - destruct (ct_faces ct' !! infinite_face ct) as [f|]; [|done].
    injection Hlevel as Hlevel. exists f. split_and!; try done.
    unfold inDomain. by rewrite Hlevel.
Qed.

(** *** The domain triangulator *)

Section triangulator_properties.

Context {vec3 Plane Point3 : Type}.
Context `{EqDecision vec3, Countable Point3}.
Context `{!External vec3 Plane Point3}.

Local Abbreviation TriangleDetail := (TriangleDetail vec3 Plane).

(** What a face of the marked triangulation contributes: a finite face with
    an odd nesting level whose triangle in space, as glm holds it, has a
    positive area gives one triangle and its exact twin. *)
Definition emitted (td : TriangleDetail) (color : nat) (f : Face)
    : option (Geo.DataTriangle vec3 * Triangle2) :=
  '(p0, p1, p2) ← face_points f;
  let a := toGlmVec (to_3d (mOriginalPlane td) p0) in
  let b := toGlmVec (to_3d (mOriginalPlane td) p1) in
  let c := toGlmVec (to_3d (mOriginalPlane td) p2) in
  let normal := Geo.dtNormal (mOriginal td) in
  if (0 <=? nestingLevel f) && Z.odd (nestingLevel f) && positive_area a b c
  then Some (if faces_away normal a b c
             then newTriangle a c b normal defaultColor
             else newTriangle a b c normal color, (p0, p1, p2))
  else None.

Lemma inDomain_odd (f : Face) :
  -1 ≤ nestingLevel f →
  inDomain f = (0 <=? nestingLevel f) && Z.odd (nestingLevel f).
Proof.
  intros Hl. unfold inDomain.
  destruct (Z.leb_spec 0 (nestingLevel f)) as [Hle|Hlt]; simpl.
  - rewrite Z.rem_mod_nonneg, Zmod_odd by lia.
    by destruct (Z.odd (nestingLevel f)).
  - assert (nestingLevel f = -1) as -> by lia. done.
Qed.

Lemma addFace_emitted (td : TriangleDetail) (color : nat) (f : Face) :
  -1 ≤ nestingLevel f →
  addFace color td f
  = match emitted td color f with
    | Some (tri, exact) =>
        set_triangles td (mTriangles td ++ [tri]) (mTrianglesExact td ++ [exact])
    | None => td
    end.
Proof.
  intros Hl. unfold addFace, emitted.
  destruct (face_points f) as [[[p0 p1] p2]|]; simpl; [|done].
  rewrite (inDomain_odd f Hl).
  destruct ((0 <=? nestingLevel f) && Z.odd (nestingLevel f)); simpl; [|done].
  by destruct (positive_area _ _ _).
Qed.

Lemma addFaces_emitted (color : nat) (fs : list Face) (td : TriangleDetail) :
  (∀ f, f ∈ fs → -1 ≤ nestingLevel f) →
  foldl (addFace color) td fs
  = set_triangles td
      (mTriangles td ++ (omap (emitted td color) fs).*1)
      (mTrianglesExact td ++ (omap (emitted td color) fs).*2).
Proof.
  revert td. induction fs as [|f fs IH]; intros td Hl; simpl.
  { rewrite !app_nil_r. by destruct td. }
  rewrite addFace_emitted by (apply Hl; by left).
  assert (∀ f', f' ∈ fs → -1 ≤ nestingLevel f') as Hl'
    by (intros; apply Hl; by right).
  destruct (emitted td color f) as [[tri exact]|] eqn:He.
  - rewrite IH by done. unfold set_triangles. simpl.
    rewrite <- !app_assoc. simpl. done.
  - by apply IH.
Qed.

(** X2: when [addTrianglesFromPolygon] keeps a face whose winding in space
    is against the normal of the original triangle, the triangle it stores
    for the face is built anew from the corners with the last two swapped,
    and carries the color of a triangle that was given none, not the color
    the function was called with; the exact soup holds the face itself at
    the same position. *)
Theorem addTrianglesFromPolygon_flipped_color (poly : PolygonWithHoles)
    (color : nat) (td : TriangleDetail) (ct' : ConstrainedTriangulation)
    (f : Face) (p0 p1 p2 : Point2) :
  let a := toGlmVec (to_3d (mOriginalPlane td) p0) in
  let b := toGlmVec (to_3d (mOriginalPlane td) p1) in
  let c := toGlmVec (to_3d (mOriginalPlane td) p2) in
  let normal := Geo.dtNormal (mOriginal td) in
  ct_valid (triangulate poly) = true →
  length (mTriangles td) = length (mTrianglesExact td) →
  markDomains (triangulate poly) = Some ct' →
  f ∈ ct_faces ct' → face_points f = Some (p0, p1, p2) → inDomain f = true →
  positive_area a b c = true → faces_away normal a b c = true →
  ∃ td' i, addTrianglesFromPolygon poly color td = Some td' ∧
    (length (mTriangles td) ≤ i)%nat ∧
    mTriangles td' !! i = Some (newTriangle a c b normal defaultColor) ∧
    mTrianglesExact td' !! i = Some (p0, p1, p2).
Proof.
  intros a b c normal Hvalid Hlock Hrun Hf Hpoints Hin Harea Haway.
  destruct (markDomains_total _ Hvalid) as (ct'' & Hrun' & _ & _ & Hlevel).
  rewrite Hrun in Hrun'. injection Hrun' as <-.
  assert (emitted td color f
          = Some (newTriangle a c b normal defaultColor, (p0, p1, p2))) as Hem.
  { unfold emitted. rewrite Hpoints. simpl.
    rewrite <- (inDomain_odd f (Hlevel f Hf)), Hin. fold a b c normal.
    by rewrite Harea, Haway. }
  assert ((newTriangle a c b normal defaultColor, (p0, p1, p2))
          ∈ omap (emitted td color) (ct_faces ct')) as Hsoup.
  { apply list_elem_of_omap. eauto. }
  apply list_elem_of_lookup in Hsoup as [i Hi].
  unfold addTrianglesFromPolygon. rewrite Hrun. simpl.
  rewrite addFaces_emitted by done.
  eexists _, (length (mTriangles td) + i)%nat. split; [done|]. simpl.
  split_and!.
  - lia.
  - rewrite lookup_app_r by lia.
    replace (length (mTriangles td) + i - length (mTriangles td))%nat
      with i by lia.
    rewrite list_lookup_fmap. exact (f_equal (fmap fst) Hi).
  - rewrite Hlock, lookup_app_r by apply Nat.le_add_r.
    rewrite Nat.add_comm, Nat.add_sub.
    rewrite list_lookup_fmap. exact (f_equal (fmap snd) Hi).
Qed.


End triangulator_properties.

(** *** The partition of the triangle *)

Section partition.

Context {vec3 Plane Point3 : Type}.
Context `{EqDecision vec3, Countable Point3}.
Context `{!External vec3 Plane Point3}.

Local Abbreviation TriangleDetail := (TriangleDetail vec3 Plane).

(** The part of the plane a polygon with holes covers, as a set of cells of
    area: two sets of polygons cover the same area when their regions are
    equal, and overlap in no area when their regions are disjoint.  Whether
    a cell belongs to a region can be decided. *)
Context {Cell Region : Type} `{Set_ Cell Region}.
Context `{!RelDecision (∈@{Region})}.

Definition regionOf (region : PolygonWithHoles → Region) (ps : PolygonSet)
    : Region :=
  ⋃ (region <$> ps).

(** What CGAL promises: the Boolean operations are the operations on
    regions and give polygons without edges of length zero, a vertex
    between two edges on one supporting line can be left out of a boundary,
    and the faces of a triangulation point to faces of it. *)
Class RegionModel (region : PolygonWithHoles → Region) : Prop := {
  region_intersection a b :
    regionOf region (ps_intersection a b) ≡ regionOf region a ∩ regionOf region b;
  region_join a b :
    regionOf region (ps_join a b) ≡ regionOf region a ∪ regionOf region b;
  region_difference a b :
    regionOf region (ps_difference a b) ≡ regionOf region a ∖ regionOf region b;
  region_straight pfx k q tl hs :
    straight k q (hd (hd k pfx) tl) = true →
    region {| outer_boundary := pfx ++ k :: q :: tl; holes := hs |}
    ≡ region {| outer_boundary := pfx ++ k :: tl; holes := hs |};
  join_nondegenerate a b poly :
    poly ∈ ps_join a b → nondegenerate (outer_boundary poly) = true;
  difference_nondegenerate a b poly :
    poly ∈ ps_difference a b → nondegenerate (outer_boundary poly) = true;
  triangulation_valid poly : ct_valid (triangulate poly) = true
}.

(** Invariant A: the regions of two colors are disjoint, and the regions of
    all colors together are the region of the triangle. *)
Definition partition (region : PolygonWithHoles → Region) (td : TriangleDetail)
    : Prop :=
  (∀ c1 c2 ps1 ps2, c1 ≠ c2 →
     mColoredPolys td !! c1 = Some ps1 → mColoredPolys td !! c2 = Some ps2 →
     regionOf region ps1 ∩ regionOf region ps2 ≡ ∅) ∧
  (∀ x, x ∈ regionOf region (mBounds td) ↔
        ∃ c ps, mColoredPolys td !! c = Some ps ∧ x ∈ regionOf region ps).

Context (region : PolygonWithHoles → Region) `{!RegionModel region}.

Lemma elem_of_regionOf (ps : PolygonSet) (x : Cell) :
  x ∈ regionOf region ps ↔ ∃ poly, poly ∈ ps ∧ x ∈ region poly.
Proof.
  unfold regionOf. rewrite elem_of_union_list. split.
  - intros (X & (poly & -> & ?)%list_elem_of_fmap & ?). eauto.
  - intros (poly & ? & ?). exists (region poly). split; [|done].
    apply list_elem_of_fmap. eauto.
Qed.

Lemma regionOf_nil : regionOf region [] ≡ ∅.
Proof. done. Qed.

(** **** Simplification keeps the region *)

Lemma straighten_region (first : Point2) (hs : list Polygon) (l : list Point2) :
  ∀ (pfx : list Point2) (k prev : Point2),
    hd k pfx = first →
    distinct_neighbours first (prev :: l) = true →
    sd (vec k (hd first l)) (vec prev (hd first l)) →
    region {| outer_boundary := pfx ++ k :: straighten first prev l; holes := hs |}
    ≡ region {| outer_boundary := pfx ++ k :: l; holes := hs |}.
Proof.
  induction l as [|q tl IH]; intros pfx k prev Hfirst Hnd HI; [done|].
  simpl in Hnd. apply andb_true_iff in Hnd as [Hpq Hnd].
  apply negb_true_iff, same_point_null in Hpq. simpl in HI, Hpq.
  cbn [straighten].
  destruct (straight prev q (hd first tl)) eqn:Hs.
  - apply straight_sd in Hs; [|done].
    destruct (sd_extend _ _ _ _ HI Hs) as [HI' _].
    rewrite (IH pfx k q Hfirst Hnd HI').
    symmetry. apply region_straight. rewrite Hfirst.
    apply straight_sd; [by apply (sd_not_null _ _ HI)|].
    by eapply sd_trans.
  - specialize (IH (pfx ++ [k]) q q).
    rewrite <- !app_assoc in IH. simpl in IH.
    apply IH; [|done|].
    + destruct pfx; simpl in *; done.
    + apply sd_refl. simpl in Hnd. apply andb_true_iff in Hnd as [Hqr _].
      by apply negb_true_iff, same_point_null in Hqr.
Qed.

Lemma simplifyPolygon_region (poly : PolygonWithHoles) :
  nondegenerate (outer_boundary poly) = true →
  region (simplifyPolygon poly).1 ≡ region poly.
Proof.
  destruct poly as [[|first rest] hs]; [done|]. intros Hnd.
  pose proof (simplifyPolygon_straighten first rest hs) as Hout.
  destruct (simplifyPolygon _) as [[outer hs'] changed] eqn:Hsimp.
  assert (hs' = hs) as ->.
  { unfold simplifyPolygon in Hsimp. by injection Hsimp as _ <- _. }
  simpl in *. subst outer.
  apply (straighten_region first hs rest [] first first); [done|done|].
  apply sd_refl. simpl in Hnd. apply andb_true_iff in Hnd as [Hn _].
  by apply negb_true_iff, same_point_null in Hn.
Qed.

Lemma simplifyPolygonSet_region (ps : PolygonSet) :
  (∀ poly, poly ∈ ps → nondegenerate (outer_boundary poly) = true) →
  regionOf region (simplifyPolygonSet ps) ≡ regionOf region ps.
Proof.
  intros Hnd. unfold simplifyPolygonSet.
  case_bool_decide; [done|].
  destruct (existsb snd (simplifyPolygon <$> ps)); [|done].
  intros x. rewrite !elem_of_regionOf. split.
  - intros (poly & (sp & -> & (poly0 & -> & Hin)%list_elem_of_fmap)%list_elem_of_fmap & Hx).
    exists poly0. split; [done|].
    by apply (simplifyPolygon_region poly0 (Hnd _ Hin)).
  - intros (poly & Hin & Hx). exists (simplifyPolygon poly).1. split.
    + apply list_elem_of_fmap. eexists. split; [done|].
      apply list_elem_of_fmap. eauto.
    + by apply (simplifyPolygon_region poly (Hnd _ Hin)).
Qed.

(** **** The soup is rebuilt without touching the partition *)

Definition same_partition (td td' : TriangleDetail) : Prop :=
  mColoredPolys td' = mColoredPolys td ∧ mBounds td' = mBounds td ∧
  mColorChanged td' = mColorChanged td ∧ mOriginal td' = mOriginal td ∧
  mOriginalPlane td' = mOriginalPlane td.

Definition lockstep (td : TriangleDetail) : Prop :=
  length (mTriangles td) = length (mTrianglesExact td).

Lemma addTrianglesFromPolygon_frame (poly : PolygonWithHoles) (color : nat)
    (td : TriangleDetail) :
  lockstep td →
  ∃ td', addTrianglesFromPolygon poly color td = Some td' ∧
         same_partition td td' ∧ lockstep td'.
Proof.
  intros Hlock.
  destruct (markDomains_total _ (triangulation_valid poly))
    as (ct' & Hrun & _ & _ & Hl).
  unfold addTrianglesFromPolygon. rewrite Hrun. simpl.
  rewrite addFaces_emitted by done.
  eexists. split; [done|]. split; [done|].
  unfold lockstep in *. simpl. rewrite !length_app, !length_fmap. lia.
Qed.

Lemma same_partition_trans (td1 td2 td3 : TriangleDetail) :
  same_partition td1 td2 → same_partition td2 td3 → same_partition td1 td3.
Proof. unfold same_partition. intuition congruence. Qed.

Lemma addTrianglesFromSet_frame (entry : nat * PolygonSet) (td : TriangleDetail) :
  lockstep td →
  ∃ td', addTrianglesFromSet (Some td) entry = Some td' ∧
         same_partition td td' ∧ lockstep td'.
Proof.
  intros Hlock. unfold addTrianglesFromSet.
  case_bool_decide; [by exists td|].
  generalize entry.2 as ps. intros ps. revert td Hlock.
  induction ps as [|poly ps IH]; intros td Hlock; simpl; [by exists td|].
  destruct (addTrianglesFromPolygon_frame poly entry.1 td Hlock)
    as (td1 & -> & Hsame1 & Hlock1).
  destruct (IH td1 Hlock1) as (td' & -> & Hsame & Hlock').
  exists td'. split; [done|]. split; [|done].
  by eapply same_partition_trans.
Qed.

Lemma updateTrianglesFromPolygons_frame (td : TriangleDetail) :
  ∃ td', updateTrianglesFromPolygons td = Some td' ∧ same_partition td td'.
Proof.
  unfold updateTrianglesFromPolygons.
  assert (∀ es td0, lockstep td0 →
            ∃ td', foldl addTrianglesFromSet (Some td0) es = Some td' ∧
                   same_partition td0 td' ∧ lockstep td') as Hfold.
  { induction es as [|entry es IH]; intros td0 Hlock; simpl; [by exists td0|].
    destruct (addTrianglesFromSet_frame entry td0 Hlock) as (td1 & -> & Hs1 & Hl1).
    destruct (IH td1 Hl1) as (td' & -> & Hs & Hl').
    exists td'. split; [done|]. split; [|done].
    by eapply same_partition_trans. }
  destruct (Hfold (entries (mColoredPolys td)) (set_triangles td [] []))
    as (td' & -> & Hsame & Hlock); [done|].
  simpl. rewrite option_guard_True by done. by exists td'.
Qed.

(** **** One stroke *)

Lemma addPolygon_partition (poly : Polygon) (color : nat) (td : TriangleDetail) :
  partition region td → mColorChanged td = false →
  ∃ td', addPolygon poly color td = Some td' ∧
         partition region td' ∧ mColorChanged td' = false ∧
         mBounds td' = mBounds td ∧ mOriginal td' = mOriginal td ∧
         mOriginalPlane td' = mOriginalPlane td.
Proof.
  intros [Hdisj Hcover] Hclean. unfold addPolygon. rewrite Hclean. simpl.
  rewrite Hclean.
  set (added := ps_intersection (PolygonSet_of poly) (mBounds td)).
  set (joined := ps_join (default [] (mColoredPolys td !! color)) added).
  set (polys := map_imap _ _).
  destruct (updateTrianglesFromPolygons_frame
              (simplifyPolygons (set_polys td polys false)))
    as (td' & -> & Hpolys & Hbounds & Hchanged & Horiginal & Hplane).
  exists td'. simpl in *. split; [done|]. split; [|done].
  assert (∀ c, polys !! c
               = if decide (c = color) then Some joined
                 else (λ ps, ps_difference ps added) <$> mColoredPolys td !! c)
    as Hlookup.
  { intros c. unfold polys. rewrite map_lookup_imap, lookup_insert.
    destruct (decide (color = c)) as [->|Hne]; simpl.
    - by repeat case_decide.
    - destruct (mColoredPolys td !! c); simpl; by repeat case_decide. }
  assert (∀ x, x ∈ regionOf region added → x ∈ regionOf region (mBounds td))
    as Hadded.
  { intros x Hx. apply region_intersection in Hx.
    by apply elem_of_intersection in Hx as [_ ?]. }
  assert (∀ c ps, mColoredPolys td' !! c = Some ps →
            (c = color ∧
             regionOf region ps
             ≡ regionOf region (default [] (mColoredPolys td !! color))
               ∪ regionOf region added) ∨
            (c ≠ color ∧ ∃ ps0, mColoredPolys td !! c = Some ps0 ∧
             regionOf region ps ≡ regionOf region ps0 ∖ regionOf region added))
    as Hnew.
  { intros c ps. rewrite Hpolys, lookup_fmap, Hlookup.
    destruct (decide (c = color)) as [->|Hne]; simpl.
    - intros [= <-]. left. split; [done|].
      rewrite simplifyPolygonSet_region; [apply region_join|].
      intros p Hp. by eapply join_nondegenerate.
    - destruct (mColoredPolys td !! c) as [ps0|] eqn:Hps0; simpl; [|done].
      intros [= <-]. right. split; [done|]. exists ps0. split; [done|].
      rewrite simplifyPolygonSet_region; [apply region_difference|].
      intros p Hp. by eapply difference_nondegenerate. }
  assert (∀ x, x ∈ regionOf region (default [] (mColoredPolys td !! color)) →
               x ∈ regionOf region (mBounds td)) as Hold.
  { intros x Hx. destruct (mColoredPolys td !! color) as [ps0|] eqn:Hps0.
    - apply Hcover. eauto.
    - by apply elem_of_regionOf in Hx as (? & ?%elem_of_nil & _). }
  split.
  - intros c1 c2 ps1 ps2 Hne H1' H2'. apply elem_of_equiv_empty. intros x.
    rewrite elem_of_intersection. intros [Hx1 Hx2].
    destruct (Hnew _ _ H1') as [[-> E1]|(Hc1 & q1 & Hq1 & E1)],
             (Hnew _ _ H2') as [[-> E2]|(Hc2 & q2 & Hq2 & E2)]; try done.
    + apply E1 in Hx1. apply E2 in Hx2.
      apply elem_of_difference in Hx2 as [Hx2 Hnot].
      apply elem_of_union in Hx1 as [Hx1|Hx1]; [|done].
      destruct (mColoredPolys td !! color) as [q0|] eqn:Hq0; simpl in Hx1.
      * apply (elem_of_empty (C := Region) x).
        rewrite <- (Hdisj color c2 q0 q2); [|done..].
        by apply elem_of_intersection.
      * by apply elem_of_regionOf in Hx1 as (? & ?%elem_of_nil & _).
    + apply E1 in Hx1. apply E2 in Hx2.
      apply elem_of_difference in Hx1 as [Hx1 Hnot].
      apply elem_of_union in Hx2 as [Hx2|Hx2]; [|done].
      destruct (mColoredPolys td !! color) as [q0|] eqn:Hq0; simpl in Hx2.
      * apply (elem_of_empty (C := Region) x).
        rewrite <- (Hdisj c1 color q1 q0); [|done..].
        by apply elem_of_intersection.
      * by apply elem_of_regionOf in Hx2 as (? & ?%elem_of_nil & _).
    + apply E1 in Hx1. apply E2 in Hx2.
      apply elem_of_difference in Hx1 as [Hx1 _].
      apply elem_of_difference in Hx2 as [Hx2 _].
      apply (elem_of_empty (C := Region) x).
      rewrite <- (Hdisj c1 c2 q1 q2); [|done..].
      by apply elem_of_intersection.
  - intros x. rewrite Hbounds. split.
    + intros Hx.
      assert (∃ psc, mColoredPolys td' !! color = Some psc) as [psc Hpsc].
      { rewrite Hpolys, lookup_fmap, Hlookup, decide_True by done. eauto. }
      destruct (Hnew _ _ Hpsc) as [[_ Ec]|[? _]]; [|done].
      destruct (decide (x ∈ regionOf region added)) as [Hin|Hout].
      { exists color, psc. split; [done|]. apply Ec, elem_of_union. by right. }
      apply Hcover in Hx as (c & ps0 & Hps0 & Hx).
      destruct (decide (c = color)) as [->|Hne].
      { exists color, psc. split; [done|]. apply Ec, elem_of_union. left.
        by rewrite Hps0. }
      assert (∃ ps, mColoredPolys td' !! c = Some ps) as [ps Hps].
      { rewrite Hpolys, lookup_fmap, Hlookup, decide_False, Hps0 by done.
        simpl. eauto. }
      exists c, ps. split; [done|].
      destruct (Hnew _ _ Hps) as [[? _]|(_ & ps0' & Hps0' & E)]; [done|].
      rewrite Hps0 in Hps0'. injection Hps0' as <-.
      apply E, elem_of_difference. done.
    + intros (c & ps & Hps & Hx).
      destruct (Hnew _ _ Hps) as [[-> E]|(_ & ps0 & Hps0 & E)].
      * apply E in Hx. apply elem_of_union in Hx as [Hx|Hx]; auto.
      * apply E in Hx. apply elem_of_difference in Hx as [Hx _].
        apply Hcover. eauto.
Qed.

(** The discretized circle depends on the triangle and its plane only. *)
Lemma polygonFromCircle_frame (circle : Circle3 Plane Point3)
    (td td' : TriangleDetail) :
  mOriginal td' = mOriginal td → mOriginalPlane td' = mOriginalPlane td →
  polygonFromCircle td' circle = polygonFromCircle td circle.
Proof.
  intros Horiginal Hplane.
  unfold polygonFromCircle, getCircleSharedPoints, edgeSharedPoints, circleAngle.
  by rewrite Horiginal, Hplane.
Qed.

(** A call that gets through the assertions of [polygonFromCircle]; a call
    of [addPolygon] has none to get through. *)
Definition accepted (td : TriangleDetail)
    (stroke : Stroke (Plane := Plane) (Point3 := Point3)) : Prop :=
  match stroke with
  | StrokePolygon _ _ => True
  | StrokeCircle circle _ => is_Some (polygonFromCircle td circle)
  end.

(** C1: from a detail whose regions partition the triangle and whose
    partition is authoritative (the soup was not recolored behind it),
    every sequence of calls of [addPolygon] and [addCircle] whose circles
    pass the assertions of [polygonFromCircle] runs to its end and leaves a
    detail whose regions partition the same triangle: the regions of all
    colors together are the region of the triangle, and the regions of two
    distinct colors are disjoint.  A prefix of a sequence is a sequence, so
    this holds after each call. *)
Theorem strokes_keep_partition (strokes : list (Stroke (Plane := Plane) (Point3 := Point3)))
    (td : TriangleDetail) :
  partition region td → mColorChanged td = false →
  Forall (accepted td) strokes →
  ∃ td', paintAll strokes td = Some td' ∧
         partition region td' ∧ mColorChanged td' = false ∧
         mBounds td' = mBounds td.
Proof.
  unfold paintAll.
  assert (∀ td0, mOriginal td0 = mOriginal td →
                 mOriginalPlane td0 = mOriginalPlane td →
                 partition region td0 → mColorChanged td0 = false →
                 Forall (accepted td) strokes →
                 ∃ td', foldl paint (Some td0) strokes = Some td' ∧
                        partition region td' ∧ mColorChanged td' = false ∧
                        mBounds td' = mBounds td0) as Hrun; [|by apply Hrun].
  induction strokes as [|stroke strokes IH];
    intros td0 Horiginal Hplane Hpart Hclean Hok; simpl.
  { by exists td0. }
  apply Forall_cons in Hok as [Hstroke Hok].
  assert (∃ td1, paint (Some td0) stroke = Some td1 ∧
                 partition region td1 ∧ mColorChanged td1 = false ∧
                 mBounds td1 = mBounds td0 ∧ mOriginal td1 = mOriginal td0 ∧
                 mOriginalPlane td1 = mOriginalPlane td0)
    as (td1 & -> & Hp1 & Hc1 & Hb1 & Ho1 & Hpl1).
  { destruct stroke as [poly color|circle color]; simpl.
    - by apply addPolygon_partition.
    - unfold addCircle.
      rewrite (polygonFromCircle_frame circle td td0 Horiginal Hplane).
      destruct Hstroke as [pgn ->]. simpl. by apply addPolygon_partition. }
  destruct (IH td1) as (td' & -> & ? & ? & Hb'); try done; try congruence.
  exists td'. split_and!; try done. congruence.
Qed.

(** **** From the partition to the soup and back *)

(** The faces of the marked triangulation of a polygon, and the soup
    [updateTrianglesFromPolygons] builds from them, color by color. *)
Definition facesOf (poly : PolygonWithHoles) : list Face :=
  default [] (ct_faces <$> markDomains (triangulate poly)).

Definition soupOfPolygon (td : TriangleDetail) (color : nat)
    (poly : PolygonWithHoles) : list (Geo.DataTriangle vec3 * Triangle2) :=
  omap (emitted td color) (facesOf poly).

Definition soupOfEntry (td : TriangleDetail) (entry : nat * PolygonSet)
    : list (Geo.DataTriangle vec3 * Triangle2) :=
  entry.2 ≫= soupOfPolygon td entry.1.

Definition soupOf (td : TriangleDetail) : list (Geo.DataTriangle vec3 * Triangle2) :=
  entries (mColoredPolys td) ≫= soupOfEntry td.

Definition with_soup (td : TriangleDetail)
    (soup : list (Geo.DataTriangle vec3 * Triangle2)) : TriangleDetail :=
  set_triangles td soup.*1 soup.*2.

Lemma addTrianglesFromPolygon_soup (poly : PolygonWithHoles) (color : nat)
    (td : TriangleDetail) (soup : list (Geo.DataTriangle vec3 * Triangle2)) :
  addTrianglesFromPolygon poly color (with_soup td soup)
  = Some (with_soup td (soup ++ soupOfPolygon td color poly)).
Proof.
  destruct (markDomains_total _ (triangulation_valid poly))
    as (ct' & Hrun & _ & _ & Hl).
  unfold addTrianglesFromPolygon, soupOfPolygon, facesOf. rewrite Hrun. simpl.
  rewrite addFaces_emitted by done. unfold with_soup, set_triangles. simpl.
  by rewrite !fmap_app.
Qed.

Lemma addTrianglesFromSet_soup (entry : nat * PolygonSet) (td : TriangleDetail)
    (soup : list (Geo.DataTriangle vec3 * Triangle2)) :
  addTrianglesFromSet (Some (with_soup td soup)) entry
  = Some (with_soup td (soup ++ soupOfEntry td entry)).
Proof.
  unfold addTrianglesFromSet, soupOfEntry. case_bool_decide as Hempty.
  { rewrite Hempty. simpl. by rewrite app_nil_r. }
  clear Hempty. generalize entry.2 as ps. intros ps. revert soup.
  induction ps as [|poly ps IH]; intros soup; simpl.
  { by rewrite app_nil_r. }
  rewrite addTrianglesFromPolygon_soup, IH.
  change ((poly :: ps) ≫= soupOfPolygon td entry.1)
    with (soupOfPolygon td entry.1 poly ++ (ps ≫= soupOfPolygon td entry.1)).
  by rewrite app_assoc.
Qed.

Lemma updateTrianglesFromPolygons_soup (td : TriangleDetail) :
  updateTrianglesFromPolygons td = Some (with_soup td (soupOf td)).
Proof.
  unfold updateTrianglesFromPolygons, soupOf.
  assert (∀ es soup,
            foldl addTrianglesFromSet (Some (with_soup td soup)) es
            = Some (with_soup td (soup ++ (es ≫= soupOfEntry td)))) as Hfold.
  { induction es as [|entry es IH]; intros soup; simpl.
    - by rewrite app_nil_r.
    - rewrite addTrianglesFromSet_soup, IH.
      change ((entry :: es) ≫= soupOfEntry td)
        with (soupOfEntry td entry ++ (es ≫= soupOfEntry td)).
      by rewrite app_assoc. }
  change (set_triangles td [] []) with (with_soup td []).
  rewrite Hfold. simpl.
  rewrite option_guard_True by (by rewrite !length_fmap). done.
Qed.

(** [polygonsByColor]: the polygons of one color are those of the
    triangles of that color, in the order of the soup. *)
Lemma polygonsByColor_lookup (soup : list (Geo.DataTriangle vec3 * Triangle2))
    (c : nat) :
  default [] (polygonsByColor soup.*1 soup.*2 !! c)
  = (polygonFromTriangle ∘ snd) <$> filter (λ pr, Geo.dtColor pr.1 = c) soup.
Proof.
  unfold polygonsByColor. rewrite zip_fst_snd.
  assert (∀ m : gmap nat (list Polygon),
            default [] (foldl (λ m '(tri, e),
                                 <[Geo.dtColor tri := default [] (m !! Geo.dtColor tri)
                                                      ++ [polygonFromTriangle e]]> m)
                              m soup !! c)
            = default [] (m !! c)
              ++ ((polygonFromTriangle ∘ snd)
                    <$> filter (λ pr, Geo.dtColor pr.1 = c) soup)) as Hfold.
  { induction soup as [|[tri e] soup IH]; intros m; simpl.
    - by rewrite app_nil_r.
    - rewrite IH. rewrite filter_cons. simpl.
      destruct (decide (Geo.dtColor tri = c)) as [->|Hne].
      + rewrite lookup_insert_eq. simpl. by rewrite <- app_assoc.
      + by rewrite lookup_insert_ne. }
  rewrite Hfold. by rewrite lookup_empty.
Qed.

(** The region of a triangle of the soup, and of a face. *)
Definition triangleRegion (t : Triangle2) : Region :=
  region {| outer_boundary := polygonFromTriangle t; holes := [] |}.

Definition faceRegion (f : Face) : Region :=
  match face_points f with
  | Some t => triangleRegion t
  | None => ∅
  end.

(** What CGAL promises besides: the join of a range of polygons covers
    what the polygons cover, and the faces of odd level of the marked
    triangulation of a polygon cover the polygon. *)
Class TriangulationModel : Prop := {
  join_range_region polys :
    regionOf region (ps_join_range polys)
    ≡ ⋃ ((λ pgn, region {| outer_boundary := pgn; holes := [] |}) <$> polys);
  triangulation_tiles poly :
    ⋃ (faceRegion <$> filter (λ f, inDomain f = true) (facesOf poly))
    ≡ region poly
}.

(** A face that the conversion to glm leaves alone: its triangle in space
    has an area and the winding of the original triangle. *)
Definition survives (td : TriangleDetail) (f : Face) : Prop :=
  ∀ p0 p1 p2, face_points f = Some (p0, p1, p2) → inDomain f = true →
    let a := toGlmVec (to_3d (mOriginalPlane td) p0) in
    let b := toGlmVec (to_3d (mOriginalPlane td) p1) in
    let c := toGlmVec (to_3d (mOriginalPlane td) p2) in
    positive_area a b c = true ∧
    faces_away (Geo.dtNormal (mOriginal td)) a b c = false.

Definition all_survive (td : TriangleDetail) : Prop :=
  ∀ color ps poly f, mColoredPolys td !! color = Some ps → poly ∈ ps →
    f ∈ facesOf poly → survives td f.

Lemma facesOf_level (poly : PolygonWithHoles) (f : Face) :
  f ∈ facesOf poly → -1 ≤ nestingLevel f.
Proof.
  destruct (markDomains_total _ (triangulation_valid poly))
    as (ct' & Hrun & _ & _ & Hl).
  unfold facesOf. rewrite Hrun. simpl. apply Hl.
Qed.

Lemma emitted_inv (td : TriangleDetail) (color : nat) (f : Face)
    (tri : Geo.DataTriangle vec3) (e : Triangle2) :
  -1 ≤ nestingLevel f → survives td f →
  emitted td color f = Some (tri, e) →
  face_points f = Some e ∧ inDomain f = true ∧ Geo.dtColor tri = color.
Proof.
  intros Hl Hs. unfold emitted.
  destruct (face_points f) as [[[p0 p1] p2]|] eqn:Hp; simpl; [|done].
  rewrite <- (inDomain_odd f Hl).
  destruct (inDomain f) eqn:Hin; simpl; [|done].
  destruct (Hs p0 p1 p2 Hp Hin) as [-> ->]. by intros [= <- <-].
Qed.

Lemma emitted_survivor (td : TriangleDetail) (color : nat) (f : Face)
    (e : Triangle2) :
  -1 ≤ nestingLevel f → survives td f →
  face_points f = Some e → inDomain f = true →
  ∃ tri, emitted td color f = Some (tri, e) ∧ Geo.dtColor tri = color.
Proof.
  intros Hl Hs Hp Hin. unfold emitted. rewrite Hp. destruct e as [[p0 p1] p2].
  simpl. rewrite <- (inDomain_odd f Hl), Hin.
  destruct (Hs p0 p1 p2 Hp Hin) as [-> ->]. simpl. eauto.
Qed.

Lemma elem_of_soupOf (td : TriangleDetail) (tri : Geo.DataTriangle vec3)
    (e : Triangle2) :
  (tri, e) ∈ soupOf td ↔
  ∃ color ps poly f, mColoredPolys td !! color = Some ps ∧ poly ∈ ps ∧
                     f ∈ facesOf poly ∧ emitted td color f = Some (tri, e).
Proof.
  unfold soupOf, soupOfEntry, soupOfPolygon. rewrite list_elem_of_bind. split.
  - intros ([color ps] & Hin & Hentry). simpl in Hin.
    apply list_elem_of_bind in Hin as (poly & Hin & Hpoly).
    apply list_elem_of_omap in Hin as (f & Hf & He).
    exists color, ps, poly, f. split_and!; try done.
    apply elem_of_map_to_list. unfold entries in Hentry.
    by rewrite merge_sort_Permutation in Hentry.
  - intros (color & ps & poly & f & Hps & Hpoly & Hf & He).
    exists (color, ps). split.
    + simpl. apply list_elem_of_bind. exists poly. split; [|done].
      apply list_elem_of_omap. eauto.
    + unfold entries. rewrite merge_sort_Permutation.
      by apply elem_of_map_to_list.
Qed.

(** X24: [updateTrianglesFromPolygons] always runs to its end; the soup it
    builds does not depend on the soup it finds, and goes in step with the
    exact soup: the triangle at a position has the normal of the original
    triangle, and its corners are those of the exact triangle at that
    position, brought to space, either in the same order with the color of
    a stored polygon set, or with the last two swapped and the color of a
    triangle that was given none. *)
Theorem updateTrianglesFromPolygons_lockstep (td : TriangleDetail) :
  ∃ td', updateTrianglesFromPolygons td = Some td' ∧
    mColoredPolys td' = mColoredPolys td ∧
    length (mTriangles td') = length (mTrianglesExact td') ∧
    (∀ tris exact,
       updateTrianglesFromPolygons (set_triangles td tris exact) = Some td') ∧
    ∀ i t e, mTriangles td' !! i = Some t → mTrianglesExact td' !! i = Some e →
      let img := λ p, toGlmVec (to_3d (mOriginalPlane td) p) in
      Geo.dtNormal t = Geo.dtNormal (mOriginal td) ∧
      ((Geo.dtTri t = (img e.1.1, img e.1.2, img e.2) ∧
        ∃ ps, mColoredPolys td !! Geo.dtColor t = Some ps ∧ ps ≠ []) ∨
       (Geo.dtTri t = (img e.1.1, img e.2, img e.1.2) ∧
        Geo.dtColor t = defaultColor)).
Proof.
  exists (with_soup td (soupOf td)). split_and!.
  - apply updateTrianglesFromPolygons_soup.
  - done.
  - simpl. by rewrite !length_fmap.
  - intros tris exact.
    by rewrite (updateTrianglesFromPolygons_soup (set_triangles td tris exact)).
  - simpl. intros i t e Ht He.
    rewrite list_lookup_fmap in Ht. rewrite list_lookup_fmap in He.
    destruct (soupOf td !! i) as [[t' e']|] eqn:Hi; [|done].
    simpl in Ht, He. injection Ht as ->. injection He as ->.
    assert ((t, e) ∈ soupOf td) as Hin by (apply list_elem_of_lookup; eauto).
    apply elem_of_soupOf in Hin as (color & ps & poly & f & Hps & Hpoly & _ & Hem).
    unfold emitted in Hem.
    destruct (face_points f) as [[[p0 p1] p2]|]; simpl in Hem; [|done].
    destruct (_ && _ && _); [|done].
    destruct (faces_away _ _ _ _); injection Hem as <- <-; simpl.
    + split; [done|]. by right.
    + split; [done|]. left. split; [done|]. exists ps. split; [done|].
      intros ->. by apply elem_of_nil in Hpoly.
Qed.

Context `{!TriangulationModel}.

(** X4: when every inner face of the triangulations survives the conversion
    to glm, [updateTrianglesFromPolygons] followed by
    [updatePolysFromTriangles] runs to its end and gives every color a set
    of polygons that covers what the color covered before. *)
Theorem roundtrip_regions (td : TriangleDetail) :
  all_survive td →
  ∃ td1 td2, updateTrianglesFromPolygons td = Some td1 ∧
             updatePolysFromTriangles td1 = Some td2 ∧
             ∀ color, regionOf region (default [] (mColoredPolys td2 !! color))
                      ≡ regionOf region (default [] (mColoredPolys td !! color)).
Proof.
  intros Hsurvive.
  exists (with_soup td (soupOf td)).
  eexists. split; [apply updateTrianglesFromPolygons_soup|].
  split.
  { unfold updatePolysFromTriangles. simpl.
    rewrite option_guard_True by (by rewrite !length_fmap). done. }
  intros color. simpl. rewrite lookup_fmap.
  set (byColor := polygonsByColor _ _).
  assert (regionOf region (default [] (ps_join_range <$> byColor !! color))
          ≡ ⋃ ((λ pgn, region {| outer_boundary := pgn; holes := [] |})
                 <$> default [] (byColor !! color))) as ->.
  { destruct (byColor !! color) as [polys|]; simpl; [|done].
    apply join_range_region. }
  unfold byColor. rewrite polygonsByColor_lookup.
  intros x. rewrite elem_of_union_list. split.
  - intros (X & HX & Hx).
    apply list_elem_of_fmap in HX as (pgn & -> & Hpgn).
    apply list_elem_of_fmap in Hpgn as ([tri e] & -> & Hin).
    apply list_elem_of_filter in Hin as [Hcolor Hin]. simpl in Hcolor, Hx.
    apply elem_of_soupOf in Hin as (c' & ps & poly & f & Hps & Hpoly & Hf & He).
    apply emitted_inv in He as (Hp & Hdom & Hc);
      [|by eapply facesOf_level|by eapply Hsurvive].
    assert (c' = color) as -> by congruence.
    rewrite Hps. simpl. apply elem_of_regionOf. exists poly. split; [done|].
    apply triangulation_tiles. apply elem_of_union_list.
    exists (faceRegion f). split.
    + apply list_elem_of_fmap. exists f. split; [done|].
      by apply list_elem_of_filter.
    + unfold faceRegion. by rewrite Hp.
  - destruct (mColoredPolys td !! color) as [ps|] eqn:Hps; simpl;
      [|by intros (? & ?%elem_of_nil & _)%elem_of_regionOf].
    intros (poly & Hpoly & Hx)%elem_of_regionOf.
    apply triangulation_tiles in Hx.
    apply elem_of_union_list in Hx as (X & HX & Hx).
    apply list_elem_of_fmap in HX as (f & -> & Hf).
    apply list_elem_of_filter in Hf as [Hdom Hf].
    unfold faceRegion in Hx.
    destruct (face_points f) as [e|] eqn:Hp; [|by apply elem_of_empty in Hx].
    destruct (emitted_survivor td color f e) as (tri & He & Hc);
      [by eapply facesOf_level|by eapply Hsurvive|done..|].
    exists (triangleRegion e). split; [|done].
    apply list_elem_of_fmap. exists (polygonFromTriangle e). split; [done|].
    apply list_elem_of_fmap. exists (tri, e). split; [done|].
    apply list_elem_of_filter. split; [done|].
    apply elem_of_soupOf. by exists color, ps, poly, f.
Qed.

(** **** What one stroke paints *)

(** The area of a color, empty for a color without a polygon set, and the
    area of a stroke: the part of the polygon inside the triangle. *)
Definition layer (td : TriangleDetail) (c : nat) : Region :=
  regionOf region (default [] (mColoredPolys td !! c)).

Definition clipped (td : TriangleDetail) (poly : Polygon) : Region :=
  regionOf region (PolygonSet_of poly) ∩ regionOf region (mBounds td).

Lemma addPolygon_layers (poly : Polygon) (color : nat) (td : TriangleDetail) :
  mColorChanged td = false →
  ∃ td', addPolygon poly color td = Some td' ∧
    mBounds td' = mBounds td ∧ mColorChanged td' = false ∧
    mOriginal td' = mOriginal td ∧ mOriginalPlane td' = mOriginalPlane td ∧
    ∀ x c, x ∈ layer td' c ↔
      (x ∈ clipped td poly ∧ c = color) ∨
      ((x ∉ clipped td poly) ∧ x ∈ layer td c).
Proof.
  intros Hclean. unfold addPolygon. rewrite Hclean. simpl. rewrite Hclean.
  set (added := ps_intersection (PolygonSet_of poly) (mBounds td)).
  set (joined := ps_join (default [] (mColoredPolys td !! color)) added).
  set (polys := map_imap _ _).
  destruct (updateTrianglesFromPolygons_frame
              (simplifyPolygons (set_polys td polys false)))
    as (td' & -> & Hpolys & Hbounds & Hchanged & Horiginal & Hplane).
  exists td'. simpl in *. split_and!; try done.
  assert (∀ c, polys !! c
               = if decide (c = color) then Some joined
                 else (λ ps, ps_difference ps added) <$> mColoredPolys td !! c)
    as Hlookup.
  { intros c. unfold polys. rewrite map_lookup_imap, lookup_insert.
    destruct (decide (color = c)) as [->|Hne]; simpl.
    - by repeat case_decide.
    - destruct (mColoredPolys td !! c); simpl; by repeat case_decide. }
  assert (∀ x, x ∈ regionOf region added ↔ x ∈ clipped td poly) as Hadded.
  { intros x. unfold clipped. by rewrite <- (region_intersection _ _ x). }
  intros x c. unfold layer at 1. rewrite Hpolys, lookup_fmap, Hlookup.
  destruct (decide (c = color)) as [->|Hne]; simpl.
  - assert (∀ p, p ∈ joined → nondegenerate (outer_boundary p) = true) as Hnd
      by (intros p Hp; by eapply join_nondegenerate).
    rewrite (simplifyPolygonSet_region joined Hnd x).
    unfold joined. rewrite (region_join _ _ x), elem_of_union, Hadded.
    unfold layer. destruct (decide (x ∈ clipped td poly)); tauto.
  - unfold layer.
    destruct (mColoredPolys td !! c) as [ps0|] eqn:Hps0; simpl.
    + assert (∀ p, p ∈ ps_difference ps0 added →
                nondegenerate (outer_boundary p) = true) as Hnd
        by (intros p Hp; by eapply difference_nondegenerate).
      rewrite (simplifyPolygonSet_region _ Hnd x).
      rewrite (region_difference _ _ x), elem_of_difference, Hadded. tauto.
    + rewrite elem_of_regionOf. split.
      * by intros (? & ?%elem_of_nil & _).
      * by intros [[_ ?]|[_ (? & ?%elem_of_nil & _)]].
Qed.

(** X15: on a detail whose partition is authoritative, [addPolygon] runs to
    its end and paints the part of the polygon inside the triangle, and
    nothing else: afterwards a cell of that part lies in the area of the
    color of the stroke and of no other color, and a cell outside it lies
    in the areas it lay in before. *)
Theorem addPolygon_paints_clipped (poly : Polygon) (color : nat)
    (td : TriangleDetail) :
  mColorChanged td = false →
  ∃ td', addPolygon poly color td = Some td' ∧
    mBounds td' = mBounds td ∧ mColorChanged td' = false ∧
    ∀ x c, x ∈ layer td' c ↔
      (x ∈ clipped td poly ∧ c = color) ∨
      ((x ∉ clipped td poly) ∧ x ∈ layer td c).
Proof.
  intros Hclean.
  destruct (addPolygon_layers poly color td Hclean)
    as (td' & Hrun & Hbounds & Hchanged & _ & _ & Hcells).
  exists td'. by split_and!.
Qed.

(** X16: a stroke painted twice paints what it paints once: after
    [addPolygon] with a polygon and a color, a second [addPolygon] with the
    same polygon and color runs to its end and leaves the area of every
    color as it was. *)
Theorem addPolygon_twice (poly : Polygon) (color : nat)
    (td td1 : TriangleDetail) :
  mColorChanged td = false →
  addPolygon poly color td = Some td1 →
  ∃ td2, addPolygon poly color td1 = Some td2 ∧
    ∀ c, layer td2 c ≡ layer td1 c.
Proof.
  intros Hclean Hrun1.
  destruct (addPolygon_layers poly color td Hclean)
    as (td1' & Hrun1' & Hbounds1 & Hclean1 & _ & _ & Hcells1).
  rewrite Hrun1 in Hrun1'. injection Hrun1' as <-.
  destruct (addPolygon_layers poly color td1 Hclean1)
    as (td2 & Hrun2 & _ & _ & _ & _ & Hcells2).
  exists td2. split; [done|]. intros c x.
  assert (x ∈ clipped td1 poly ↔ x ∈ clipped td poly) as Hclip.
  { unfold clipped. by rewrite Hbounds1. }
  rewrite Hcells2, Hclip, !Hcells1. tauto.
Qed.

(** X17: of two strokes over the same polygon the later one wins: after
    [addPolygon] with one color and then with another, the part of the
    polygon inside the triangle lies in the area of the later color only,
    and the areas outside it are as they were before the two strokes. *)
Theorem addPolygon_later_wins (poly : Polygon) (color1 color2 : nat)
    (td td1 : TriangleDetail) :
  mColorChanged td = false →
  addPolygon poly color1 td = Some td1 →
  ∃ td2, addPolygon poly color2 td1 = Some td2 ∧
    ∀ x c, x ∈ layer td2 c ↔
      (x ∈ clipped td poly ∧ c = color2) ∨
      ((x ∉ clipped td poly) ∧ x ∈ layer td c).
Proof.
  intros Hclean Hrun1.
  destruct (addPolygon_layers poly color1 td Hclean)
    as (td1' & Hrun1' & Hbounds1 & Hclean1 & _ & _ & Hcells1).
  rewrite Hrun1 in Hrun1'. injection Hrun1' as <-.
  destruct (addPolygon_layers poly color2 td1 Hclean1)
    as (td2 & Hrun2 & _ & _ & _ & _ & Hcells2).
  exists td2. split; [done|]. intros x c.
  assert (x ∈ clipped td1 poly ↔ x ∈ clipped td poly) as Hclip.
  { unfold clipped. by rewrite Hbounds1. }
  rewrite Hcells2, Hclip, !Hcells1. tauto.
Qed.

(** X25: when the sphere cuts the plane of the triangle in a circle and
    the polygon of the circle passes the assertions of [polygonFromCircle],
    [paintSphere] does what [addCircle] does with the circle: the polygon
    has at least [MIN_VERTICES_IN_CIRCLE] vertices, and the part of it
    inside the triangle is painted, and nothing else. *)
Theorem paintSphere_paints_circle (peprSphere : PeprSphere vec3) (color : nat)
    (td : TriangleDetail) (circle : Circle3 Plane Point3) (pgn : Polygon) :
  mColorChanged td = false →
  intersection_sphere_plane
    {| sphere_center := toExactK (pepr_center peprSphere);
       sphere_squared_radius := pepr_squared_radius peprSphere |}
    (mOriginalPlane td) = Some (inr circle) →
  polygonFromCircle td circle = Some pgn →
  (MIN_VERTICES_IN_CIRCLE ≤ length pgn)%nat ∧
  paintSphere peprSphere color td = addCircle circle color td ∧
  ∃ td', paintSphere peprSphere color td = Some td' ∧
    mBounds td' = mBounds td ∧ mColorChanged td' = false ∧
    ∀ x c, x ∈ layer td' c ↔
      (x ∈ clipped td pgn ∧ c = color) ∨
      ((x ∉ clipped td pgn) ∧ x ∈ layer td c).
Proof.
  intros Hclean Hcut Hpgn. split_and!.
  - unfold polygonFromCircle in Hpgn. simplify_option_eq.
    unfold circlePolygon.
    match goal with |- context [circleLoop ?cp ?vc 0 ?vc ?sh []] =>
      pose proof (ls_least _ _ _ _ _ _ _ (circleLoop_spec cp vc 0 vc sh [])) as Hl;
      destruct (circleLoop cp vc 0 vc sh []) as [rest pg] end.
    simpl in Hl. rewrite length_app. lia.
  - unfold paintSphere, addCircle. by rewrite Hcut.
  - destruct (addPolygon_layers pgn color td Hclean)
      as (td' & Hrun & Hbounds & Hchanged & _ & _ & Hcells).
    exists td'. split_and!; try done.
    unfold paintSphere. rewrite Hcut. simpl. by rewrite Hpgn.
Qed.

End partition.

(** *** [simplifyPolygons] *)

Section simplify_properties.

Context {vec3 Plane : Type}.

Lemma simplifyPolygon_unchanged (poly : PolygonWithHoles) :
  (simplifyPolygon poly).2 = false → (simplifyPolygon poly).1 = poly.
Proof.
  unfold simplifyPolygon. simpl.
  intros Hnone%negb_false_iff%bool_decide_eq_true. rewrite Hnone. simpl.
  by destruct poly.
Qed.

Lemma simplifyPolygonSet_elem (ps : PolygonSet) (poly : PolygonWithHoles) :
  poly ∈ simplifyPolygonSet ps →
  ∃ poly0, poly0 ∈ ps ∧ poly = (simplifyPolygon poly0).1.
Proof.
  unfold simplifyPolygonSet. case_bool_decide as Hempty.
  { subst. by intros ?%elem_of_nil. }
  destruct (existsb snd (simplifyPolygon <$> ps)) eqn:Hsimplified.
  - intros (sp & -> & (poly0 & -> & Hin)%list_elem_of_fmap)%list_elem_of_fmap.
    eauto.
  - intros Hin. exists poly. split; [done|].
    symmetry. apply simplifyPolygon_unchanged.
    destruct (simplifyPolygon poly).2 eqn:Hchanged; [|done].
    assert (existsb snd (simplifyPolygon <$> ps) = true); [|congruence].
    apply existsb_exists. exists (simplifyPolygon poly). split; [|done].
    apply list_elem_of_In, list_elem_of_fmap. eauto.
Qed.

Lemma cornerStraight_inner (boundary : Polygon) (j : nat) :
  (1 ≤ j < length boundary)%nat →
  cornerStraight boundary j = sameSupportingLine boundary j.
Proof.
  intros Hj. unfold cornerStraight, sameSupportingLine.
  replace (j + length boundary - 1)%nat with (j - 1 + 1 * length boundary)%nat by lia.
  rewrite Nat.Div0.mod_add, Nat.mod_small by lia. done.
Qed.

(** C6, as the code has it: after [simplifyPolygons], on the outer boundary
    of every stored region no two consecutive edges [j - 1] and [j], for
    [j] from 1 to the last edge, lie on one supporting line; the hole
    boundaries are the ones that were stored before. *)
Theorem simplifyPolygons_outer_corners (td : TriangleDetail vec3 Plane)
    (color : nat) (ps : PolygonSet) (poly : PolygonWithHoles) (j : nat) :
  outer_boundaries_nondegenerate td = true →
  mColoredPolys (simplifyPolygons td) !! color = Some ps →
  poly ∈ ps →
  (1 ≤ j < length (outer_boundary poly))%nat →
  cornerStraight (outer_boundary poly) j = false ∧
  ∃ ps0 poly0, mColoredPolys td !! color = Some ps0 ∧ poly0 ∈ ps0 ∧
               holes poly = holes poly0.
Proof.
  intros Hnd Hps Hpoly Hj. unfold simplifyPolygons in Hps. simpl in Hps.
  rewrite lookup_fmap in Hps.
  destruct (mColoredPolys td !! color) as [ps0|] eqn:Hps0; [|done].
  simpl in Hps. injection Hps as <-.
  apply simplifyPolygonSet_elem in Hpoly as (poly0 & Hpoly0 & ->).
  split; [|by exists ps0, poly0].
  rewrite cornerStraight_inner by done.
  apply simplifyPolygon_no_straight_corner; [|done].
  unfold outer_boundaries_nondegenerate in Hnd. rewrite forallb_forall in Hnd.
  specialize (Hnd (color, ps0)). simpl in Hnd.
  rewrite forallb_forall in Hnd. apply Hnd.
  - by apply list_elem_of_In, elem_of_map_to_list.
  - by apply list_elem_of_In.
Qed.

Lemma mask_delete_sublist {A} (mask : list bool) (l : list A) :
  mask_delete mask l `sublist_of` l.
Proof.
  revert l. induction mask as [|b mask IH]; intros [|x l]; simpl; try done.
  destruct b; [by apply sublist_cons|by apply sublist_skip].
Qed.

Lemma mask_delete_length {A} (off : nat) (mask : list bool) (l : list A) :
  length mask = length l →
  (length (mask_delete mask l) + length (indices_of off mask) = length l)%nat.
Proof.
  revert off l. induction mask as [|b mask IH]; intros off [|x l] Hlen;
    simpl in *; try done.
  specialize (IH (S off) l ltac:(lia)).
  destruct b; simpl; lia.
Qed.

(** X18: [simplifyPolygon] only takes vertices out of the outer boundary:
    the boundary it leaves is the old one with some vertices left out, in
    the same order and with the same first vertex, the holes are the old
    ones, and it answers true exactly when the boundary got shorter; when
    it answers false the polygon is the one it was given. *)
Theorem simplifyPolygon_only_removes (poly : PolygonWithHoles) :
  holes (simplifyPolygon poly).1 = holes poly ∧
  outer_boundary (simplifyPolygon poly).1 `sublist_of` outer_boundary poly ∧
  head (outer_boundary (simplifyPolygon poly).1) = head (outer_boundary poly) ∧
  ((simplifyPolygon poly).2 = true ↔
     (length (outer_boundary (simplifyPolygon poly).1)
      < length (outer_boundary poly))%nat) ∧
  ((simplifyPolygon poly).2 = false → (simplifyPolygon poly).1 = poly).
Proof.
  split; [done|].
  destruct poly as [[|first rest] hs].
  { split_and!; try done. simpl. split; [done|lia]. }
  set (b := first :: rest).
  set (mask := sameSupportingLine b <$> seq 1 (length rest)).
  assert (length mask = length rest) as Hmask
    by (unfold mask; by rewrite length_fmap, length_seq).
  assert (verticesToRemove b = indices_of 1 mask) as Hrem.
  { unfold verticesToRemove, mask, b. simpl.
    by rewrite Nat.sub_0_r, filter_seq_indices. }
  assert (outer_boundary (simplifyPolygon {| outer_boundary := b; holes := hs |}).1
          = first :: mask_delete mask rest) as Hout.
  { unfold simplifyPolygon. cbn [fst outer_boundary]. rewrite Hrem.
    change b with ([first] ++ rest).
    change 1%nat with (length [first]).
    by rewrite foldr_delete_indices. }
  pose proof (mask_delete_length 1 mask rest Hmask) as Hlen.
  assert ((simplifyPolygon {| outer_boundary := b; holes := hs |}).2
          = negb (bool_decide (indices_of 1 mask = []))) as Hflag.
  { unfold simplifyPolygon. cbn [snd outer_boundary]. by rewrite Hrem. }
  split_and!.
  - rewrite Hout. apply sublist_skip, mask_delete_sublist.
  - by rewrite Hout.
  - rewrite Hout, Hflag. cbn [length outer_boundary]. fold b.
    destruct (indices_of 1 mask) as [|i others]; simpl in *.
    + split; [done|]. unfold b. simpl. lia.
    + split; [|done]. intros _. unfold b. simpl. lia.
  - apply simplifyPolygon_unchanged.
Qed.

Lemma filter_none {A} (f : A → bool) (l : list A) :
  (∀ x, x ∈ l → f x = false) → List.filter f l = [].
Proof.
  induction l as [|x l IH]; intros Hf; simpl; [done|].
  rewrite (Hf x) by by left. apply IH. intros y Hy. apply Hf. by right.
Qed.

Lemma simplifyPolygon_again (poly : PolygonWithHoles) :
  nondegenerate (outer_boundary poly) = true →
  simplifyPolygon (simplifyPolygon poly).1 = ((simplifyPolygon poly).1, false).
Proof.
  intros Hnd.
  assert (verticesToRemove (outer_boundary (simplifyPolygon poly).1) = [])
    as Hnone.
  { unfold verticesToRemove. apply filter_none. intros j Hj%elem_of_seq.
    apply simplifyPolygon_no_straight_corner; [done|]. lia. }
  unfold simplifyPolygon at 1. rewrite Hnone. simpl.
  by destruct (simplifyPolygon poly).1.
Qed.

Lemma simplifyPolygonSet_again (ps : PolygonSet) :
  (∀ poly, poly ∈ ps → nondegenerate (outer_boundary poly) = true) →
  simplifyPolygonSet (simplifyPolygonSet ps) = simplifyPolygonSet ps.
Proof.
  intros Hnd. unfold simplifyPolygonSet at 1.
  case_bool_decide; [done|].
  destruct (existsb snd (simplifyPolygon <$> simplifyPolygonSet ps)) eqn:Hex;
    [|done].
  apply existsb_exists in Hex as (sp & Hin%list_elem_of_In & Hsnd).
  apply list_elem_of_fmap in Hin as (poly' & -> & Hpoly').
  apply simplifyPolygonSet_elem in Hpoly' as (poly0 & Hpoly0 & ->).
  rewrite simplifyPolygon_again in Hsnd by by apply Hnd. done.
Qed.

(** X19: [simplifyPolygons] is done in one pass: when no stored outer
    boundary has an edge of length zero, running it again on the detail it
    left changes nothing. *)
Theorem simplifyPolygons_idempotent (td : TriangleDetail vec3 Plane) :
  outer_boundaries_nondegenerate td = true →
  simplifyPolygons (simplifyPolygons td) = simplifyPolygons td.
Proof.
  intros Hnd. unfold simplifyPolygons at 1 3. unfold set_polys. simpl. f_equal.
  apply map_eq. intros color. rewrite !lookup_fmap.
  destruct (mColoredPolys td !! color) as [ps|] eqn:Hps; simpl; [|done].
  f_equal. apply simplifyPolygonSet_again. intros poly Hpoly.
  unfold outer_boundaries_nondegenerate in Hnd. rewrite forallb_forall in Hnd.
  specialize (Hnd (color, ps)). simpl in Hnd.
  rewrite forallb_forall in Hnd. apply Hnd.
  - by apply list_elem_of_In, elem_of_map_to_list.
  - by apply list_elem_of_In.
Qed.

End simplify_properties.

(** *** A sphere that misses the plane *)

Section sphere_properties.

Context {vec3 Plane Point3 : Type}.
Context `{EqDecision vec3, Countable Point3}.
Context `{!External vec3 Plane Point3}.

(** C7: when the sphere and the supporting plane of the triangle do not
    meet, or meet in one point, [paintSphere] returns without an error and
    the detail it leaves is the detail it was given: partition, soup, exact
    soup, bounds and flag. *)
Theorem paintSphere_degenerate (peprSphere : PeprSphere vec3) (color : nat)
    (td : TriangleDetail vec3 Plane) :
  let sphere := {| sphere_center := toExactK (pepr_center peprSphere);
                   sphere_squared_radius := pepr_squared_radius peprSphere |} in
  intersection_sphere_plane sphere (mOriginalPlane td) = None ∨
  (∃ point, intersection_sphere_plane sphere (mOriginalPlane td)
            = Some (inl point)) →
  paintSphere peprSphere color td = Some td.
Proof.
  intros sphere Hmiss. unfold paintSphere. fold sphere.
  destruct Hmiss as [->|[point ->]]; reflexivity.
Qed.

End sphere_properties.

(** *** From the soup back to the partition *)

Section soup_properties.

Context {vec3 Plane Point3 : Type}.
Context `{EqDecision vec3, Countable Point3}.
Context `{!External vec3 Plane Point3}.

Lemma cross_swap (u v : Vector2) : cross v u == - cross u v.
Proof. unfold cross. ring. Qed.

(** X20: the polygon [polygonFromTriangle] builds starts at the first
    vertex of the triangle, has its two other vertices in the order given
    or in the other one, and is never clockwise. *)
Theorem polygonFromTriangle_not_clockwise (a b c : Point2) :
  ∃ b' c', polygonFromTriangle (a, b, c) = [a; b'; c'] ∧
    ((b' = b ∧ c' = c) ∨
     (is_clockwise_oriented (a, b, c) = true ∧ b' = c ∧ c' = b)) ∧
    is_clockwise_oriented (a, b', c') = false.
Proof.
  unfold polygonFromTriangle.
  destruct (is_clockwise_oriented (a, b, c)) eqn:Hcw.
  - exists c, b. split_and!; [done|by right|].
    unfold is_clockwise_oriented in *.
    apply negb_true_iff in Hcw. apply negb_false_iff, Qle_bool_iff.
    rewrite cross_swap.
    destruct (Qlt_le_dec (cross (vec a b) (vec a c)) 0) as [Hlt|Hge].
    + lra.
    + apply Qle_bool_iff in Hge. congruence.
  - exists b, c. split_and!; [done|by left|done].
Qed.

Lemma polygonsByColor_entry (tris : list (Geo.DataTriangle vec3))
    (exact : list Triangle2) (c : nat) :
  polygonsByColor tris exact !! c
  = let polygons :=
      (polygonFromTriangle ∘ snd)
        <$> filter (λ pr, Geo.dtColor pr.1 = c) (zip tris exact) in
    if decide (polygons = []) then None else Some polygons.
Proof.
  unfold polygonsByColor.
  assert (∀ m : gmap nat (list Polygon),
            (∀ k, m !! k ≠ Some []) →
            foldl (λ m '(tri, e),
                     <[Geo.dtColor tri := default [] (m !! Geo.dtColor tri)
                                          ++ [polygonFromTriangle e]]> m)
                  m (zip tris exact) !! c
            = let polygons :=
                (polygonFromTriangle ∘ snd)
                  <$> filter (λ pr, Geo.dtColor pr.1 = c) (zip tris exact) in
              if decide (polygons = []) then m !! c
              else Some (default [] (m !! c) ++ polygons)) as Hfold.
  { induction (zip tris exact) as [|[tri e] soup IH]; intros m Hm; [done|].
    cbn [foldl]. rewrite IH.
    - rewrite filter_cons. simpl.
      destruct (decide (Geo.dtColor tri = c)) as [->|Hne].
      + rewrite lookup_insert_eq. simpl. rewrite <- app_assoc. simpl.
        change (list_fmap _ _ ?f ?l) with (f <$> l).
        destruct (_ <$> filter _ soup); by repeat case_decide.
      + by rewrite lookup_insert_ne.
    - intros k. destruct (decide (Geo.dtColor tri = k)) as [->|Hne].
      + rewrite lookup_insert_eq. intros [= E]. by destruct (default _ _).
      + rewrite lookup_insert_ne by done. apply Hm. }
  rewrite Hfold by (intros k; by rewrite lookup_empty).
  simpl. rewrite lookup_empty. done.
Qed.

(** X21: [updatePolysFromTriangles] fails exactly when the soup and the
    exact soup differ in length.  Otherwise it clears the flag, keeps the
    soups and the bounds, and stores for a color the join of the polygons
    of the triangles of that color, in the order of the soup; a color no
    triangle has is left without a polygon set, whatever was stored for it
    before. *)
Theorem updatePolysFromTriangles_colors (td : TriangleDetail vec3 Plane) :
  (updatePolysFromTriangles td = None ↔
     length (mTriangles td) ≠ length (mTrianglesExact td)) ∧
  ∀ td', updatePolysFromTriangles td = Some td' →
    mColorChanged td' = false ∧
    mTriangles td' = mTriangles td ∧
    mTrianglesExact td' = mTrianglesExact td ∧
    mBounds td' = mBounds td ∧
    ∀ c, mColoredPolys td' !! c
         = let polygons :=
             (polygonFromTriangle ∘ snd)
               <$> filter (λ pr, Geo.dtColor pr.1 = c)
                     (zip (mTriangles td) (mTrianglesExact td)) in
           if decide (polygons = []) then None
           else Some (ps_join_range polygons).
Proof.
  unfold updatePolysFromTriangles. split.
  - case_guard; simpl; split; done.
  - intros td'. case_guard; simpl; [|done]. intros [= <-]. simpl.
    split_and!; try done.
    intros c. rewrite lookup_fmap, polygonsByColor_entry. simpl.
    by case_decide.
Qed.

End soup_properties.

(** *** The crossing points of a circle and an edge, from either side *)

Section crossing_points.

Context {vec3 Plane Point3 : Type}.
Context `{EqDecision vec3, Countable Point3}.
Context `{!External vec3 Plane Point3}.

(** The end points of edge [i] of the original triangle in the order
    [getCircleSharedPoints] puts them in before it builds the line. *)
Definition orderedEdge (td : TriangleDetail vec3 Plane) (i : nat)
    : Point3 * Point3 :=
  let v0 := toExactK (vertexOf (mOriginal td) i) in
  let v1 := toExactK (vertexOf (mOriginal td) (S i `mod` 3)) in
  if point3_ge v0 v1 then (v1, v0) else (v0, v1).

Lemma edgeSharedPoints_orderedEdge (td : TriangleDetail vec3 Plane)
    (circle : Circle3 Plane Point3) (i : nat) :
  edgeSharedPoints td circle i
  = (λ worldPoint, (to_2d (mOriginalPlane td) worldPoint,
                    circleAngle td circle worldPoint))
      <$> sphere_line_points
            {| sphere_center := circle_center circle;
               sphere_squared_radius := circle_squared_radius circle |}
            (orderedEdge td i).1 (orderedEdge td i).2.
Proof.
  unfold edgeSharedPoints, orderedEdge. by destruct (point3_ge _ _).
Qed.

(** X28: an edge two triangles share, which they walk in opposite
    directions, is put in one order by both before the circle is cut with
    it, the order on points being total and antisymmetric on its two end
    points; two details in one plane then get the same crossing points with
    the same angles for that edge. *)
Theorem edgeSharedPoints_both_sides (td other : TriangleDetail vec3 Plane)
    (circle : Circle3 Plane Point3) (i j : nat) :
  let a := toExactK (vertexOf (mOriginal td) i) in
  let b := toExactK (vertexOf (mOriginal td) (S i `mod` 3)) in
  vertexOf (mOriginal other) j = vertexOf (mOriginal td) (S i `mod` 3) →
  vertexOf (mOriginal other) (S j `mod` 3) = vertexOf (mOriginal td) i →
  (point3_ge a b = true ∨ point3_ge b a = true) →
  (point3_ge a b = true → point3_ge b a = true → a = b) →
  orderedEdge other j = orderedEdge td i ∧
  (mOriginalPlane other = mOriginalPlane td →
   edgeSharedPoints other circle j = edgeSharedPoints td circle i).
Proof.
  intros a b Hj Hj' Htotal Hanti.
  assert (orderedEdge other j = orderedEdge td i) as Hedge.
  { unfold orderedEdge. rewrite Hj, Hj'. fold a b.
    destruct (point3_ge a b) eqn:Hab, (point3_ge b a) eqn:Hba; try done.
    - by rewrite (Hanti eq_refl eq_refl).
    - by destruct Htotal. }
  split; [done|]. intros Hplane.
  rewrite !edgeSharedPoints_orderedEdge, Hedge.
  unfold circleAngle. by rewrite Hplane.
Qed.

End crossing_points.

(** *** The points of an edge two details share *)

Section shared_edge_properties.

Context {vec3 Plane Point3 : Type}.
Context `{EqDecision vec3, Countable Point3}.
Context `{!External vec3 Plane Point3}.

Local Abbreviation TriangleDetail := (TriangleDetail vec3 Plane).

(** The loop over the vertices of a boundary ends within its fuel: it is
    only an assertion that can stop [addMissingPoints]. *)
Lemma splitEdges_total (fuel : nat) (shared : Segment2) (poly : Polygon)
    (vert : nat) (points2D : list Point2) :
  (2 * length points2D + (length poly - vert) < fuel)%nat →
  is_Some (splitEdges fuel shared poly vert points2D).
Proof.
  revert poly vert points2D.
  induction fuel as [|fuel IH]; intros poly vert pts Hfuel; [lia|].
  simpl. destruct (decide (length poly ≤ vert)%nat) as [Hend|Hin]; [done|].
  destruct (decide (pts = [])) as [Hnil|Hpts]; [done|].
  set (next := if decide (S vert < length poly)%nat then S vert else 0%nat).
  assert (next < length poly)%nat as Hnext by (unfold next; case_decide; lia).
  destruct (lookup_lt_is_Some_2 poly vert) as [v Hv]; [lia|].
  destruct (lookup_lt_is_Some_2 poly next) as [n Hn]; [done|].
  rewrite Hv, Hn. simpl.
  destruct (Segment2_has_on shared v && Segment2_has_on shared n);
    [|apply IH; lia].
  destruct (list_find _ pts) as [[k pt]|] eqn:Hfind; [|apply IH; lia].
  apply list_find_Some in Hfind as (Hk & _ & _).
  assert (k < length pts)%nat by (by eapply lookup_lt_Some).
  apply IH. rewrite length_delete by eauto.
  rewrite length_app, length_take. simpl. rewrite length_drop.
  unfold next in *. repeat case_decide; lia.
Qed.

(** What the loop does to a boundary: the points it took from the list are
    the vertices it added, and each of them lies on every line through the
    two ends of the shared edge. *)
Lemma splitEdges_inserted (fuel : nat) (shared : Segment2) (l : Line2)
    (poly : Polygon) (vert : nat) (points2D : list Point2)
    (poly' : Polygon) (points2D' : list Point2) :
  (∀ v, Segment2_has_on shared v = true → Line2_has_on l v = true) →
  splitEdges fuel shared poly vert points2D = Some (poly', points2D') →
  ∃ inserted, poly' ≡ₚ poly ++ inserted ∧ points2D ≡ₚ inserted ++ points2D' ∧
              Forall (λ pt, Line2_has_on l pt = true) inserted.
Proof.
  intros Hline. revert poly vert points2D.
  induction fuel as [|fuel IH]; intros poly vert pts Hrun; [done|].
  simpl in Hrun.
  destruct (decide (length poly ≤ vert)%nat) as [Hend|Hin].
  { injection Hrun as <- <-. exists []. by rewrite app_nil_r. }
  destruct (decide (pts = [])) as [Hnil|Hpts].
  { injection Hrun as <- <-. exists []. by rewrite app_nil_r. }
  set (next := if decide (S vert < length poly)%nat then S vert else 0%nat) in Hrun.
  destruct (poly !! vert) as [v|] eqn:Hv; simpl in Hrun; [|done].
  destruct (poly !! next) as [n|] eqn:Hn; simpl in Hrun; [|done].
  destruct (Segment2_has_on shared v && Segment2_has_on shared n) eqn:Hon;
    [|by eapply IH].
  destruct (list_find _ pts) as [[k pt]|] eqn:Hfind; [|by eapply IH].
  apply andb_true_iff in Hon as [Hv_on Hn_on].
  apply list_find_Some in Hfind as (Hk & Hpt & _).
  destruct (IH _ _ _ Hrun) as (inserted & Hpoly & Hpts' & Hall).
  exists (pt :: inserted). split_and!.
  - rewrite Hpoly. rewrite <- Permutation_middle. simpl.
    rewrite <- Permutation_middle, app_comm_cons.
    by rewrite <- (take_drop next poly) at 3.
  - rewrite (delete_Permutation _ _ _ Hk). simpl. by rewrite Hpts'.
  - constructor; [|done].
    apply (Kernel.Line2_has_on_segment l v n); auto.
Qed.

Lemma splitPolygons_inserted (shared : Segment2) (l : Line2)
    (polys : PolygonSet) (points2D : list Point2)
    (polys' : PolygonSet) (points2D' : list Point2) :
  (∀ v, Segment2_has_on shared v = true → Line2_has_on l v = true) →
  splitPolygons shared polys points2D = Some (polys', points2D') →
  ∃ inserted,
    polys' ≫= outer_boundary ≡ₚ (polys ≫= outer_boundary) ++ inserted ∧
    points2D ≡ₚ inserted ++ points2D' ∧
    Forall (λ pt, Line2_has_on l pt = true) inserted.
Proof.
  intros Hline. revert points2D polys'.
  induction polys as [|poly polys IH]; intros pts polys' Hrun; simpl in Hrun.
  { injection Hrun as <- <-. by exists []. }
  unfold splitPolygon in Hrun.
  destruct (splitEdges _ shared (outer_boundary poly) 0 pts)
    as [[boundary pts1]|] eqn:Hedges; simpl in Hrun; [|done].
  destruct (splitPolygons shared polys pts1) as [[polys1 pts2]|] eqn:Hrest;
    simpl in Hrun; [|done].
  injection Hrun as <- <-.
  destruct (splitEdges_inserted _ _ l _ _ _ _ _ Hline Hedges)
    as (ins1 & Hb & Hp1 & Hall1).
  destruct (IH _ _ Hrest) as (ins2 & Hv & Hp2 & Hall2).
  exists (ins1 ++ ins2). split_and!.
  - change ((?p :: ?ps) ≫= outer_boundary)
      with (outer_boundary p ++ (ps ≫= outer_boundary)).
    simpl. rewrite Hb, Hv. rewrite <- !app_assoc.
    apply Permutation_app_head. rewrite !app_assoc.
    apply Permutation_app_tail, Permutation_app_comm.
  - rewrite Hp1, Hp2. by rewrite app_assoc.
  - by apply Forall_app.
Qed.

(** The vertices of the outer boundaries of a partition. *)
Definition boundaryVertex (colored : gmap nat PolygonSet) (v : Point2) : Prop :=
  ∃ c ps, colored !! c = Some ps ∧ v ∈ ps ≫= outer_boundary.

Lemma foldl_splitColor_None (shared : Segment2) (es : list (nat * PolygonSet)) :
  foldl (splitColor shared) None es = None.
Proof. by induction es. Qed.

Lemma foldl_splitColor_inserted (shared : Segment2) (l : Line2)
    (es : list (nat * PolygonSet)) :
  (∀ v, Segment2_has_on shared v = true → Line2_has_on l v = true) →
  ∀ colored points2D colored' points2D',
    NoDup es.*1 →
    (∀ c ps, (c, ps) ∈ es → colored !! c = Some ps) →
    foldl (splitColor shared) (Some (colored, points2D)) es
    = Some (colored', points2D') →
    ∃ inserted,
      (∀ v, boundaryVertex colored' v ↔ boundaryVertex colored v ∨ v ∈ inserted) ∧
      points2D ≡ₚ inserted ++ points2D' ∧
      Forall (λ pt, Line2_has_on l pt = true) inserted.
Proof.
  intros Hline.
  induction es as [|[c ps] es IH]; intros m0 pts0 m' pts' Hnodup Hlook Hrun.
  { injection Hrun as <- <-. exists []. split_and!; try done.
    intros v. rewrite elem_of_nil. tauto. }
  simpl in Hrun, Hnodup. apply NoDup_cons in Hnodup as [Hc Hnodup].
  destruct (splitPolygons shared ps pts0) as [[ps1 pts1]|] eqn:Hsplit; simpl in Hrun;
    [|by rewrite foldl_splitColor_None in Hrun].
  destruct (splitPolygons_inserted _ l _ _ _ _ Hline Hsplit)
    as (ins1 & Hv1 & Hp1 & Hall1).
  assert (m0 !! c = Some ps) as Hps by (apply Hlook; left).
  destruct (IH (<[c:=ps1]> m0) pts1 m' pts' Hnodup) as (ins2 & Hv2 & Hp2 & Hall2);
    [|done|].
  { intros c' ps' Hin. rewrite lookup_insert_ne; [apply Hlook; by right|].
    intros ->. apply Hc. apply list_elem_of_fmap. by exists (c', ps'). }
  exists (ins1 ++ ins2). split_and!.
  - intros v. rewrite Hv2, elem_of_app.
    assert (boundaryVertex (<[c:=ps1]> m0) v ↔ boundaryVertex m0 v ∨ v ∈ ins1)
      as ->; [|tauto].
    split.
    + intros (c' & ps' & Hl & Hin). destruct (decide (c' = c)) as [->|Hne].
      * rewrite lookup_insert_eq in Hl. injection Hl as <-.
        rewrite Hv1 in Hin. apply elem_of_app in Hin as [Hin|Hin]; [|by right].
        left. by exists c, ps.
      * rewrite lookup_insert_ne in Hl by done. left. by exists c', ps'.
    + intros [(c' & ps' & Hl & Hin)|Hin].
      * destruct (decide (c' = c)) as [->|Hne].
        -- exists c, ps1. rewrite lookup_insert_eq. split; [done|].
           rewrite Hv1. apply elem_of_app. left. congruence.
        -- exists c', ps'. by rewrite lookup_insert_ne.
      * exists c, ps1. rewrite lookup_insert_eq. split; [done|].
        rewrite Hv1. apply elem_of_app. by right.
  - rewrite Hp1, Hp2. by rewrite app_assoc.
  - by apply Forall_app.
Qed.

Lemma elem_of_entries {A} (m : gmap nat A) (c : nat) (a : A) :
  (c, a) ∈ entries m ↔ m !! c = Some a.
Proof.
  unfold entries. rewrite merge_sort_Permutation. apply elem_of_map_to_list.
Qed.

Lemma NoDup_entries {A} (m : gmap nat A) : NoDup (entries m).*1.
Proof.
  unfold entries. rewrite merge_sort_Permutation. apply NoDup_fst_map_to_list.
Qed.

Lemma splitColors_inserted (shared : Segment2) (l : Line2)
    (colored colored' : gmap nat PolygonSet) (points2D points2D' : list Point2) :
  (∀ v, Segment2_has_on shared v = true → Line2_has_on l v = true) →
  splitColors shared colored points2D = Some (colored', points2D') →
  ∃ inserted,
    (∀ v, boundaryVertex colored' v ↔ boundaryVertex colored v ∨ v ∈ inserted) ∧
    points2D ≡ₚ inserted ++ points2D' ∧
    Forall (λ pt, Line2_has_on l pt = true) inserted.
Proof.
  intros Hline Hrun.
  apply (foldl_splitColor_inserted shared l (entries colored) Hline
           colored points2D colored' points2D'); [| |done].
  - apply NoDup_entries.
  - intros c ps. apply elem_of_entries.
Qed.

Lemma elem_of_outerVertices (td : TriangleDetail) (v : Point2) :
  v ∈ outerVertices td ↔ boundaryVertex (mColoredPolys td) v.
Proof.
  unfold outerVertices, boundaryVertex. rewrite list_elem_of_bind. split.
  - intros ([c ps] & Hin & Hentry%elem_of_entries). by exists c, ps.
  - intros (c & ps & Hl & Hin). exists (c, ps). split; [done|].
    by apply elem_of_entries.
Qed.

Lemma elem_of_findPointsOnEdge (td : TriangleDetail) (e : Segment3 (Point3 := Point3))
    (m : Point3) :
  m ∈ findPointsOnEdge td e ↔
  ∃ v, m = to_3d (mOriginalPlane td) v ∧ boundaryVertex (mColoredPolys td) v ∧
       Line2_has_on (edgeLine td e) v = true.
Proof.
  unfold findPointsOnEdge. rewrite elem_of_list_to_set, list_elem_of_fmap.
  split.
  - intros (v & -> & [Hon Hin%elem_of_outerVertices]%list_elem_of_filter). eauto.
  - intros (v & -> & Hin & Hon). exists v. split; [done|].
    apply list_elem_of_filter. split; [done|]. by apply elem_of_outerVertices.
Qed.

Lemma sortedPoints_nil (points : gset Point3) :
  sortedPoints points = [] ↔ points = ∅.
Proof.
  unfold sortedPoints. split.
  - intros Hnil. apply leibniz_equiv, elements_empty_inv.
    apply Permutation_nil_r. rewrite <- Hnil. by rewrite merge_sort_Permutation.
  - intros ->. by rewrite elements_empty.
Qed.

Lemma elem_of_sortedPoints (points : gset Point3) (m : Point3) :
  m ∈ sortedPoints points ↔ m ∈ points.
Proof.
  unfold sortedPoints. rewrite merge_sort_Permutation. apply elem_of_elements.
Qed.

(** One side, on the way through the assertions: afterwards it holds its
    own points and those of the other side. *)
Lemma addMissingPoints_points (td td' : TriangleDetail)
    (theirPoints : gset Point3) (e : Segment3) (added : bool) :
  set_Forall (λ m, to_3d (mOriginalPlane td) (to_2d (mOriginalPlane td) m) = m)
             theirPoints →
  addMissingPoints td (findPointsOnEdge td e) theirPoints e = Some (td', added) →
  findPointsOnEdge td' e = findPointsOnEdge td e ∪ theirPoints ∧
  mOriginal td' = mOriginal td ∧ mOriginalPlane td' = mOriginalPlane td.
Proof.
  intros Hplane. unfold addMissingPoints.
  destruct (decide (sortedPoints _ = [])) as [Hnil|Hmissing].
  { intros [= <- <-]. split; [|done].
    apply sortedPoints_nil in Hnil. apply set_eq. intros m.
    rewrite elem_of_union. split; [tauto|]. intros [?|Hm]; [done|].
    destruct (decide (m ∈ findPointsOnEdge td e)) as [|Hnot]; [done|].
    assert (m ∈ theirPoints ∖ findPointsOnEdge td e) as Hin
      by (by apply elem_of_difference).
    rewrite Hnil in Hin. by apply elem_of_empty in Hin. }
  destruct (splitColors _ _ _) as [[colored rest]|] eqn:Hsplit; simpl; [|done].
  case_guard as Hrest; simpl; [|done]. subst rest. intros [= <- <-].
  split; [|done].
  destruct (splitColors_inserted _ (edgeLine td e) _ _ _ _
              (Kernel.Segment2_has_on_line (sharedEdge2D td e)) Hsplit)
    as (inserted & Hverts & Hperm & Hline).
  rewrite app_nil_r in Hperm.
  assert (∀ v, v ∈ inserted ↔
               ∃ m, v = to_2d (mOriginalPlane td) m ∧ m ∈ theirPoints ∧
                    m ∉ findPointsOnEdge td e) as Hinserted.
  { intros v. rewrite <- Hperm. unfold missingPoints2D.
    rewrite list_elem_of_fmap. split.
    - intros (m & -> & [? ?]%elem_of_sortedPoints%elem_of_difference). eauto.
    - intros (m & -> & ? & ?). exists m. split; [done|].
      by apply elem_of_sortedPoints, elem_of_difference. }
  apply set_eq. intros m. rewrite elem_of_union.
  rewrite (elem_of_findPointsOnEdge (set_polys _ _ _)).
  change (edgeLine (set_polys td colored (mColorChanged td)) e)
    with (edgeLine td e). simpl. split.
  - intros (v & -> & [Hold|Hnew]%Hverts & Hon).
    + left. apply elem_of_findPointsOnEdge. eauto.
    + right. apply Hinserted in Hnew as (m' & -> & Hm' & _).
      by rewrite (Hplane m' Hm').
  - intros Hm.
    destruct (decide (m ∈ findPointsOnEdge td e)) as [Hmine|Hnot].
    + apply elem_of_findPointsOnEdge in Hmine as (v & -> & Hv & Hon).
      exists v. split_and!; try done. apply Hverts. by left.
    + destruct Hm as [?|Hm]; [done|].
      assert (to_2d (mOriginalPlane td) m ∈ inserted) as Hin
        by (apply Hinserted; eauto).
      exists (to_2d (mOriginalPlane td) m). split_and!.
      * by rewrite (Hplane m Hm).
      * apply Hverts. by right.
      * rewrite Forall_forall in Hline. by apply Hline.
Qed.

(** A side that lacks nothing is left as it is. *)
Lemma addMissingPoints_nothing (td : TriangleDetail) (points : gset Point3)
    (e : Segment3) :
  addMissingPoints td points points e = Some (td, false).
Proof.
  unfold addMissingPoints.
  assert (sortedPoints (points ∖ points) = []) as ->; [|done].
  apply sortedPoints_nil, leibniz_equiv, difference_diag.
Qed.

Lemma findSharedEdge_original (td other td' other' : TriangleDetail) :
  mOriginal td' = mOriginal td → mOriginal other' = mOriginal other →
  findSharedEdge td' other' = findSharedEdge td other.
Proof. unfold findSharedEdge. by intros -> ->. Qed.

Definition corners (td : TriangleDetail) : list vec3 :=
  vertexOf (mOriginal td) <$> [0; 1; 2]%nat.

(** X26: two triangles with three distinct corners each that share an edge
    share it from either side: when [findSharedEdge] finds the edge from
    one detail, it finds the same two end points from the other, in the
    same or in the other order; and no such detail shares an edge with
    itself, all three corners being common. *)
Theorem findSharedEdge_symmetric (td other : TriangleDetail)
    (e : Segment3 (Point3 := Point3)) :
  NoDup (corners td) → NoDup (corners other) →
  findSharedEdge td other = Some e →
  (findSharedEdge other td = Some e ∨ findSharedEdge other td = Some (e.2, e.1)) ∧
  findSharedEdge td td = None ∧ findSharedEdge other other = None.
Proof.
  unfold corners, findSharedEdge, vertexOf.
  destruct (Geo.dtTri (mOriginal td)) as [[a0 a1] a2].
  destruct (Geo.dtTri (mOriginal other)) as [[b0 b1] b2].
  cbn [fmap list_fmap get3 fst snd].
  intros Ha Hb.
  apply NoDup_cons in Ha as [Ha0 Ha]. apply NoDup_cons in Ha as [Ha1 _].
  apply NoDup_cons in Hb as [Hb0 Hb]. apply NoDup_cons in Hb as [Hb1 _].
  apply not_elem_of_cons in Ha0 as [? Ha0]. apply not_elem_of_cons in Ha0 as [? _].
  apply not_elem_of_cons in Ha1 as [? _].
  apply not_elem_of_cons in Hb0 as [? Hb0]. apply not_elem_of_cons in Hb0 as [? _].
  apply not_elem_of_cons in Hb1 as [? _].
  simpl.
  repeat
    match goal with
    | |- context [decide (?u = ?v)] =>
        destruct (decide (u = v)); try congruence
    end;
  simpl; intros He; try done;
  injection He as <-; simpl; (split; [|done]);
  repeat
    match goal with
    | H : ?u = ?v |- _ => first [subst u | subst v | clear H]
    end;
  auto.
Qed.

(** X1: whenever [correctSharedVertices] gets through its assertions, the two
    details hold the same points on the edge they share, and a second call
    adds nothing, changes neither of them and returns (false, false).  The
    points of each side on the edge are taken to lie in the plane of the
    other, where [to_2d] followed by [to_3d] gives a point back. *)
Theorem correctSharedVertices_idempotent (td other td' other' : TriangleDetail)
    (e : Segment3) (flags : bool * bool) :
  findSharedEdge td other = Some e →
  set_Forall (λ m, to_3d (mOriginalPlane td) (to_2d (mOriginalPlane td) m) = m)
             (findPointsOnEdge other e) →
  set_Forall (λ m, to_3d (mOriginalPlane other) (to_2d (mOriginalPlane other) m) = m)
             (findPointsOnEdge td e) →
  correctSharedVertices td other = Some (td', other', flags) →
  findPointsOnEdge td' e = findPointsOnEdge other' e ∧
  correctSharedVertices td' other' = Some (td', other', (false, false)).
Proof.
  intros Hedge Hmine Htheirs. unfold correctSharedVertices at 1.
  rewrite Hedge. simpl.
  repeat case_guard; simpl; try done. intros Hrun.
  assert (2 ≤ size (findPointsOnEdge td e))%nat as Hsize1 by assumption.
  destruct (addMissingPoints td _ _ e) as [[td1 added1]|] eqn:Hfirst;
    simpl in Hrun; [|done].
  destruct (addMissingPoints other _ _ e) as [[other1 added2]|] eqn:Hsecond;
    simpl in Hrun; [|done].
  injection Hrun as <- <- <-.
  destruct (addMissingPoints_points _ _ _ _ _ Hmine Hfirst) as (Hp1 & Ho1 & _).
  destruct (addMissingPoints_points _ _ _ _ _ Htheirs Hsecond) as (Hp2 & Ho2 & _).
  assert (findPointsOnEdge td1 e = findPointsOnEdge other1 e) as Hsame.
  { rewrite Hp1, Hp2. apply leibniz_equiv, union_comm. }
  split; [done|].
  unfold correctSharedVertices.
  rewrite (findSharedEdge_original td other td1 other1 Ho1 Ho2), Hedge. simpl.
  rewrite <- Hsame.
  assert (2 ≤ size (findPointsOnEdge td1 e))%nat as Hsize.
  { rewrite Hp1. etrans; [exact Hsize1|].
    apply subseteq_size, union_subseteq_l. }
  rewrite !option_guard_True by done. simpl.
  rewrite addMissingPoints_nothing. simpl.
  rewrite Hsame at 1 2. rewrite addMissingPoints_nothing. done.
Qed.

End shared_edge_properties.

(** *** A triangle with a hole *)

(** The triangle with corners (0,0), (8,0) and (0,8) after a stroke of
    color 1 over the polygon (1,1), (3,1), (1,3), (1,2), whose last vertex
    lies on the edge from (1,3) back to (1,1): color 0 keeps the triangle
    with the stroke as a hole, color 1 holds the stroke. *)
Definition pt (a b : Z) : Point2 := (inject_Z a, inject_Z b).

Definition strokeHole : Polygon := [pt 1 1; pt 1 2; pt 1 3; pt 3 1].
Definition strokeOuter : Polygon := [pt 1 1; pt 3 1; pt 1 3; pt 1 2].
Definition bigTriangle : Polygon := [pt 0 0; pt 8 0; pt 0 8].

Definition detailWithHole : TriangleDetail unit unit :=
  {| mOriginal := {| Geo.dtTri := (tt, tt, tt); Geo.dtNormal := tt;
                     Geo.dtColor := 0 |};
     mOriginalPlane := tt;
     mBounds := PolygonSet_of bigTriangle;
     mColoredPolys :=
       {[ 0%nat := [ {| outer_boundary := bigTriangle; holes := [strokeHole] |} ];
          1%nat := PolygonSet_of strokeOuter ]};
     mTriangles := []; mTrianglesExact := []; mColorChanged := false |}.

Example simplifyPolygons_detailWithHole :
  mColoredPolys (simplifyPolygons detailWithHole)
  = {[ 0%nat := [ {| outer_boundary := bigTriangle; holes := [strokeHole] |} ];
       1%nat := PolygonSet_of [pt 1 1; pt 3 1; pt 1 3] ]}.
Proof. apply map_eq. intros [|[|c]]; vm_compute; reflexivity. Qed.

(** C6 as stated fails: the hole of color 0 keeps the vertex (1,2) between
    two edges on the line through (1,1) and (1,3). *)
Lemma hole_not_simplified_counterexample :
  ¬ fully_simplified (simplifyPolygons detailWithHole).
Proof.
  intros Hfull.
  specialize (Hfull 0%nat
                [ {| outer_boundary := bigTriangle; holes := [strokeHole] |} ]
                {| outer_boundary := bigTriangle; holes := [strokeHole] |}
                strokeHole 1%nat).
  assert (cornerStraight strokeHole 1 = false) as Hfalse; [|vm_compute in Hfalse; done].
  apply Hfull.
  - rewrite simplifyPolygons_detailWithHole. reflexivity.
  - apply list_elem_of_here.
  - unfold boundaries. simpl. apply list_elem_of_further, list_elem_of_here.
  - simpl. lia.
Qed.

(** The first vertex of an outer boundary is never looked at: it stays when
    it lies between the last vertex and the second one. *)
Example simplifyPolygon_keeps_first_vertex :
  simplifyPolygon {| outer_boundary := [pt 1 0; pt 2 0; pt 0 2; pt 0 0];
                     holes := [] |}
  = ({| outer_boundary := [pt 1 0; pt 2 0; pt 0 2; pt 0 0]; holes := [] |}, false).
Proof. vm_compute. reflexivity. Qed.

Lemma simplifyPolygons_outer_corners_witness :
  cornerStraight (outer_boundary {| outer_boundary := [pt 1 1; pt 3 1; pt 1 3];
                                    holes := [] |}) 2 = false ∧
  ∃ ps0 poly0, mColoredPolys detailWithHole !! 1%nat = Some ps0 ∧ poly0 ∈ ps0 ∧
    holes {| outer_boundary := [pt 1 1; pt 3 1; pt 1 3]; holes := [] |}
    = holes poly0.
Proof.
  apply (simplifyPolygons_outer_corners detailWithHole 1
           (PolygonSet_of [pt 1 1; pt 3 1; pt 1 3])).
  - vm_compute. reflexivity.
  - rewrite simplifyPolygons_detailWithHole. reflexivity.
  - apply list_elem_of_here.
  - simpl. lia.
Defined.

Lemma simplifyPolygons_idempotent_witness :
  simplifyPolygons (simplifyPolygons detailWithHole)
  = simplifyPolygons detailWithHole.
Proof.
  apply (simplifyPolygons_idempotent detailWithHole).
  vm_compute. reflexivity.
Defined.

(** *** A detail on the integer grid

    The collaborators on a grid: points in space have integer coordinates,
    a plane is a height [h] (the plane z = h), and a polygon stands for the
    unit cell its first vertex lies in, so that the Boolean operations are
    those of finite sets of cells and a polygon is triangulated as the unit
    square of its cell. *)
Definition GridPoint : Type := Z * Z * Z.

Definition cellOf (p : Point2) : Z * Z := (Qfloor (x p), Qfloor (y p)).

Definition unitSquare (c : Z * Z) : PolygonWithHoles :=
  {| outer_boundary := [pt c.1 c.2; pt (c.1 + 1) c.2;
                        pt (c.1 + 1) (c.2 + 1); pt c.1 (c.2 + 1)];
     holes := [] |}.

Definition gridRegion (poly : PolygonWithHoles) : gset (Z * Z) :=
  match outer_boundary poly ++ concat (holes poly) with
  | [] => ∅
  | p :: _ => {[ cellOf p ]}
  end.

Definition cells (ps : PolygonSet) : gset (Z * Z) := ⋃ (gridRegion <$> ps).

Definition squares (region : gset (Z * Z)) : PolygonSet :=
  unitSquare <$> elements region.

Definition gridMinus (a b : GridPoint) : GridPoint :=
  (a.1.1 - b.1.1, a.1.2 - b.1.2, a.2 - b.2).

Definition gridCross (a b : GridPoint) : GridPoint :=
  (a.1.2 * b.2 - a.2 * b.1.2, a.2 * b.1.1 - a.1.1 * b.2,
   a.1.1 * b.1.2 - a.1.2 * b.1.1).

Definition gridDot (a b : GridPoint) : Z :=
  a.1.1 * b.1.1 + a.1.2 * b.1.2 + a.2 * b.2.

(** A [double] cut to an integer, and a small rational as a [double]. *)
Definition truncate (f : float) : Z :=
  let '(m, e) := PrimFloat.frshiftexp (PrimFloat.abs f) in
  let magnitude :=
    Z.shiftl (Uint63.to_Z (PrimFloat.normfr_mantissa m))
             (Uint63.to_Z e - 2101 - 53) in
  if (f <? 0)%float then - magnitude else magnitude.

Definition double_of_Q (q : Q) : float :=
  let n := PrimFloat.of_uint63 (Uint63.of_Z (Z.abs (Qnum q))) in
  let d := PrimFloat.of_uint63 (Uint63.of_Z (Z.pos (Qden q))) in
  if Qnum q <? 0 then (- (n / d))%float else (n / d)%float.

Definition gridGe (p q : GridPoint) : bool :=
  match p.1.1 ?= q.1.1, p.1.2 ?= q.1.2 with
  | Gt, _ => true
  | Lt, _ => false
  | Eq, Gt => true
  | Eq, Lt => false
  | Eq, Eq => q.2 <=? p.2
  end.

(** The point of a circle at an angle, on the grid: the point at the
    nearest quarter turn. *)
Definition gridSample (h : Z) (circle : Circle3 Z GridPoint)
    (radius coord : float) : GridPoint :=
  let r := truncate radius in
  let center := circle_center circle in
  match truncate (coord / (pi / 2) + 0.5) `mod` 4 with
  | 0 => (center.1.1 + r, center.1.2, h)
  | 1 => (center.1.1, center.1.2 + r, h)
  | 2 => (center.1.1 - r, center.1.2, h)
  | _ => (center.1.1, center.1.2 - r, h)
  end.

(** A triangle with a triangular hole, triangulated: the outer triangle
    A(0,0) B(12,0) C(0,12), the hole a(2,1/2) b(6,2) c(2,6).  Faces 0 to 2
    are the infinite faces along AB, BC and CA; faces 3 to 8 fill the ring
    between the two triangles; face 9 is the hole.  The neighbour [i] of a
    face lies across the edge opposite to its vertex [i]. *)
Definition ringFace (p0 p1 p2 : Point2) (n : nat * nat * nat)
    (c : bool * bool * bool) : Face :=
  {| face_points := Some (p0, p1, p2); face_neighbor := n;
     face_constrained := c; nestingLevel := 0 |}.

Definition infiniteFace (n : nat * nat * nat) : Face :=
  {| face_points := None; face_neighbor := n;
     face_constrained := (false, false, true); nestingLevel := 0 |}.

Definition ringTriangulation : ConstrainedTriangulation :=
  let A := pt 0 0 in let B := pt 12 0 in let C := pt 0 12 in
  let a : Point2 := (2, 1 # 2)%Q in let b := pt 6 2 in let c := pt 2 6 in
  {| ct_faces :=
       [ infiniteFace (2, 1, 3)%nat;
         infiniteFace (0, 2, 5)%nat;
         infiniteFace (1, 0, 7)%nat;
         ringFace A B a (4, 8, 0)%nat (false, false, true);
         ringFace B b a (9, 3, 5)%nat (true, false, false);
         ringFace B C b (6, 4, 1)%nat (false, false, true);
         ringFace C c b (9, 5, 7)%nat (true, false, false);
         ringFace C A c (8, 6, 2)%nat (false, false, true);
         ringFace A a c (9, 7, 3)%nat (true, false, false);
         ringFace a b c (6, 8, 4)%nat (true, true, true) ];
     infinite_face := 0 |}.

(** The triangulation before any constraint, with its one infinite face,
    and the triangulation of the unit square of a cell: faces 0 to 3 are the
    infinite faces along its four sides, faces 4 and 5 the two triangles
    on either side of the diagonal from its first corner. *)
Definition emptyTriangulation : ConstrainedTriangulation :=
  {| ct_faces := [ {| face_points := None; face_neighbor := (0, 0, 0)%nat;
                      face_constrained := (false, false, false);
                      nestingLevel := 0 |} ];
     infinite_face := 0 |}.

Definition squareFaces (outside inside : Z) (c : Z * Z) : list Face :=
  let p0 := pt c.1 c.2 in let p1 := pt (c.1 + 1) c.2 in
  let p2 := pt (c.1 + 1) (c.2 + 1) in let p3 := pt c.1 (c.2 + 1) in
  [ set_level outside (infiniteFace (3, 1, 4)%nat);
    set_level outside (infiniteFace (0, 2, 4)%nat);
    set_level outside (infiniteFace (1, 3, 5)%nat);
    set_level outside (infiniteFace (2, 0, 5)%nat);
    set_level inside (ringFace p0 p1 p2 (1, 5, 0)%nat (true, false, true));
    set_level inside (ringFace p0 p2 p3 (2, 3, 4)%nat (true, true, false)) ].

Definition squareTriangulation (c : Z * Z) : ConstrainedTriangulation :=
  {| ct_faces := squareFaces 0 0 c; infinite_face := 0 |}.

(** Twice the area a boundary goes around, counted with its sign, and
    whether the boundary turns left or goes straight on at every vertex. *)
Definition signedArea (pgn : Polygon) : Q :=
  foldr Qplus 0%Q ((λ e : Segment2, cross e.1 e.2) <$> edges pgn).

Definition leftTurns (pgn : Polygon) : bool :=
  forallb (λ i, match pgn !! i, pgn !! (S i `mod` length pgn)%nat,
                      pgn !! (S (S i) `mod` length pgn)%nat with
                | Some p, Some q, Some r => Qle_bool 0 (cross (vec p q) (vec q r))
                | _, _, _ => true
                end)
          (seq 0 (length pgn)).

(** The collaborators on the grid.  The first constraint put into the
    empty triangulation gives the triangulation of the unit square of the
    cell it starts in, and the later ones change nothing; a polygon counts
    as simple when no two of its vertices share a cell. *)
#[export] Instance gridExternal : External GridPoint Z GridPoint := {|
  toExactK := id;
  toGlmVec := id;
  to_double := double_of_Q;
  to_2d _ p := pt p.1.1 p.1.2;
  to_3d h p := (Qfloor (x p), Qfloor (y p), h);
  ps_intersection a b := squares (cells a ∩ cells b);
  ps_join a b := squares (cells a ∪ cells b);
  ps_difference a b := squares (cells a ∖ cells b);
  ps_join_range polys := squares (cells (polys ≫= PolygonSet_of));
  ct_empty := emptyTriangulation;
  insert_constraint ct p _ :=
    if bool_decide (length (ct_faces ct) = 1%nat)
    then squareTriangulation (cellOf p) else ct;
  positive_area a b c :=
    bool_decide (gridCross (gridMinus b a) (gridMinus c a) ≠ (0, 0, 0));
  faces_away normal a b c :=
    gridDot normal (gridCross (gridMinus b a) (gridMinus c a)) <? 0;
  defaultColor := 0;
  intersection_sphere_plane sphere h :=
    let center := sphere_center sphere in
    let d := inject_Z ((center.2 - h) * (center.2 - h)) in
    match sphere_squared_radius sphere ?= d with
    | Lt => None
    | Eq => Some (inl (center.1.1, center.1.2, h))
    | Gt => Some (inr {| circle_center := (center.1.1, center.1.2, h);
                         circle_squared_radius :=
                           sphere_squared_radius sphere - d;
                         circle_plane := h |})
    end%Q;
  VERTICES_PER_UNIT_CIRCLE := 4%float;
  MIN_VERTICES_IN_CIRCLE := 4;
  size_t_of_double f := Z.to_nat (truncate f);
  circle_sample := gridSample;
  sphere_line_points _ _ _ := [];
  atan2_on_circle _ _ _ := 0%float;
  point3_ge := gridGe;
  orthogonal_bases _ := true;
  is_simple pgn := bool_decide (NoDup (cellOf <$> pgn));
  is_counterclockwise_oriented pgn := Qlt_bool 0 (signedArea pgn);
  is_convex pgn := leftTurns pgn
|}.

Lemma gridRegion_unitSquare (c : Z * Z) : gridRegion (unitSquare c) = {[ c ]}.
Proof.
  destruct c as [i j]. unfold gridRegion, cellOf, pt, x, y.
  cbn -[Qfloor]. by rewrite !Qfloor_Z.
Qed.

Lemma cells_squares (region : gset (Z * Z)) : cells (squares region) = region.
Proof.
  apply set_eq. intros c. unfold cells, squares.
  rewrite elem_of_union_list. split.
  - intros (X & (poly & -> & (c' & -> & Hc')%list_elem_of_fmap)%list_elem_of_fmap
              & Hc).
    rewrite gridRegion_unitSquare in Hc. apply elem_of_singleton in Hc as ->.
    by apply elem_of_elements.
  - intros Hc. exists {[ c ]}. split; [|by apply elem_of_singleton].
    apply list_elem_of_fmap. exists (unitSquare c).
    split; [by rewrite gridRegion_unitSquare|].
    apply list_elem_of_fmap. exists c. split; [done|]. by apply elem_of_elements.
Qed.

Lemma same_point_pt (a b c d : Z) :
  same_point (pt a b) (pt c d) = bool_decide (a = c ∧ b = d).
Proof.
  unfold same_point, pt, x, y, Qeq_bool. simpl. rewrite !Z.mul_1_r.
  destruct (Z.eqb_spec a c), (Z.eqb_spec b d); simpl;
    symmetry; (by apply bool_decide_eq_true) || (apply bool_decide_eq_false; lia).
Qed.

Lemma nondegenerate_unitSquare (c : Z * Z) :
  nondegenerate (outer_boundary (unitSquare c)) = true.
Proof.
  destruct c as [i j]. unfold nondegenerate, unitSquare. simpl.
  rewrite !same_point_pt.
  rewrite !bool_decide_eq_false_2 by lia. done.
Qed.

Lemma nondegenerate_squares (region : gset (Z * Z)) (poly : PolygonWithHoles) :
  poly ∈ squares region → nondegenerate (outer_boundary poly) = true.
Proof.
  intros (c & -> & _)%list_elem_of_fmap. apply nondegenerate_unitSquare.
Qed.

Lemma edges_cons (p : Point2) (boundary : Polygon) :
  ∃ target rest, edges (p :: boundary) = (p, target) :: rest.
Proof.
  unfold edges. simpl. unfold edge at 1. simpl.
  destruct (lookup_lt_is_Some_2 (p :: boundary)
              (1 `mod` S (length boundary))%nat) as [target Ht].
  { apply Nat.mod_upper_bound. done. }
  simpl in Ht. rewrite Ht. simpl. eauto.
Qed.

Lemma insert_constraints_square (c : Z * Z) (es : list Segment2) :
  foldl (λ t e, insert_constraint t e.1 e.2) (squareTriangulation c) es
  = squareTriangulation c.
Proof. by induction es as [|e es IH]. Qed.

Lemma constrain_square (c : Z * Z) (boundary : Polygon) :
  constrain (squareTriangulation c) boundary = squareTriangulation c.
Proof. apply insert_constraints_square. Qed.

Lemma constrain_empty (boundary : Polygon) :
  constrain emptyTriangulation boundary
  = match boundary with
    | [] => emptyTriangulation
    | p :: _ => squareTriangulation (cellOf p)
    end.
Proof.
  destruct boundary as [|p boundary]; [done|].
  destruct (edges_cons p boundary) as (target & rest & Hedges).
  unfold constrain. rewrite Hedges. cbn [foldl].
  apply insert_constraints_square.
Qed.

Lemma triangulate_grid (poly : PolygonWithHoles) :
  triangulate poly
  = match outer_boundary poly ++ concat (holes poly) with
    | [] => emptyTriangulation
    | p :: _ => squareTriangulation (cellOf p)
    end.
Proof.
  unfold triangulate.
  change ct_empty with emptyTriangulation. rewrite constrain_empty.
  destruct (outer_boundary poly) as [|p boundary]; simpl.
  - induction (holes poly) as [|hole hs IH]; simpl; [done|].
    rewrite constrain_empty. destruct hole as [|p hole]; simpl; [done|].
    clear IH. induction hs as [|h hs IH]; simpl; [done|].
    by rewrite constrain_square.
  - induction (holes poly) as [|h hs IH]; simpl; [done|].
    by rewrite constrain_square.
Qed.

#[export] Instance gridRegionModel : RegionModel gridRegion.
Proof.
  split.
  - intros a b. change (cells (squares (cells a ∩ cells b)) ≡ cells a ∩ cells b).
    by rewrite cells_squares.
  - intros a b. change (cells (squares (cells a ∪ cells b)) ≡ cells a ∪ cells b).
    by rewrite cells_squares.
  - intros a b. change (cells (squares (cells a ∖ cells b)) ≡ cells a ∖ cells b).
    by rewrite cells_squares.
  - intros pfx k q tl hs _. unfold gridRegion. by destruct pfx.
  - intros a b poly. apply nondegenerate_squares.
  - intros a b poly. apply nondegenerate_squares.
  - intros poly. rewrite triangulate_grid.
    by destruct (outer_boundary poly ++ concat (holes poly)).
Qed.

Lemma facesOf_grid (poly : PolygonWithHoles) :
  facesOf poly
  = match outer_boundary poly ++ concat (holes poly) with
    | [] => ct_faces emptyTriangulation
    | p :: _ => squareFaces 0 1 (cellOf p)
    end.
Proof.
  unfold facesOf. rewrite triangulate_grid.
  by destruct (outer_boundary poly ++ concat (holes poly)).
Qed.

Lemma gridRegion_polygonFromTriangle (t : Triangle2) :
  gridRegion {| outer_boundary := polygonFromTriangle t; holes := [] |}
  = {[ cellOf t.1.1 ]}.
Proof.
  destruct t as [[a b] c]. unfold polygonFromTriangle, gridRegion.
  by destruct (is_clockwise_oriented _).
Qed.

Lemma cellOf_pt (i j : Z) : cellOf (pt i j) = (i, j).
Proof. unfold cellOf, pt, x, y. cbn -[Qfloor]. by rewrite !Qfloor_Z. Qed.

#[export] Instance gridTriangulationModel : TriangulationModel gridRegion.
Proof.
  split.
  - intros polys.
    change (cells (squares (cells (polys ≫= PolygonSet_of)))
            ≡ ⋃ ((λ pgn, gridRegion {| outer_boundary := pgn; holes := [] |})
                   <$> polys)).
    rewrite cells_squares. unfold cells.
    induction polys as [|pgn polys IH]; [done|].
    change ((pgn :: polys) ≫= PolygonSet_of)
      with (PolygonSet_of pgn ++ (polys ≫= PolygonSet_of)).
    simpl. by rewrite IH.
  - intros poly. rewrite facesOf_grid. unfold gridRegion at 2.
    destruct (outer_boundary poly ++ concat (holes poly)) as [|p l]; [done|].
    destruct (cellOf p) as [i j] eqn:Hcell.
    change (faceRegion gridRegion (set_level 1
              (ringFace (pt i j) (pt (i + 1) j) (pt (i + 1) (j + 1))
                        (1, 5, 0)%nat (true, false, true)))
            ∪ (faceRegion gridRegion (set_level 1
                 (ringFace (pt i j) (pt (i + 1) (j + 1)) (pt i (j + 1))
                           (2, 3, 4)%nat (true, true, false))) ∪ ∅)
            ≡ {[ (i, j) ]}).
    unfold faceRegion, triangleRegion. cbn [face_points set_level ringFace].
    rewrite !gridRegion_polygonFromTriangle. cbn [fst snd]. rewrite cellOf_pt.
    intros c. rewrite !elem_of_union, elem_of_empty. tauto.
Qed.

Lemma toGlmVec_to_3d_pt (h i j : Z) : toGlmVec (to_3d h (pt i j)) = (i, j, h).
Proof.
  change (toGlmVec (to_3d h (pt i j)))
    with (Qfloor (x (pt i j)), Qfloor (y (pt i j)), h).
  unfold pt, x, y. cbn -[Qfloor]. by rewrite !Qfloor_Z.
Qed.

(** On the grid every face of a triangulation survives in a detail whose
    normal points up. *)
Lemma grid_survives (td : TriangleDetail GridPoint Z) (poly : PolygonWithHoles)
    (f : Face) :
  Geo.dtNormal (mOriginal td) = (0, 0, 1) →
  f ∈ facesOf poly → survives td f.
Proof.
  intros Hnormal. rewrite facesOf_grid.
  destruct (outer_boundary poly ++ concat (holes poly)) as [|p l].
  { intros ->%list_elem_of_singleton p0 p1 p2 Hp. done. }
  destruct (cellOf p) as [i j]. unfold squareFaces.
  rewrite !elem_of_cons, elem_of_nil.
  intros [->|[->|[->|[->|[->|[->|[]]]]]]] p0 p1 p2 Hp Hdom; try done;
    injection Hp as <- <- <-; rewrite Hnormal; cbv zeta;
    rewrite !toGlmVec_to_3d_pt;
    (split; [apply bool_decide_eq_true | apply Z.ltb_ge]);
    unfold gridDot, gridCross, gridMinus; cbn [fst snd];
    [intros [= ? ? ?]| |intros [= ? ? ?]|]; lia.
Qed.

(** The detail of the triangle (0,0,0), (2,0,0), (0,2,0) in the plane
    z = 0, covering three cells, all of color 0. *)
Definition gridDetail : TriangleDetail GridPoint Z :=
  let bounds := [unitSquare (0, 0); unitSquare (1, 0); unitSquare (0, 1)] in
  {| mOriginal := {| Geo.dtTri := ((0, 0, 0), (2, 0, 0), (0, 2, 0));
                     Geo.dtNormal := (0, 0, 1); Geo.dtColor := 0 |};
     mOriginalPlane := 0;
     mBounds := bounds;
     mColoredPolys := {[ 0%nat := bounds ]};
     mTriangles := []; mTrianglesExact := []; mColorChanged := false |}.

Lemma gridDetail_partition : partition gridRegion gridDetail.
Proof.
  unfold partition.
  change (mColoredPolys gridDetail)
    with ({[ 0%nat := mBounds gridDetail ]} : gmap nat PolygonSet).
  split.
  - intros c1 c2 ps1 ps2 Hne [<- _]%lookup_singleton_Some
      [<- _]%lookup_singleton_Some. done.
  - intros c. split.
    + intros Hc. exists 0%nat, (mBounds gridDetail). split; [|done].
      apply lookup_singleton_eq.
    + by intros (color & ps & [_ <-]%lookup_singleton_Some & Hc).
Qed.

(** Two strokes on the grid detail: color 1 over the cell (1,0) and a cell
    outside the triangle, then a circle of color 2 around (-1,1), whose first
    sample is (0,1). *)
Definition gridStrokes : list (Stroke (Plane := Z) (Point3 := GridPoint)) :=
  [ StrokePolygon [pt 1 0; pt 2 0; pt 2 1; pt 1 1] 1;
    StrokePolygon [pt 5 5; pt 6 5; pt 6 6] 1;
    StrokeCircle {| circle_center := (-1, 1, 0); circle_squared_radius := 1;
                    circle_plane := 0 |} 2 ].

Example paintAll_gridStrokes :
  (λ td, (λ c, cells <$> mColoredPolys td !! c) <$> [0; 1; 2; 3]%nat)
    <$> paintAll gridStrokes gridDetail
  = Some [Some {[ (0, 0) ]}; Some {[ (1, 0) ]}; Some {[ (0, 1) ]}; None].
Proof. vm_compute. reflexivity. Qed.

Lemma strokes_keep_partition_witness :
  ∃ td', paintAll gridStrokes gridDetail = Some td' ∧
         partition gridRegion td' ∧ mColorChanged td' = false ∧
         mBounds td' = mBounds gridDetail.
Proof.
  apply (strokes_keep_partition gridRegion gridStrokes gridDetail).
  - apply gridDetail_partition.
  - reflexivity.
  - repeat constructor. vm_compute. eauto.
Defined.

(** A sphere of radius 2 around (0,0,5) misses the plane z = 0, and one
    around (0,0,2) touches it in the point (0,0,0). *)
Example intersection_miss :
  intersection_sphere_plane
    {| sphere_center := (0, 0, 5); sphere_squared_radius := 4 |} 0 = None.
Proof. reflexivity. Qed.

Example intersection_tangent :
  intersection_sphere_plane
    {| sphere_center := (0, 0, 2); sphere_squared_radius := 4 |} 0
  = Some (inl (0, 0, 0)).
Proof. reflexivity. Qed.

Lemma paintSphere_degenerate_witness :
  paintSphere {| pepr_center := (0, 0, 2); pepr_squared_radius := 4 |} 1
              gridDetail
  = Some gridDetail.
Proof.
  apply (paintSphere_degenerate
           {| pepr_center := (0, 0, 2); pepr_squared_radius := 4 |} 1 gridDetail).
  right. exists (0, 0, 0). reflexivity.
Defined.

(** The levels [markDomains] gives the faces of the ring: 0 outside, 1 in
    the ring, 2 in the hole. *)
Example markDomains_ringTriangulation :
  (λ ct, nestingLevel <$> ct_faces ct) <$> markDomains ringTriangulation
  = Some [0; 0; 0; 1; 1; 1; 1; 1; 1; 2].
Proof. vm_compute. reflexivity. Qed.

(** Of the six faces of the ring, the first, of corners (0,0), (12,0) and
    (2,1/2), falls on a line once brought to the grid and is left out; the
    hole and the infinite faces give nothing. *)
Example addFace_ringTriangulation :
  (λ ct, mTrianglesExact (foldl (addFace 1) gridDetail (ct_faces ct)))
    <$> markDomains ringTriangulation
  = Some [ (pt 12 0, pt 6 2, (2, 1 # 2)%Q);
           (pt 12 0, pt 0 12, pt 6 2);
           (pt 0 12, pt 2 6, pt 6 2);
           (pt 0 12, pt 0 0, pt 2 6);
           (pt 0 0, (2, 1 # 2)%Q, pt 2 6) ].
Proof. vm_compute. reflexivity. Qed.


(** *** Two details on the grid with one edge in common

    Two triangles in the plane z = 0 that share the edge from (0,0,0) to
    (4,0,0).  The first was never painted: its one polygon is the triangle,
    and the shared edge is the edge that closes it, from its last vertex
    (0,0) back to its first (4,0).  The second holds a stroke of color 1
    that touches the shared edge in (1,0) and (2,0). *)
Definition closingEdgeDetail : TriangleDetail GridPoint Z :=
  {| mOriginal := {| Geo.dtTri := ((4, 0, 0), (0, 4, 0), (0, 0, 0));
                     Geo.dtNormal := (0, 0, 1); Geo.dtColor := 0 |};
     mOriginalPlane := 0;
     mBounds := PolygonSet_of [pt 4 0; pt 0 4; pt 0 0];
     mColoredPolys := {[ 0%nat := PolygonSet_of [pt 4 0; pt 0 4; pt 0 0] ]};
     mTriangles := []; mTrianglesExact := []; mColorChanged := false |}.

Definition paintedNeighbour : TriangleDetail GridPoint Z :=
  {| mOriginal := {| Geo.dtTri := ((0, 0, 0), (0, -4, 0), (4, 0, 0));
                     Geo.dtNormal := (0, 0, 1); Geo.dtColor := 0 |};
     mOriginalPlane := 0;
     mBounds := PolygonSet_of [pt 0 0; pt 0 (-4); pt 4 0];
     mColoredPolys :=
       {[ 0%nat := PolygonSet_of [pt 0 0; pt 0 (-4); pt 4 0; pt 2 0;
                                  pt 1 (-1); pt 1 0];
          1%nat := PolygonSet_of [pt 1 0; pt 1 (-1); pt 2 0] ]};
     mTriangles := []; mTrianglesExact := []; mColorChanged := false |}.

Definition commonEdge : GridPoint * GridPoint := ((4, 0, 0), (0, 0, 0)).

Example findSharedEdge_closingEdgeDetail :
  findSharedEdge closingEdgeDetail paintedNeighbour = Some commonEdge.
Proof. reflexivity. Qed.

Example findPointsOnEdge_closingEdgeDetail :
  findPointsOnEdge closingEdgeDetail commonEdge = {[ (0, 0, 0); (4, 0, 0) ]}
  ∧ findPointsOnEdge paintedNeighbour commonEdge
    = {[ (0, 0, 0); (1, 0, 0); (2, 0, 0); (4, 0, 0) ]}.
Proof. split; vm_compute; reflexivity. Qed.

(** C2, on the code: the two points the first detail lacks both lie on the
    edge that closes its polygon.  The loop of [addMissingPoints] puts the
    first of them, (1,0), in front of the first vertex and stays on the
    last vertex; the edge from there to (1,0) does not hold (2,0), the loop
    has passed the edge from (1,0) to (4,0) that does, and (2,0) is left
    without an edge: the assertion that every point found one fails, and
    [correctSharedVertices] does not return. *)
Theorem correctSharedVertices_closing_edge :
  missingPoints2D closingEdgeDetail
    (findPointsOnEdge closingEdgeDetail commonEdge)
    (findPointsOnEdge paintedNeighbour commonEdge)
  = [pt 1 0; pt 2 0]
  ∧ splitColors (sharedEdge2D closingEdgeDetail commonEdge)
      (mColoredPolys closingEdgeDetail) [pt 1 0; pt 2 0]
    = Some ({[ 0%nat := PolygonSet_of [pt 1 0; pt 4 0; pt 0 4; pt 0 0] ]},
            [pt 2 0])
  ∧ correctSharedVertices closingEdgeDetail paintedNeighbour = None.
Proof. split_and!; vm_compute; reflexivity. Qed.

(** A third detail, of the triangle (0,0,0), (4,0,0), (0,4,0): the edge it
    shares with the painted neighbour is the first edge of its polygon. *)
Definition firstEdgeDetail : TriangleDetail GridPoint Z :=
  {| mOriginal := {| Geo.dtTri := ((0, 0, 0), (4, 0, 0), (0, 4, 0));
                     Geo.dtNormal := (0, 0, 1); Geo.dtColor := 0 |};
     mOriginalPlane := 0;
     mBounds := PolygonSet_of [pt 0 0; pt 4 0; pt 0 4];
     mColoredPolys := {[ 0%nat := PolygonSet_of [pt 0 0; pt 4 0; pt 0 4] ]};
     mTriangles := []; mTrianglesExact := []; mColorChanged := false |}.

Definition syncedDetail : TriangleDetail GridPoint Z :=
  set_polys firstEdgeDetail
    {[ 0%nat := PolygonSet_of [pt 0 0; pt 1 0; pt 2 0; pt 4 0; pt 0 4] ]} false.

Example correctSharedVertices_firstEdgeDetail :
  correctSharedVertices firstEdgeDetail paintedNeighbour
  = Some (syncedDetail, paintedNeighbour, (true, false)).
Proof. vm_compute. reflexivity. Qed.

Lemma correctSharedVertices_idempotent_witness :
  findPointsOnEdge syncedDetail ((0, 0, 0), (4, 0, 0))
  = findPointsOnEdge paintedNeighbour ((0, 0, 0), (4, 0, 0)) ∧
  correctSharedVertices syncedDetail paintedNeighbour
  = Some (syncedDetail, paintedNeighbour, (false, false)).
Proof.
  apply (correctSharedVertices_idempotent firstEdgeDetail paintedNeighbour
           syncedDetail paintedNeighbour ((0, 0, 0), (4, 0, 0)) (true, false)).
  - reflexivity.
  - apply (bool_decide_unpack _). vm_compute. exact I.
  - apply (bool_decide_unpack _). vm_compute. exact I.
  - vm_compute. reflexivity.
Defined.

(** The grid detail seen from below: its normal points against the
    winding of the faces, the two triangles of a cell of color 1 are turned
    around, and both end with color 0. *)
Definition gridDetailBelow : TriangleDetail GridPoint Z :=
  {| mOriginal := {| Geo.dtTri := ((0, 0, 0), (0, 2, 0), (2, 0, 0));
                     Geo.dtNormal := (0, 0, -1); Geo.dtColor := 0 |};
     mOriginalPlane := 0;
     mBounds := mBounds gridDetail;
     mColoredPolys := {[ 1%nat := mBounds gridDetail ]};
     mTriangles := []; mTrianglesExact := []; mColorChanged := false |}.

Example addTrianglesFromPolygon_below :
  (λ td, Geo.dtColor <$> mTriangles td)
    <$> addTrianglesFromPolygon (unitSquare (0, 0)) 1 gridDetailBelow
  = Some [0; 0]%nat.
Proof. vm_compute. reflexivity. Qed.

(** The first of the two faces of the cell (0,0), as [markDomains] leaves
    it. *)
Definition belowFace : Face :=
  set_level 1 (ringFace (pt 0 0) (pt 1 0) (pt 1 1) (1, 5, 0)%nat
                 (true, false, true)).

Lemma addTrianglesFromPolygon_flipped_color_witness :
  ∃ td' i, addTrianglesFromPolygon (unitSquare (0, 0)) 1 gridDetailBelow = Some td' ∧
    (length (mTriangles gridDetailBelow) ≤ i)%nat ∧
    mTriangles td' !! i
    = Some (newTriangle (0, 0, 0) (1, 1, 0) (1, 0, 0) (0, 0, -1) 0) ∧
    mTrianglesExact td' !! i = Some (pt 0 0, pt 1 0, pt 1 1).
Proof.
  refine (addTrianglesFromPolygon_flipped_color (unitSquare (0, 0)) 1
            gridDetailBelow
            {| ct_faces := squareFaces 0 1 (0, 0); infinite_face := 0 |}
            belowFace (pt 0 0) (pt 1 0) (pt 1 1) _ _ _ _ _ _ _ _).
  - reflexivity.
  - reflexivity.
  - vm_compute. reflexivity.
  - apply list_elem_of_lookup. by exists 4%nat.
  - reflexivity.
  - reflexivity.
  - reflexivity.
  - reflexivity.
Defined.

(** *** The round trip on the grid

    The grid detail after the strokes, one cell to a color: the round trip
    through the soup gives every color its cell back. *)
Definition paintedGridDetail : TriangleDetail GridPoint Z :=
  set_polys gridDetail
    {[ 0%nat := [unitSquare (0, 0)]; 1%nat := [unitSquare (1, 0)];
       2%nat := [unitSquare (0, 1)] ]} false.

Definition roundTrip (td : TriangleDetail GridPoint Z)
    : option (TriangleDetail GridPoint Z) :=
  updateTrianglesFromPolygons td ≫= updatePolysFromTriangles.

Example roundTrip_paintedGridDetail :
  (λ td, (λ c, cells <$> mColoredPolys td !! c) <$> [0; 1; 2; 3]%nat)
    <$> roundTrip paintedGridDetail
  = Some [Some {[ (0, 0) ]}; Some {[ (1, 0) ]}; Some {[ (0, 1) ]}; None].
Proof. vm_compute. reflexivity. Qed.

(** Twice the area of the polygons of a color, none of which has a hole
    here; a color without a polygon set has no area. *)
Definition doubleArea (td : TriangleDetail GridPoint Z) (color : nat) : Q :=
  Qred (foldr Qplus 0%Q
          ((λ poly, signedArea (outer_boundary poly))
             <$> default [] (mColoredPolys td !! color))).

(** C3, on the code: seen from below every face of the three cells of
    color 1 has its winding against the normal of the triangle.
    [updateTrianglesFromPolygons] sets the color 1 on each of the six
    triangles and then stores a triangle built anew from the swapped
    corners, which carries the color 0 of a triangle that was given none;
    [updatePolysFromTriangles] then finds no triangle of color 1: the round
    trip leaves the color 1, which covered three cells, without a polygon
    set and so without any area, and gives the three cells to the color 0,
    which covered none. *)
Theorem roundTrip_flipped_loses_color :
  (λ c, cells <$> mColoredPolys gridDetailBelow !! c) <$> [0; 1]%nat
  = [None; Some {[ (0, 0); (1, 0); (0, 1) ]}]
  ∧ doubleArea gridDetailBelow <$> [0; 1]%nat = [0; 6]%Q
  ∧ (λ td, Geo.dtColor <$> mTriangles td)
      <$> updateTrianglesFromPolygons gridDetailBelow
    = Some [0; 0; 0; 0; 0; 0]%nat
  ∧ (λ td, (λ c, cells <$> mColoredPolys td !! c) <$> [0; 1]%nat)
      <$> roundTrip gridDetailBelow
    = Some [Some {[ (0, 0); (1, 0); (0, 1) ]}; None]
  ∧ (λ td, doubleArea td <$> [0; 1]%nat) <$> roundTrip gridDetailBelow
    = Some [6; 0]%Q.
Proof. split_and!; vm_compute; reflexivity. Qed.

Lemma roundtrip_regions_witness :
  ∃ td1 td2, updateTrianglesFromPolygons paintedGridDetail = Some td1 ∧
             updatePolysFromTriangles td1 = Some td2 ∧
             ∀ color,
               regionOf gridRegion (default [] (mColoredPolys td2 !! color))
               ≡ regionOf gridRegion
                   (default [] (mColoredPolys paintedGridDetail !! color)).
Proof.
  apply (roundtrip_regions gridRegion paintedGridDetail).
  intros color ps poly f _ _ Hf. by apply (grid_survives _ poly).
Defined.

(** One stroke of color 1 over the cell (1,0) of the grid detail, and the
    detail it leaves. *)
Definition cellStroke : Polygon := [pt 1 0; pt 2 0; pt 2 1; pt 1 1].

Definition strokedDetail : TriangleDetail GridPoint Z :=
  default gridDetail (addPolygon cellStroke 1 gridDetail).

Example addPolygon_cellStroke :
  addPolygon cellStroke 1 gridDetail = Some strokedDetail.
Proof. vm_compute. reflexivity. Qed.

Lemma addPolygon_paints_clipped_witness :
  ∃ td', addPolygon cellStroke 1 gridDetail = Some td' ∧
    mBounds td' = mBounds gridDetail ∧ mColorChanged td' = false ∧
    ∀ x c, x ∈ layer gridRegion td' c ↔
      (x ∈ clipped gridRegion gridDetail cellStroke ∧ c = 1%nat) ∨
      ((x ∉ clipped gridRegion gridDetail cellStroke) ∧
       x ∈ layer gridRegion gridDetail c).
Proof.
  apply (addPolygon_paints_clipped gridRegion cellStroke 1 gridDetail).
  reflexivity.
Defined.

Lemma addPolygon_twice_witness :
  ∃ td2, addPolygon cellStroke 1 strokedDetail = Some td2 ∧
    ∀ c, layer gridRegion td2 c ≡ layer gridRegion strokedDetail c.
Proof.
  apply (addPolygon_twice gridRegion cellStroke 1 gridDetail strokedDetail).
  - reflexivity.
  - vm_compute. reflexivity.
Defined.

Lemma addPolygon_later_wins_witness :
  ∃ td2, addPolygon cellStroke 2 strokedDetail = Some td2 ∧
    ∀ x c, x ∈ layer gridRegion td2 c ↔
      (x ∈ clipped gridRegion gridDetail cellStroke ∧ c = 2%nat) ∨
      ((x ∉ clipped gridRegion gridDetail cellStroke) ∧
       x ∈ layer gridRegion gridDetail c).
Proof.
  apply (addPolygon_later_wins gridRegion cellStroke 1 2 gridDetail strokedDetail).
  - reflexivity.
  - vm_compute. reflexivity.
Defined.

Lemma markDomains_idempotent_witness :
  ∃ ct', markDomains ringTriangulation = Some ct' ∧
    markDomains ct' = Some ct' ∧
    infinite_face ct' = infinite_face ringTriangulation ∧
    Forall2 same_shape (ct_faces ringTriangulation) (ct_faces ct') ∧
    ∃ f, ct_faces ct' !! infinite_face ringTriangulation = Some f ∧
         nestingLevel f = 0 ∧ inDomain f = false.
Proof.
  apply (markDomains_idempotent ringTriangulation). reflexivity.
Defined.

Lemma updateTrianglesFromPolygons_lockstep_witness :
  ∃ td', updateTrianglesFromPolygons strokedDetail = Some td' ∧
    mColoredPolys td' = mColoredPolys strokedDetail ∧
    length (mTriangles td') = length (mTrianglesExact td') ∧
    (∀ tris exact,
       updateTrianglesFromPolygons (set_triangles strokedDetail tris exact)
       = Some td') ∧
    ∀ i t e, mTriangles td' !! i = Some t → mTrianglesExact td' !! i = Some e →
      let img := λ p, toGlmVec (to_3d (mOriginalPlane strokedDetail) p) in
      Geo.dtNormal t = Geo.dtNormal (mOriginal strokedDetail) ∧
      ((Geo.dtTri t = (img e.1.1, img e.1.2, img e.2) ∧
        ∃ ps, mColoredPolys strokedDetail !! Geo.dtColor t = Some ps ∧ ps ≠ []) ∨
       (Geo.dtTri t = (img e.1.1, img e.2, img e.1.2) ∧
        Geo.dtColor t = defaultColor)).
Proof.
  apply (updateTrianglesFromPolygons_lockstep gridRegion strokedDetail).
Defined.

(** The sphere of radius 1 around (-1,1,0) cuts the plane z = 0 in the
    circle of the third stroke of [gridStrokes]. *)
Definition gridSphere : PeprSphere GridPoint :=
  {| pepr_center := (-1, 1, 0); pepr_squared_radius := 1 |}.

Definition gridCircle : Circle3 Z GridPoint :=
  {| circle_center := (-1, 1, 0); circle_squared_radius := 1 - inject_Z 0;
     circle_plane := 0 |}.

Definition gridCirclePolygon : Polygon :=
  default [] (polygonFromCircle gridDetail gridCircle).

Lemma paintSphere_paints_circle_witness :
  (MIN_VERTICES_IN_CIRCLE ≤ length gridCirclePolygon)%nat ∧
  paintSphere gridSphere 2 gridDetail = addCircle gridCircle 2 gridDetail ∧
  ∃ td', paintSphere gridSphere 2 gridDetail = Some td' ∧
    mBounds td' = mBounds gridDetail ∧ mColorChanged td' = false ∧
    ∀ x c, x ∈ layer gridRegion td' c ↔
      (x ∈ clipped gridRegion gridDetail gridCirclePolygon ∧ c = 2%nat) ∨
      ((x ∉ clipped gridRegion gridDetail gridCirclePolygon) ∧
       x ∈ layer gridRegion gridDetail c).
Proof.
  apply (paintSphere_paints_circle gridRegion gridSphere 2 gridDetail gridCircle
           gridCirclePolygon).
  - reflexivity.
  - reflexivity.
  - vm_compute. reflexivity.
Defined.

Lemma findSharedEdge_symmetric_witness :
  (findSharedEdge paintedNeighbour closingEdgeDetail = Some commonEdge ∨
   findSharedEdge paintedNeighbour closingEdgeDetail
   = Some (commonEdge.2, commonEdge.1)) ∧
  findSharedEdge closingEdgeDetail closingEdgeDetail = None ∧
  findSharedEdge paintedNeighbour paintedNeighbour = None.
Proof.
  apply (findSharedEdge_symmetric closingEdgeDetail paintedNeighbour commonEdge).
  - apply (bool_decide_unpack _). vm_compute. reflexivity.
  - apply (bool_decide_unpack _). vm_compute. reflexivity.
  - reflexivity.
Defined.

Lemma edgeSharedPoints_both_sides_witness :
  orderedEdge paintedNeighbour 2 = orderedEdge closingEdgeDetail 2 ∧
  (mOriginalPlane paintedNeighbour = mOriginalPlane closingEdgeDetail →
   edgeSharedPoints paintedNeighbour gridCircle 2
   = edgeSharedPoints closingEdgeDetail gridCircle 2).
Proof.
  apply (edgeSharedPoints_both_sides closingEdgeDetail paintedNeighbour
           gridCircle 2 2).
  - reflexivity.
  - reflexivity.
  - vm_compute. auto.
  - vm_compute. intros H1 H2. discriminate.
Defined.

End Detail.
